(** * hubble-ui: AccessPoint badge and ArrowsRenderer geometry

    A shallow embedding of
      - [client/src/components/ArrowsRenderer/index.tsx]
        ([arrowHandleFromPoints], the flatten loop of [manageArrows], its
        selections by class and its keyed joins), and
      - [src/components/AccessPoint/index.tsx]
        (the visibility rules of the port and of the L7 label).

    JavaScript [Map]s and [Set]s that are iterated are lists in insertion
    order, the [apPositions] map, which is only looked up, is a [gmap],
    template strings are string concatenations, and the arrays filled by
    [push] are threaded through the loops as an explicit state.

    The file has three parts: the embedding, its properties, and the
    properties at sample inputs. *)

From Stdlib Require Import Reals Lra.
From stdpp Require Import gmap strings list.

Set Default Proof Using "Type".

(** * Part I: the embedding *)

(** ** The Vec2 interface

    [~/domain/geometry] is imported by the renderer; the methods it calls on
    a [Vec2] are the fields of this class. [num] is the type of JavaScript
    numbers, [num_half] and [num_two] are the literals [0.5] and [2]. *)

Class Vec2Ops := {
  num : Type;
  Vec2 : Type;
  num_half : num;
  num_two : num;
  num_div : num -> num -> num;
  linterp : Vec2 -> Vec2 -> num -> Vec2;
  sub : Vec2 -> Vec2 -> Vec2;
  add : Vec2 -> Vec2 -> Vec2;
  mul : Vec2 -> num -> Vec2;
  normalize : Vec2 -> Vec2;
  isZero : Vec2 -> bool
}.

(** ** JavaScript Map and Set, as far as the renderer uses them

    A [Map<string, V>] is the list of its entries in insertion order; it is
    well formed when no key occurs twice. [forEach] hands the callback the
    value first and the key second. *)

Abbreviation JsMap V := (list (string * V)) (only parsing).

Definition Map_keys {V : Type} (m : JsMap V) : list string := m.*1.

Definition Map_wf {V : Type} (m : JsMap V) : Prop := NoDup (Map_keys m).

Definition Map_get {V : Type} (k : string) (m : JsMap V) : option V :=
  snd <$> find (fun e => bool_decide (e.1 = k)) m.

Definition Map_delete {V : Type} (k : string) (m : JsMap V) : JsMap V :=
  filter (fun e => e.1 <> k) m.

Definition Map_forEach {V St : Type}
    (m : JsMap V) (callback : St -> V -> string -> St) (st : St) : St :=
  fold_left (fun acc e => callback acc e.2 e.1) m st.

(** A [Set<string>] is the list of its members in insertion order, well
    formed when it has no duplicate. *)

Abbreviation JsSet := (list string) (only parsing).

Definition Set_wf (s : JsSet) : Prop := NoDup s.

Definition Set_forEach {St : Type}
    (s : JsSet) (callback : St -> string -> St) (st : St) : St :=
  fold_left callback s st.

(** ** Composite keys: the two template strings of the flatten loop *)

Definition fromToId_of (senderId receiverId : string) : string :=
  senderId +:+ " -> " +:+ receiverId.

Definition feetId_of (fromToId apId : string) : string :=
  fromToId +:+ " -> " +:+ apId.

(** Occurrence of a character in an id. *)
Fixpoint has_char (c : Ascii.ascii) (s : string) : bool :=
  match s with
  | EmptyString => false
  | String a rest => if Ascii.eqb a c then true else has_char c rest
  end.

(** Number of occurrences of a character in an id. *)
Fixpoint char_count (c : Ascii.ascii) (s : string) : nat :=
  match s with
  | EmptyString => 0
  | String a rest => (if Ascii.eqb a c then 1 else 0) + char_count c rest
  end.

(** The character [>] of the separator [" -> "]. *)
Definition gt_char : Ascii.ascii := Ascii.ascii_of_nat 62.

Definition gt_free (s : string) : bool := negb (has_char gt_char s).

Section Renderer.
Context {ops : Vec2Ops}.

(** [sizes.arrowHandleWidth] of [~/ui/vars]. *)
Variable arrowHandleWidth : num.

(** ** arrowHandleFromPoints *)

Definition arrowHandleFromPoints (points : list Vec2) : option (Vec2 * Vec2) :=
  if length points <? 3 then None
  else
    match points !! 1, points !! 2 with
    | Some start, Some end_ =>
        let mid := linterp start end_ num_half in
        let direction := normalize (sub end_ start) in
        if isZero direction then None
        else
          let handleLength := arrowHandleWidth in
          let handleFrom := sub mid (mul direction (num_div handleLength num_two)) in
          let handleTo := add mid (mul direction (num_div handleLength num_two)) in
          Some (handleFrom, handleTo)
    | _, _ => None
    end.

(** ** The data of [~/domain/layout] and of the component *)

Record Connector := {
  position : Vec2;
  apIds : JsSet
}.

(** [points] and [connector] of a [ConnectorArrow]. *)
Record ConnectorArrow := {
  ca_points : list Vec2;
  connector : Connector
}.

(** [startPoint] and [arrows] of a [SenderArrows]. *)
Record SenderArrows := {
  startPoint : Vec2;
  sa_arrows : JsMap ConnectorArrow
}.

Record Props := {
  arrows : JsMap SenderArrows;
  apPositions : gmap string Vec2
}.

Record ArrowData := {
  points : list Vec2;
  handle : option (Vec2 * Vec2)
}.

Definition Arrow : Type := string * ArrowData.

(** No sender id and no receiver id of the props contains [>]. *)
Definition ids_gt_free (props : Props) : Prop :=
  Forall (fun s => gt_free s.1 = true /\
                   Forall (fun r => gt_free r.1 = true) (sa_arrows s.2))
         (arrows props).

(** The feet key of the triple (S, R, A) is the key of no other fan-out of
    the props that has a position. *)
Definition feetKey_unambiguous (props : Props) (S R A : string) : Prop :=
  forall s sa r ca a,
    (s, sa) ∈ arrows props ->
    (r, ca) ∈ sa_arrows sa ->
    a ∈ apIds (connector ca) ->
    is_Some (apPositions props !! a) ->
    feetId_of (fromToId_of s r) a = feetId_of (fromToId_of S R) A ->
    s = S /\ r = R /\ a = A.

(** No sender id of the props contains [>]. *)
Definition senders_gt_free (props : Props) : Prop :=
  Forall (fun s => gt_free s.1 = true) (arrows props).

(** Every map and set of the props is well formed. *)
Definition SenderArrows_wf (sa : SenderArrows) : Prop :=
  Map_wf (sa_arrows sa) /\
  Forall (fun e => Set_wf (apIds (connector e.2))) (sa_arrows sa).

Definition Props_wf (props : Props) : Prop :=
  Map_wf (arrows props) /\
  Forall (fun e => SenderArrows_wf e.2) (arrows props).

(** ** The flatten loop of manageArrows (lines 203 to 237)

    The five arrays declared before the loop are the fields of the loop
    state; [arrowHandles] is declared and never pushed to. *)

Record Flat := {
  startPlates : list (string * Vec2);
  flat_arrows : list Arrow;
  connectors : list (string * Vec2);
  arrowHandles : list (string * (Vec2 * Vec2));
  feets : list (string * (Vec2 * Vec2))
}.

Definition emptyFlat : Flat :=
  {| startPlates := []; flat_arrows := []; connectors := [];
     arrowHandles := []; feets := [] |}.

Definition push_startPlates (e : string * Vec2) (st : Flat) : Flat :=
  {| startPlates := startPlates st ++ [e]; flat_arrows := flat_arrows st;
     connectors := connectors st; arrowHandles := arrowHandles st;
     feets := feets st |}.

Definition push_arrows (e : Arrow) (st : Flat) : Flat :=
  {| startPlates := startPlates st; flat_arrows := flat_arrows st ++ [e];
     connectors := connectors st; arrowHandles := arrowHandles st;
     feets := feets st |}.

Definition push_connectors (e : string * Vec2) (st : Flat) : Flat :=
  {| startPlates := startPlates st; flat_arrows := flat_arrows st;
     connectors := connectors st ++ [e]; arrowHandles := arrowHandles st;
     feets := feets st |}.

Definition push_feets (e : string * (Vec2 * Vec2)) (st : Flat) : Flat :=
  {| startPlates := startPlates st; flat_arrows := flat_arrows st;
     connectors := connectors st; arrowHandles := arrowHandles st;
     feets := feets st ++ [e] |}.

(** The callback of [connectorArrow.connector.apIds.forEach]. *)
Definition apIdStep (apPositions : gmap string Vec2)
    (fromToId : string) (connectorPosition : Vec2)
    (st : Flat) (apId : string) : Flat :=
  let feetId := feetId_of fromToId apId in
  match apPositions !! apId with
  | None => st
  | Some apPosition => push_feets (feetId, (connectorPosition, apPosition)) st
  end.

(** The callback of [senderArrows.arrows.forEach]. *)
Definition receiverStep (apPositions : gmap string Vec2)
    (senderId : string) (senderArrows : SenderArrows)
    (st : Flat) (connectorArrow : ConnectorArrow) (receiverId : string) : Flat :=
  let fromToId := fromToId_of senderId receiverId in
  let allPoints := [startPoint senderArrows] ++ ca_points connectorArrow in
  let arrowHandle := arrowHandleFromPoints allPoints in
  let st := push_arrows (fromToId, {| points := allPoints; handle := arrowHandle |}) st in
  let connectorPosition := position (connector connectorArrow) in
  let st := push_connectors (fromToId, connectorPosition) st in
  Set_forEach (apIds (connector connectorArrow))
    (apIdStep apPositions fromToId connectorPosition) st.

(** The callback of [arrowsMap.forEach]. *)
Definition senderStep (apPositions : gmap string Vec2)
    (st : Flat) (senderArrows : SenderArrows) (senderId : string) : Flat :=
  let st := push_startPlates (senderId, startPoint senderArrows) st in
  Map_forEach (sa_arrows senderArrows)
    (receiverStep apPositions senderId senderArrows) st.

Definition flatten (props : Props) : Flat :=
  let arrowsMap := arrows props in
  let apPositions := apPositions props in
  Map_forEach arrowsMap (senderStep apPositions) emptyFlat.

(** The props after [arrows.delete(senderId)]. *)
Definition removeSender (senderId : string) (props : Props) : Props :=
  {| arrows := Map_delete senderId (arrows props);
     apPositions := apPositions props |}.

(** ** Closed forms of the loops (Part II proves them equal to the loops) *)

(** The entries one connector adds to [feets]: one per access-point id
    that has a position, in the order of the set. *)
Definition feetsOf (apPositions : gmap string Vec2)
    (fromToId : string) (connectorPosition : Vec2) (ids : JsSet)
    : list (string * (Vec2 * Vec2)) :=
  omap (fun apId =>
          (fun apPosition => (feetId_of fromToId apId, (connectorPosition, apPosition)))
            <$> apPositions !! apId) ids.

(** The arrow and the connector one (sender, receiver) pair adds. *)
Definition arrowOf (senderId : string) (senderArrows : SenderArrows)
    (receiverId : string) (connectorArrow : ConnectorArrow) : Arrow :=
  let allPoints := startPoint senderArrows :: ca_points connectorArrow in
  (fromToId_of senderId receiverId,
   {| points := allPoints; handle := arrowHandleFromPoints allPoints |}).

Definition connectorOf (senderId receiverId : string)
    (connectorArrow : ConnectorArrow) : string * Vec2 :=
  (fromToId_of senderId receiverId, position (connector connectorArrow)).

(** The (sender entry, receiver entry) pairs in the order the two nested
    [forEach] visit them. *)
Definition flattenedPairs (arrowsMap : JsMap SenderArrows)
    : list ((string * SenderArrows) * (string * ConnectorArrow)) :=
  arrowsMap ≫= fun s => (fun r => (s, r)) <$> sa_arrows s.2.

(** Field-wise concatenation of two loop states. *)
Definition Flat_app (a b : Flat) : Flat :=
  {| startPlates := startPlates a ++ startPlates b;
     flat_arrows := flat_arrows a ++ flat_arrows b;
     connectors := connectors a ++ connectors b;
     arrowHandles := arrowHandles a ++ arrowHandles b;
     feets := feets a ++ feets b |}.

Definition Flat_concat (ds : list Flat) : Flat := foldr Flat_app emptyFlat ds.

(** What one iteration of each loop appends. *)
Definition apIdDelta (apPositions : gmap string Vec2)
    (fromToId : string) (connectorPosition : Vec2) (apId : string) : Flat :=
  {| startPlates := []; flat_arrows := []; connectors := []; arrowHandles := [];
     feets := feetsOf apPositions fromToId connectorPosition [apId] |}.

Definition receiverDelta (apPositions : gmap string Vec2)
    (senderId : string) (senderArrows : SenderArrows)
    (r : string * ConnectorArrow) : Flat :=
  {| startPlates := [];
     flat_arrows := [arrowOf senderId senderArrows r.1 r.2];
     connectors := [connectorOf senderId r.1 r.2];
     arrowHandles := [];
     feets := feetsOf apPositions (fromToId_of senderId r.1)
                (position (connector r.2)) (apIds (connector r.2)) |}.

Definition senderDelta (apPositions : gmap string Vec2)
    (s : string * SenderArrows) : Flat :=
  Flat_app
    {| startPlates := [(s.1, startPoint s.2)]; flat_arrows := [];
       connectors := []; arrowHandles := []; feets := [] |}
    (Flat_concat (receiverDelta apPositions s.1 s.2 <$> sa_arrows s.2)).

End Renderer.

(** ** AccessPoint: what the badge shows *)

Section AccessPoint.

(** [IPProtocol] and [L7Kind] of [~/domain/hubble] are enumerations; the
    component compares their members with [!==] and names the members
    [ICMPv4], [ICMPv6] and [Unknown]. [truthy] is the JavaScript truthiness
    of the runtime value of an [L7Kind] member (a non-empty string or a
    non-zero number is truthy), which the guard [props.l7Protocol && ...]
    tests. *)
Context {IPProtocol : Type} `{EqDecision IPProtocol}.
Context {L7Kind : Type} `{EqDecision L7Kind}.
Variables ICMPv4 ICMPv6 : IPProtocol.
Variable Unknown : L7Kind.
Variable truthy : L7Kind -> bool.

(** The props the render reads; [l7Protocol] is optional. [verdicts] is
    never read and [connectorRef] only by the layout effect. *)
Record AccessPointProps := {
  port : Z;
  l4Protocol : IPProtocol;
  l7Protocol : option L7Kind
}.

(** The children of the [data] element, fragments flattened. [RawValue] is
    a falsy [l7Protocol] value that [&&] hands to the renderer as it is. *)
Inductive DataChild :=
  | PortElement (p : Z)
  | DotElement
  | L4ProtocolElement (p : IPProtocol)
  | L7ProtocolElement (k : L7Kind)
  | RawValue (k : L7Kind).

Definition showPort (props : AccessPointProps) : bool :=
  bool_decide (l4Protocol props <> ICMPv4) && bool_decide (l4Protocol props <> ICMPv6).

Definition showL7Protocol (props : AccessPointProps) : bool :=
  match l7Protocol props with
  | None => false
  | Some k => bool_decide (k <> Unknown)
  end.

Definition dataChildren (props : AccessPointProps) : list DataChild :=
  (if showPort props then [PortElement (port props); DotElement] else [])
  ++ [L4ProtocolElement (l4Protocol props)]
  ++ match l7Protocol props with
     | None => []
     | Some k =>
         if truthy k then
           if showL7Protocol props then [DotElement; L7ProtocolElement k] else []
         else [RawValue k]
     end.

End AccessPoint.

(** ** Vec2 over the real numbers *)

Module RealGeometry.

#[export] Instance R_eq_dec : EqDecision R := Req_dec_T.

(** Modelled from the spec: [Vec2], "a 2D point (x, y) with vector
    operations (distance, subtract, add, normalize, linear interpolation,
    scalar multiply)", whose class is not part of the sources. Coordinates
    are real numbers. *)
Record RVec2 := { x : R; y : R }.

#[export] Instance RVec2_eq_dec : EqDecision RVec2.
Proof. solve_decision. Defined.

Definition zero : RVec2 := {| x := 0; y := 0 |}.

Definition vsub (a b : RVec2) : RVec2 := {| x := x a - x b; y := y a - y b |}.

Definition vadd (a b : RVec2) : RVec2 := {| x := x a + x b; y := y a + y b |}.

Definition vmul (a : RVec2) (k : R) : RVec2 := {| x := x a * k; y := y a * k |}.

Definition vlinterp (a b : RVec2) (t : R) : RVec2 := vadd a (vmul (vsub b a) t).

Definition vlength (a : RVec2) : R := sqrt (x a * x a + y a * y a).

Definition distance (a b : RVec2) : R := vlength (vsub b a).

(** Modelled from the spec: the "unit direction", which "has zero
    magnitude" when "the two points coincide". *)
Definition vnormalize (a : RVec2) : RVec2 :=
  let l := vlength a in
  if decide (l = 0%R) then zero else {| x := x a / l; y := y a / l |}.

Definition visZero (a : RVec2) : bool := bool_decide (a = zero).

#[export] Instance real_ops : Vec2Ops := {|
  num := R;
  Vec2 := RVec2;
  num_half := (1 / 2)%R;
  num_two := 2%R;
  num_div := Rdiv;
  linterp := vlinterp;
  sub := vsub;
  add := vadd;
  mul := vmul;
  normalize := vnormalize;
  isZero := visZero
|}.

End RealGeometry.

(** ** Sample inputs, over the real model *)

Module Samples.
Import RealGeometry.

Definition pt (a b : R) : RVec2 := {| x := a; y := b |}.

Definition sampleWidth : R := 8.

(** Sender ["S"] with receiver ["R"], whose connector at (20, 5) fans out
    to ["A"], which has a position, and to ["B"], which has none. *)
Definition sampleConnectorArrow : ConnectorArrow :=
  {| ca_points := [pt 0 0; pt 10 0; pt 20 5];
     connector := {| position := pt 20 5; apIds := ["A"; "B"] |} |}.

Definition sampleSender : SenderArrows :=
  {| startPoint := pt (-5) 0; sa_arrows := [("R", sampleConnectorArrow)] |}.

Definition sampleProps : Props :=
  {| arrows := [("S", sampleSender)];
     apPositions := {["A" := pt 30 9]} |}.

(** Two senders, ["a"] with receiver ["b -> c"] and ["a -> b"] with
    receiver ["c"], both fanning out to ["d"]. *)
Definition dottedConnectorArrow : ConnectorArrow :=
  {| ca_points := []; connector := {| position := pt 1 1; apIds := ["d"] |} |}.

Definition senderA : SenderArrows :=
  {| startPoint := pt 0 0; sa_arrows := [("b -> c", dottedConnectorArrow)] |}.

Definition senderAB : SenderArrows :=
  {| startPoint := pt 0 3; sa_arrows := [("c", dottedConnectorArrow)] |}.

Definition collidingProps : Props :=
  {| arrows := [("a", senderA); ("a -> b", senderAB)];
     apPositions := {["d" := pt 2 2]} |}.

(** Two senders with two receivers each; every connector fans out to two
    access points, all of which have a position. *)
Definition richConnectorArrow (a b : string) (cx : R) : ConnectorArrow :=
  {| ca_points := [pt 0 0; pt cx 0; pt cx 5];
     connector := {| position := pt cx 5; apIds := [a; b] |} |}.

Definition richSender1 : SenderArrows :=
  {| startPoint := pt (-5) 0;
     sa_arrows := [("R1", richConnectorArrow "A" "B" 20);
                   ("R2", richConnectorArrow "C" "D" 40)] |}.

Definition richSender2 : SenderArrows :=
  {| startPoint := pt (-5) 50;
     sa_arrows := [("R1", richConnectorArrow "A" "C" 30);
                   ("R3", richConnectorArrow "B" "D" 60)] |}.

Definition richProps : Props :=
  {| arrows := [("S1", richSender1); ("S2", richSender2)];
     apPositions := {["A" := pt 70 10; "B" := pt 70 20;
                      "C" := pt 70 30; "D" := pt 70 40]} |}.

(** A sender whose id is the class of the feets group. *)
Definition feetsNamedProps : Props :=
  {| arrows := [("feets", sampleSender)];
     apPositions := {["A" := pt 30 9]} |}.

(** Sender ["S"] without receivers, and sender ["T"] with a receiver
    whose id is the class of the start-plates group. *)
Definition loneSender : SenderArrows :=
  {| startPoint := pt 0 0; sa_arrows := [] |}.

Definition platesNamedSender : SenderArrows :=
  {| startPoint := pt 0 9; sa_arrows := [("start-plates", sampleConnectorArrow)] |}.

Definition platesNamedProps : Props :=
  {| arrows := [("S", loneSender); ("T", platesNamedSender)];
     apPositions := ∅ |}.

End Samples.

(** ** The visual nodes (lines 31 to 171)

    What the enter and update callbacks build, for one datum. A node is an
    element with a tag, attributes and children. [selection.attr] writes an
    attribute, [selection.append] adds a last child and goes on with it,
    [selection.select] goes on with the first descendant, in document
    order, that matches a selector, and does nothing when there is none.
    Attribute values are kept as they are handed to [attr]: a text, a
    number, or the path a function computes. *)

(** An interpolated number of a path template; [MinusArg n] is the text
    of [n] behind a minus sign, as in [h -${w - r}]. *)
Inductive PathArg (N : Type) :=
  | Arg (n : N)
  | MinusArg (n : N).
Arguments Arg {N} n.
Arguments MinusArg {N} n.

(** The commands of the path templates: [M], [L] and [A] with absolute
    coordinates, [h], [v] and [a] with relative ones, and [Z] or [z]. The
    arc carries its two radii, its rotation and its two flags. *)
Inductive PathCmd (N : Type) :=
  | M_abs (x y : N)
  | L_abs (x y : N)
  | A_abs (rx ry : N) (rotation : Z) (largeArc sweep : bool) (x y : N)
  | h_rel (dx : PathArg N)
  | v_rel (dy : PathArg N)
  | a_rel (rx ry : N) (rotation : Z) (largeArc sweep : bool) (dx dy : PathArg N)
  | Z_close.
Arguments M_abs {N} x y.
Arguments L_abs {N} x y.
Arguments A_abs {N} rx ry rotation largeArc sweep x y.
Arguments h_rel {N} dx.
Arguments v_rel {N} dy.
Arguments a_rel {N} rx ry rotation largeArc sweep dx dy.
Arguments Z_close {N}.

Inductive AttrValue (N : Type) :=
  | AttrText (s : string)
  | AttrNum (n : N)
  | AttrPath (p : list (PathCmd N))
  | AttrLine (pts : list (N * N)).
Arguments AttrText {N} s.
Arguments AttrNum {N} n.
Arguments AttrPath {N} p.
Arguments AttrLine {N} pts.

Inductive Element (N : Type) :=
  | Elem (tag : string) (attrs : gmap string (AttrValue N)) (children : list (Element N)).
Arguments Elem {N} tag attrs children.

Definition tagOf {N : Type} (e : Element N) : string :=
  match e with Elem tag _ _ => tag end.

Definition attrsOf {N : Type} (e : Element N) : gmap string (AttrValue N) :=
  match e with Elem _ attrs _ => attrs end.

Definition childrenOf {N : Type} (e : Element N) : list (Element N) :=
  match e with Elem _ _ children => children end.

(** [document.createElement(tag)], [selection.attr(name, value)] and
    [selection.append(child)] on one node. *)
Definition createElement {N : Type} (tag : string) : Element N := Elem tag ∅ [].

Definition attr {N : Type} (name : string) (value : AttrValue N) (e : Element N)
    : Element N :=
  match e with Elem tag attrs children => Elem tag (<[name := value]> attrs) children end.

Definition append {N : Type} (child : Element N) (e : Element N) : Element N :=
  match e with Elem tag attrs children => Elem tag attrs (children ++ [child]) end.

(** The white space that separates the tokens of a class attribute. *)
Definition isClassSpace (c : Ascii.ascii) : bool :=
  let n := Ascii.nat_of_ascii c in
  (n =? 32) || (n =? 9) || (n =? 10) || (n =? 12) || (n =? 13).

(** The tokens of a class attribute; [cur] is the token being read. *)
Fixpoint classTokens_go (cur : string) (s : string) : list string :=
  match s with
  | EmptyString => if String.eqb cur "" then [] else [cur]
  | String c rest =>
      if isClassSpace c then
        (if String.eqb cur "" then [] else [cur]) ++ classTokens_go "" rest
      else classTokens_go (cur +:+ String c "") rest
  end.

Definition classTokens (s : string) : list string := classTokens_go "" s.

Definition hasClass {N : Type} (cls : string) (e : Element N) : bool :=
  match attrsOf e !! "class" with
  | Some (AttrText s) => bool_decide (cls ∈ classTokens s)
  | _ => false
  end.

(** The selectors of the update callbacks: a tag (['line'], ['circle']),
    a tag with a class (['path.line'], ['path.handle']), and a tag below
    an ancestor with a tag (['g path']). *)
Inductive Selector :=
  | SelTag (tag : string)
  | SelTagClass (tag cls : string)
  | SelDescendant (ancestorTag tag : string).

(** Whether an element matches, given the tags of its ancestors. *)
Definition matchesSelector {N : Type} (sel : Selector)
    (ancestors : list string) (e : Element N) : bool :=
  match sel with
  | SelTag tag => String.eqb (tagOf e) tag
  | SelTagClass tag cls => String.eqb (tagOf e) tag && hasClass cls e
  | SelDescendant ancestorTag tag =>
      String.eqb (tagOf e) tag && bool_decide (ancestorTag ∈ ancestors)
  end.

(** [f] applied to the first descendant of [e], in document order, that
    matches; [None] when no descendant matches. The ancestors start at
    the node the selection holds, which the update callbacks get from
    [selectAll('g')]. *)
Fixpoint selectModify {N : Type} (sel : Selector) (f : Element N -> Element N)
    (ancestors : list string) (e : Element N) : option (Element N) :=
  match e with
  | Elem tag attrs children =>
      let ancestors' := tag :: ancestors in
      let go :=
        fix go (cs : list (Element N)) : option (list (Element N)) :=
          match cs with
          | [] => None
          | c :: rest =>
              if matchesSelector sel ancestors' c then Some (f c :: rest)
              else
                match selectModify sel f ancestors' c with
                | Some c' => Some (c' :: rest)
                | None => cons c <$> go rest
                end
          end in
      Elem tag attrs <$> go children
  end.

(** [selection.select(sel)] followed by the calls [f] on the result. *)
Definition select {N : Type} (sel : Selector) (f : Element N -> Element N)
    (e : Element N) : Element N :=
  default e (selectModify sel f [] e).

Section Rendering.
Context {ops : Vec2Ops}.

(** The coordinates [d.x] and [d.y] of a [Vec2], the subtraction and the
    multiplication of numbers, and the integer literals. *)
Variables Vec2_x Vec2_y : Vec2 -> num.
Variables num_sub num_mul : num -> num -> num.
Variable num_of_Z : Z -> num.

(** The literals [10.87] and [11.61]. *)
Variables num_10_87 num_11_61 : num.

(** [start.distance(end)], [Line2.throughPoints(start, end).normal] and
    [gutils.roundCorner(r, [a, b, c])] of [~/domain/geometry]. *)
Variable distance : Vec2 -> Vec2 -> num.
Variable Line2_normal : Vec2 -> Vec2 -> Vec2.
Variable roundCorner : num -> Vec2 -> Vec2 -> Vec2 -> Vec2 * Vec2.

(** [colors] and [sizes] of [~/ui/vars]. *)
Variables colors_connectorFill colors_arrowStroke : string.
Variables colors_arrowHandle colors_feetStroke : string.
Variables sizes_linkWidth sizes_feetWidth : num.

(** [d3.line().x(d => d.x).y(d => d.y)] applied to the points. *)
Definition arrowLine (pts : list Vec2) : AttrValue num :=
  AttrLine ((fun d => (Vec2_x d, Vec2_y d)) <$> pts).

Definition startPlatePath (d : string * Vec2) : list (PathCmd num) :=
  let x := Vec2_x d.2 in
  let y := Vec2_y d.2 in
  let r := num_of_Z 3 in
  let w := num_of_Z 10 in
  let h := num_of_Z 30 in
  let tr := a_rel r r 0 false true (Arg r) (Arg r) in
  let br := a_rel r r 0 false true (MinusArg r) (Arg r) in
  [ M_abs x (num_sub y (num_div h (num_of_Z 2)));
    h_rel (Arg (num_sub w r));
    tr;
    v_rel (Arg (num_sub h (num_mul (num_of_Z 2) r)));
    br;
    h_rel (MinusArg (num_sub w r));
    Z_close ].

Definition startPlatesEnter (d : string * Vec2) : Element num :=
  append
    (attr "d" (AttrPath (startPlatePath d))
       (attr "stroke-width" (AttrNum sizes_linkWidth)
          (attr "stroke" (AttrText colors_arrowStroke)
             (attr "fill" (AttrText colors_connectorFill)
                (createElement "path")))))
    (attr "class" (AttrText d.1) (createElement "g")).

Definition startPlatesUpdate (d : string * Vec2) (node : Element num) : Element num :=
  select (SelDescendant "g" "path") (attr "d" (AttrPath (startPlatePath d))) node.

(** The empty string is the empty path. [height] is computed and not
    used. *)
Definition arrowHandle (handle : option (Vec2 * Vec2)) : list (PathCmd num) :=
  match handle with
  | None => []
  | Some (start, end_) =>
      let figmaFactor := num_div num_10_87 num_11_61 in
      let width := distance start end_ in
      let height := num_mul width figmaFactor in
      let side := mul (Line2_normal start end_) (num_div width (num_of_Z 2)) in
      let baseA := add start side in
      let baseB := sub start side in
      let r := num_of_Z 2 in
      let ar := roundCorner r start baseA end_ in
      let br := roundCorner r start baseB end_ in
      let er := roundCorner r baseA end_ baseB in
      [ M_abs (Vec2_x start) (Vec2_y start);
        L_abs (Vec2_x ar.1) (Vec2_y ar.1);
        A_abs r r 0 false false (Vec2_x ar.2) (Vec2_y ar.2);
        L_abs (Vec2_x er.1) (Vec2_y er.1);
        A_abs r r 0 false false (Vec2_x er.2) (Vec2_y er.2);
        L_abs (Vec2_x br.2) (Vec2_y br.2);
        A_abs r r 0 false false (Vec2_x br.1) (Vec2_y br.1);
        Z_close ]
  end.

Definition arrowsEnter (d : Arrow) : Element num :=
  let arrowGroup := attr "class" (AttrText d.1) (createElement "g") in
  let arrowGroup :=
    append
      (attr "d" (arrowLine (points d.2))
         (attr "fill" (AttrText "none")
            (attr "stroke-width" (AttrNum sizes_linkWidth)
               (attr "stroke" (AttrText colors_arrowStroke)
                  (attr "class" (AttrText "line") (createElement "path"))))))
      arrowGroup in
  let arrowGroup :=
    append
      (attr "d" (AttrPath (arrowHandle (handle d.2)))
         (attr "stroke" (AttrText "none")
            (attr "fill" (AttrText colors_arrowHandle)
               (attr "class" (AttrText "handle") (createElement "path")))))
      arrowGroup in
  arrowGroup.

Definition arrowsUpdate (d : Arrow) (node : Element num) : Element num :=
  let node := select (SelTagClass "path" "line") (attr "d" (arrowLine (points d.2))) node in
  let node :=
    select (SelTagClass "path" "handle")
      (attr "d" (AttrPath (arrowHandle (handle d.2)))) node in
  node.

(** The four coordinates both feet callbacks write. *)
Definition feetsCoordinates (d : string * (Vec2 * Vec2)) (e : Element num) : Element num :=
  attr "y2" (AttrNum (Vec2_y d.2.2))
    (attr "x2" (AttrNum (Vec2_x d.2.2))
       (attr "y1" (AttrNum (Vec2_y d.2.1))
          (attr "x1" (AttrNum (Vec2_x d.2.1)) e))).

Definition feetsEnter (d : string * (Vec2 * Vec2)) : Element num :=
  append
    (attr "stroke-width" (AttrNum sizes_feetWidth)
       (attr "stroke" (AttrText colors_feetStroke)
          (feetsCoordinates d (createElement "line"))))
    (attr "class" (AttrText d.1) (createElement "g")).

Definition feetsUpdate (d : string * (Vec2 * Vec2)) (node : Element num) : Element num :=
  select (SelTag "line") (feetsCoordinates d) node.

Definition connectorsEnter (d : string * Vec2) : Element num :=
  append
    (attr "fill" (AttrText colors_connectorFill)
       (attr "stroke-width" (AttrNum sizes_linkWidth)
          (attr "stroke" (AttrText colors_arrowStroke)
             (attr "r" (AttrText "7.5")
                (attr "cy" (AttrNum (Vec2_y d.2))
                   (attr "cx" (AttrNum (Vec2_x d.2))
                      (createElement "circle")))))))
    (attr "class" (AttrText d.1) (createElement "g")).

Definition connectorsUpdate (d : string * Vec2) (node : Element num) : Element num :=
  select (SelTag "circle")
    (fun e => attr "cy" (AttrNum (Vec2_y d.2)) (attr "cx" (AttrNum (Vec2_x d.2)) e))
    node.

End Rendering.

(** ** Where a path goes

    The pen of a path over the real numbers: [M], [L] and [A] put it at
    their coordinates, [h], [v] and [a] move it by theirs, and [Z] puts
    it back where the last [M] put it. *)

Definition argValue (a : PathArg R) : R :=
  match a with
  | Arg n => n
  | MinusArg n => (- n)%R
  end.

(** The state is the start of the subpath and the pen. *)
Definition penStep (st : (R * R) * (R * R)) (c : PathCmd R) : (R * R) * (R * R) :=
  let '(start, (px, py)) := st in
  match c with
  | M_abs x y => ((x, y), (x, y))
  | L_abs x y => (start, (x, y))
  | A_abs _ _ _ _ _ x y => (start, (x, y))
  | h_rel dx => (start, ((px + argValue dx)%R, py))
  | v_rel dy => (start, (px, (py + argValue dy)%R))
  | a_rel _ _ _ _ _ dx dy => (start, ((px + argValue dx)%R, (py + argValue dy)%R))
  | Z_close => (start, start)
  end.

(** The pen after each command of a path, from the origin. *)
Fixpoint penTrace_from (st : (R * R) * (R * R)) (p : list (PathCmd R)) : list (R * R) :=
  match p with
  | [] => []
  | c :: rest => let st' := penStep st c in st'.2 :: penTrace_from st' rest
  end.

Definition penTrace (p : list (PathCmd R)) : list (R * R) :=
  penTrace_from ((0%R, 0%R), (0%R, 0%R)) p.

(** [startPlatePath] with the numbers and coordinates of the real model. *)
Definition realStartPlatePath (d : string * RealGeometry.RVec2) : list (PathCmd R) :=
  startPlatePath (ops := RealGeometry.real_ops)
    RealGeometry.x RealGeometry.y Rminus Rmult IZR d.

(** ** Counting the children of the badge *)

Section BadgeParts.
Context {IPProtocol L7Kind : Type}.

Definition isPortElement (c : @DataChild IPProtocol L7Kind) : bool :=
  match c with PortElement _ => true | _ => false end.

Definition isDotElement (c : @DataChild IPProtocol L7Kind) : bool :=
  match c with DotElement => true | _ => false end.

Definition isL4ProtocolElement (c : @DataChild IPProtocol L7Kind) : bool :=
  match c with L4ProtocolElement _ => true | _ => false end.

Definition isL7ProtocolElement (c : @DataChild IPProtocol L7Kind) : bool :=
  match c with L7ProtocolElement _ => true | _ => false end.

Definition countChildren (kind : @DataChild IPProtocol L7Kind -> bool)
    (children : list (@DataChild IPProtocol L7Kind)) : nat :=
  length (filter (fun c => kind c = true) children).

End BadgeParts.

(** ** Sample rendering parameters, over the real model *)

Module RenderSamples.
Import RealGeometry Samples.

(** Modelled from the spec: [Line2], "a line derived through two points,
    exposing a unit normal vector". *)
Definition sampleNormal (a b : RVec2) : RVec2 :=
  vnormalize {| x := (y a - y b)%R; y := (x b - x a)%R |}.

(** A stand-in for [gutils.roundCorner] that leaves the corner sharp:
    both points of the rounding are the corner itself. *)
Definition sharpCorner (r : R) (a b c : RVec2) : RVec2 * RVec2 := (b, b).

Definition sampleStroke : string := "#6b7584".

Definition sampleFill : string := "#ffffff".

Definition sampleLinkWidth : R := 2.

End RenderSamples.

(** ** The elements under the mount point and the passes (lines 193 to 280)

    The component renders a root [g] with four empty group elements, in
    the order arrows, start-plates, feets, connectors. Every pass selects
    its four groups again, by class, among the descendants of the root,
    and joins each flattened collection into the [g] descendants of the
    group it selected. The elements the joins create are [g] elements
    whose class is the key of their datum, so they take part in the next
    selection by class.

    Only the [g] elements are kept: the [path], [line] and [circle]
    children of a node have no class of a group and are not selected by
    [selectAll('g')]. An element has an identity, its class, the datum
    bound to it and its [g] children. *)

Inductive Outcome (A : Type) :=
  | Done (a : A)
  | Throws
  | Unmodelled.
Arguments Done {A} a.
Arguments Throws {A}.
Arguments Unmodelled {A}.

Definition Outcome_bind {A B : Type} (o : Outcome A) (f : A -> Outcome B) : Outcome B :=
  match o with
  | Done a => f a
  | Throws => Throws
  | Unmodelled => Unmodelled
  end.

(** The letters of a token in lower case. *)
Definition lowerAscii (c : Ascii.ascii) : Ascii.ascii :=
  let n := Ascii.nat_of_ascii c in
  if (65 <=? n) && (n <=? 90) then Ascii.ascii_of_nat (n + 32) else c.

Fixpoint lowerString (s : string) : string :=
  match s with
  | EmptyString => EmptyString
  | String c rest => String (lowerAscii c) (lowerString rest)
  end.

(** The classes of the three groups that come after the first one. *)
Definition laterGroupClasses : list string := ["start-plates"; "feets"; "connectors"].

(** A key is safe as a class when none of its tokens is the class of one
    of these groups, whatever the case of its letters. *)
Definition tokenSafe (key : string) : bool :=
  forallb (fun cls => negb (bool_decide (cls ∈ lowerString <$> classTokens key)))
          laterGroupClasses.

Definition hasToken (cls s : string) : bool := bool_decide (cls ∈ classTokens s).

Section DomModel.
Context {ops : Vec2Ops}.
Variable arrowHandleWidth : num.

(** The datum bound to a node: an entry of one of the four collections. *)
Inductive Datum :=
  | PlateDatum (d : string * Vec2)
  | ArrowDatum (d : Arrow)
  | ConnectorDatum (d : string * Vec2)
  | FeetDatum (d : string * (Vec2 * Vec2)).

(** The key function [d => d[0]]. *)
Definition datumKey (d : Datum) : string :=
  match d with
  | PlateDatum d => d.1
  | ArrowDatum d => d.1
  | ConnectorDatum d => d.1
  | FeetDatum d => d.1
  end.

Inductive GNode :=
  | GN (id : nat) (cls : string) (datum : option Datum) (kids : list GNode).

Definition g_id (n : GNode) : nat := match n with GN id _ _ _ => id end.
Definition g_cls (n : GNode) : string := match n with GN _ cls _ _ => cls end.
Definition g_datum (n : GNode) : option Datum := match n with GN _ _ datum _ => datum end.
Definition g_kids (n : GNode) : list GNode := match n with GN _ _ _ kids => kids end.

(** The descendants of a node in document order. *)
Fixpoint descendants (n : GNode) : list GNode :=
  match n with
  | GN _ _ _ kids =>
      (fix go (l : list GNode) : list GNode :=
         match l with
         | [] => []
         | k :: rest => (k :: descendants k) ++ go rest
         end) kids
  end.

(** The nodes of a list of sibling subtrees in document order. *)
Definition forestNodes (l : list GNode) : list GNode :=
  l ≫= fun k => k :: descendants k.

(** [rootGroup.select('.cls')]: the first descendant of the root, in
    document order, that has the class. *)
Definition selectClass (cls : string) (root : GNode) : option nat :=
  g_id <$> find (fun n => hasToken cls (g_cls n)) (descendants root).

Definition nodeById (p : nat) (root : GNode) : option GNode :=
  find (fun n => g_id n =? p) (root :: descendants root).

(** The children of the node with an identity are replaced. *)
Fixpoint setKids (p : nat) (new : list GNode) (n : GNode) : GNode :=
  match n with
  | GN i c d kids =>
      if i =? p then GN i c d new
      else
        GN i c d
          ((fix go (l : list GNode) : list GNode :=
              match l with
              | [] => []
              | k :: rest => setKids p new k :: go rest
              end) kids)
  end.

(** [node.__data__ = d] for the node with an identity. *)
Fixpoint setDatum (p : nat) (d : Datum) (n : GNode) : GNode :=
  match n with
  | GN i c old kids =>
      GN i c (if i =? p then Some d else old)
        ((fix go (l : list GNode) : list GNode :=
            match l with
            | [] => []
            | k :: rest => setDatum p d k :: go rest
            end) kids)
  end.

(** [selection.remove()]: the nodes with these identities leave their
    parents, with their subtrees. *)
Fixpoint removeBelow (ids : list nat) (n : GNode) : GNode :=
  match n with
  | GN i c d kids =>
      GN i c d
        ((fix go (l : list GNode) : list GNode :=
            match l with
            | [] => []
            | k :: rest =>
                if bool_decide (g_id k ∈ ids) then go rest
                else removeBelow ids k :: go rest
            end) kids)
  end.

Definition removeNodes (ids : list nat) (l : list GNode) : list GNode :=
  g_kids (removeBelow ids (GN 0 "" None l)).

(** *** The keyed data join

    Modelled from the spec: the keyed join of d3
    ([selectAll('g').data(data, d => d[0]).join(enter, update)]), which is
    not part of the sources: new keys enter, persisting keys update their
    node in place, disappeared keys exit. Where a key occurs twice the
    spec is silent and the definitions follow d3's bind: of the nodes
    with one key the first is kept and the others exit; a datum takes the
    node kept for its key, if no earlier datum took it, and enters
    otherwise. *)

(** What a datum is bound to. *)
Inductive Slot :=
  | Upd (id : nat) (d : Datum)
  | Ent (d : Datum).

(** The node kept for each key: the first of the group with it. *)
Definition registerNodes (nodes : list (nat * string)) : gmap string nat :=
  fold_left (fun m n => match m !! n.2 with
                        | Some _ => m
                        | None => <[n.2 := n.1]> m
                        end) nodes ∅.

(** The slots of the data, in order, and the nodes no datum took. *)
Fixpoint bindData (m : gmap string nat) (data : list Datum)
    : list Slot * gmap string nat :=
  match data with
  | [] => ([], m)
  | d :: rest =>
      match m !! datumKey d with
      | Some id =>
          let r := bindData (delete (datumKey d) m) rest in
          (Upd id d :: r.1, r.2)
      | None =>
          let r := bindData m rest in
          (Ent d :: r.1, r.2)
      end
  end.

(** The exit: the nodes that were not kept for their key and the kept
    nodes that no datum took. *)
Definition exitIds (nodes : list (nat * string)) (kept left : gmap string nat)
    : list nat :=
  (filter (fun n => kept !! n.2 <> Some n.1 \/ left !! n.2 = Some n.1) nodes).*1.

(** The identity and the key of a node of the group; the key function
    throws on a node without a datum. *)
Definition nodeKey (n : GNode) : option (nat * string) :=
  (fun d => (g_id n, datumKey d)) <$> g_datum n.

(** The update node that follows a slot, before which an entering node
    is inserted. *)
Fixpoint nextUpdate (rest : list Slot) : option nat :=
  match rest with
  | [] => None
  | Upd id _ :: _ => Some id
  | Ent _ :: more => nextUpdate more
  end.

(** [parent.insertBefore(new, next)] among the children of the parent;
    it throws when [next] is not one of them. *)
Fixpoint insertBefore (next : nat) (new : GNode) (kids : list GNode)
    : option (list GNode) :=
  match kids with
  | [] => None
  | k :: rest =>
      if g_id k =? next then Some (new :: k :: rest)
      else cons k <$> insertBefore next new rest
  end.

(** [enter.append('g').attr('class', d => d[0])]: every entering datum
    gets a new node, before the update node that follows it or at the
    end. The result has the children, the nodes of the slots in the order
    of the data, and the next unused identity. *)
Fixpoint enterAll (fresh : nat) (slots : list Slot) (kids : list GNode)
    : option (list GNode * list nat * nat) :=
  match slots with
  | [] => Some (kids, [], fresh)
  | Upd id _ :: rest =>
      match enterAll fresh rest kids with
      | Some (kids', merged, fresh') => Some (kids', id :: merged, fresh')
      | None => None
      end
  | Ent d :: rest =>
      let new := GN fresh (datumKey d) (Some d) [] in
      let inserted :=
        match nextUpdate rest with
        | None => Some (kids ++ [new])
        | Some next => insertBefore next new kids
        end in
      match inserted with
      | None => None
      | Some kids1 =>
          match enterAll (S fresh) rest kids1 with
          | Some (kids', merged, fresh') => Some (kids', fresh :: merged, fresh')
          | None => None
          end
      end
  end.

(** The update nodes take their new datum. *)
Fixpoint setData (slots : list Slot) (kids : list GNode) : list GNode :=
  match slots with
  | [] => kids
  | Upd id d :: rest => setData rest (g_kids (setDatum id d (GN 0 "" None kids)))
  | Ent _ :: rest => setData rest kids
  end.

(** [selection.order()] among siblings: from the last node of the
    selection to the first, a node that does not come before the node
    after it in the selection is moved to just before that node. *)
Definition indexOfNode (i : nat) (kids : list GNode) : option nat :=
  fst <$> list_find (fun k => g_id k = i) kids.

Definition precedes (a b : nat) (kids : list GNode) : bool :=
  match indexOfNode a kids, indexOfNode b kids with
  | Some pa, Some pb => pa <? pb
  | _, _ => false
  end.

Definition moveBefore (a b : nat) (kids : list GNode) : list GNode :=
  match find (fun k => g_id k =? a) kids with
  | None => kids
  | Some na =>
      default kids (insertBefore b na (filter (fun k => g_id k <> a) kids))
  end.

Fixpoint order_go (before : list nat) (next : nat) (kids : list GNode) : list GNode :=
  match before with
  | [] => kids
  | node :: more =>
      order_go more node
        (if precedes node next kids then kids else moveBefore node next kids)
  end.

Definition orderNodes (merged : list nat) (kids : list GNode) : list GNode :=
  match rev merged with
  | [] => kids
  | last :: before => order_go before last kids
  end.

(** The join of data into the [g] descendants of a parent with these
    children: the children it leaves, the next unused identity, and the
    keys of the nodes of its exit. [ordered] tells whether the callbacks
    hand their [g] nodes to [join], which then orders them ([arrowsEnter]
    and [arrowsUpdate] do; the other callbacks hand over the [path],
    [line] or [circle]). The ordering is followed when the ordered nodes
    are all children of the parent; a pass that would order nodes further
    down is not followed. *)
Definition joinForest (ordered : bool) (fresh : nat) (kids : list GNode)
    (data : list Datum) : Outcome (list GNode * nat * list string) :=
  match mapM nodeKey (forestNodes kids) with
  | None => Throws
  | Some nodes =>
      let kept := registerNodes nodes in
      let bound := bindData kept data in
      let exits := exitIds nodes kept bound.2 in
      let exitKeys := (filter (fun n => n.1 ∈ exits) nodes).*2 in
      match enterAll fresh bound.1 (setData bound.1 kids) with
      | None => Throws
      | Some (kids2, merged, fresh') =>
          let kids3 := removeNodes exits kids2 in
          if ordered then
            if forallb (fun i => existsb (fun k => g_id k =? i) kids3) merged
            then Done (orderNodes merged kids3, fresh', exitKeys)
            else Unmodelled
          else Done (kids3, fresh', exitKeys)
      end
  end.

(** The root element and the next unused identity. *)
Record Dom := {
  dom_root : GNode;
  dom_fresh : nat
}.

(** What the component renders before any pass. *)
Definition mountedDom : Dom :=
  {| dom_root :=
       GN 0 "arrows" None
         [ GN 1 "arrows" None [];
           GN 2 "start-plates" None [];
           GN 3 "feets" None [];
           GN 4 "connectors" None [] ];
     dom_fresh := 5 |}.

(** [group.selectAll('g').data(data, d => d[0]).join(enter, update)] for
    the group a selection holds: the document it leaves and the keys of
    the nodes of its exit. An empty selection joins nothing; a group that
    an earlier join of the pass took out of the document is not
    followed. *)
Definition joinGroup (ordered : bool) (group : option nat) (data : list Datum)
    (g : Dom) : Outcome (Dom * list string) :=
  match group with
  | None => Done (g, [])
  | Some p =>
      match nodeById p (dom_root g) with
      | None => Unmodelled
      | Some parent =>
          Outcome_bind (joinForest ordered (dom_fresh g) (g_kids parent) data)
            (fun r => Done ({| dom_root := setKids p r.1.1 (dom_root g);
                               dom_fresh := r.1.2 |}, r.2))
      end
  end.

(** What a pass leaves: the document, and the keys of the nodes that
    were in the exit of each of its four joins. *)
Record Pass := {
  pass_doc : Dom;
  exit_startPlates : list string;
  exit_arrows : list string;
  exit_connectors : list string;
  exit_feets : list string
}.

(** One pass of [manageArrows]: the four selections by class, the
    flatten, and the four joins in the order of the source. *)
Definition manageArrows (props : Props) (g : Dom) : Outcome Pass :=
  let rootGroup := dom_root g in
  let startPlatesGroup := selectClass "start-plates" rootGroup in
  let arrowsGroup := selectClass "arrows" rootGroup in
  let connectorsGroup := selectClass "connectors" rootGroup in
  let feetsGroup := selectClass "feets" rootGroup in
  let flat := flatten arrowHandleWidth props in
  Outcome_bind (joinGroup false startPlatesGroup (PlateDatum <$> startPlates flat) g)
    (fun r1 =>
  Outcome_bind (joinGroup true arrowsGroup (ArrowDatum <$> flat_arrows flat) r1.1)
    (fun r2 =>
  Outcome_bind (joinGroup false connectorsGroup (ConnectorDatum <$> connectors flat) r2.1)
    (fun r3 =>
  Outcome_bind (joinGroup false feetsGroup (FeetDatum <$> feets flat) r3.1)
    (fun r4 =>
  Done {| pass_doc := r4.1;
          exit_startPlates := r1.2;
          exit_arrows := r2.2;
          exit_connectors := r3.2;
          exit_feets := r4.2 |})))).

(** The passes for a sequence of props, from what the component renders
    before any pass. *)
Definition Outcome_map {A B : Type} (f : A -> B) (o : Outcome A) : Outcome B :=
  Outcome_bind o (fun a => Done (f a)).

Definition renders (passes : list Props) : Outcome Dom :=
  fold_left (fun o props =>
               Outcome_bind o (fun g => Outcome_map pass_doc (manageArrows props g)))
            passes (Done mountedDom).

(** The group the component rendered for a class: the child of the root
    with that class. The joins add nodes below the groups only, so the
    children of the root stay the four rendered groups. *)
Definition renderedGroup (cls : string) (g : Dom) : option GNode :=
  find (fun n => bool_decide (g_cls n = cls)) (g_kids (dom_root g)).

Definition nodeKeys (l : list GNode) : list string :=
  omap (fun n => datumKey <$> g_datum n) l.

(** The keys of the nodes in a rendered group. *)
Definition groupKeys (cls : string) (g : Dom) : list string :=
  nodeKeys (from_option descendants [] (renderedGroup cls g)).

(** *** Documents of the rendered shape

    The root and its four groups as the component renders them, with the
    children of the groups arrows, start-plates, feets and connectors. *)
Definition domOf (ka kp kf kc : list GNode) (fresh : nat) : Dom :=
  {| dom_root :=
       GN 0 "arrows" None
         [ GN 1 "arrows" None ka;
           GN 2 "start-plates" None kp;
           GN 3 "feets" None kf;
           GN 4 "connectors" None kc ];
     dom_fresh := fresh |}.

(** A node as a join leaves it in a group: no [g] below it, a datum bound
    to it, a class that is safe, an identity of its own. *)
Definition leafOk (fresh : nat) (n : GNode) : Prop :=
  g_kids n = [] /\ is_Some (g_datum n) /\ tokenSafe (g_cls n) = true /\
  5 <= g_id n < fresh.

Definition groupOk (fresh : nat) (l : list GNode) : Prop :=
  Forall (leafOk fresh) l /\ NoDup (g_id <$> l).

Definition Dom_wf (g : Dom) : Prop :=
  exists ka kp kf kc,
    g = domOf ka kp kf kc (dom_fresh g) /\ 5 <= dom_fresh g /\
    groupOk (dom_fresh g) ka /\ groupOk (dom_fresh g) kp /\
    groupOk (dom_fresh g) kf /\ groupOk (dom_fresh g) kc.

(** The keys of the four flattened collections, and the props none of
    whose keys has the class of a later group among its tokens. *)
Definition flatKeys (f : Flat) : list string :=
  (startPlates f).*1 ++ (flat_arrows f).*1 ++ (connectors f).*1 ++ (feets f).*1.

Definition keys_tokenSafe (props : Props) : bool :=
  forallb tokenSafe (flatKeys (flatten arrowHandleWidth props)).

(** The key of the datum of a node, the datum of a slot, and the nodes
    that [enterAll] creates for the entering slots. *)
Definition keyOf (n : GNode) : string := from_option datumKey "" (g_datum n).

Definition nodeInfo (n : GNode) : nat * string * string := (g_id n, g_cls n, keyOf n).

Definition slotDatum (s : Slot) : Datum :=
  match s with
  | Upd _ d => d
  | Ent d => d
  end.

Fixpoint newNodes (fresh : nat) (slots : list Slot) : list GNode :=
  match slots with
  | [] => []
  | Upd _ _ :: rest => newNodes fresh rest
  | Ent d :: rest => GN fresh (datumKey d) (Some d) [] :: newNodes (S fresh) rest
  end.

(** The nodes of a group of leaves after a join: the nodes that were not
    in the exit and the nodes that entered. *)
Definition survivor (fresh : nat) (kids : list GNode) (data : list Datum)
    (n : GNode) : Prop :=
  let nodes := (fun n => (g_id n, keyOf n)) <$> kids in
  let kept := registerNodes nodes in
  let bound := bindData kept data in
  (n ∈ setData bound.1 kids /\ g_id n ∉ exitIds nodes kept bound.2) \/
  n ∈ newNodes fresh bound.1.

End DomModel.

(** * Part II: properties *)

(** ** Composite keys *)

Section Keys.

Lemma append_cons (a : Ascii.ascii) (s t : string) :
  String a s +:+ t = String a (s +:+ t).
Proof. reflexivity. Qed.

Lemma append_assoc (s t u : string) : (s +:+ t) +:+ u = s +:+ (t +:+ u).
Proof.
  induction s as [| a s IH]; [reflexivity |].
  rewrite !append_cons, IH. reflexivity.
Qed.

Lemma has_char_append (c : Ascii.ascii) (s t : string) :
  has_char c (s +:+ t) = has_char c s || has_char c t.
Proof.
  induction s as [| a s IH]; [reflexivity |].
  rewrite append_cons. simpl. destruct (Ascii.eqb a c); [reflexivity | exact IH].
Qed.

(** A string is cut in one way only at the first occurrence of a character. *)
Lemma append_first_char (c : Ascii.ascii) (s1 s2 t1 t2 : string) :
  has_char c s1 = false ->
  has_char c s2 = false ->
  s1 +:+ String c t1 = s2 +:+ String c t2 ->
  s1 = s2 /\ t1 = t2.
Proof.
  revert s2. induction s1 as [| a s1 IH]; intros [| b s2] H1 H2 E.
  - injection E as ->. split; reflexivity.
  - rewrite append_cons in E. injection E as <- _.
    simpl in H2. rewrite Ascii.eqb_refl in H2. discriminate.
  - rewrite append_cons in E. injection E as -> _.
    simpl in H1. rewrite Ascii.eqb_refl in H1. discriminate.
  - rewrite !append_cons in E. injection E as -> E.
    simpl in H1, H2. destruct (Ascii.eqb b c); [discriminate |].
    destruct (IH s2 H1 H2 E) as [-> ->]. split; reflexivity.
Qed.

Lemma gt_free_spec (s : string) : gt_free s = true <-> has_char gt_char s = false.
Proof. unfold gt_free. destruct (has_char gt_char s); simpl; intuition congruence. Qed.

(** The sender part of an arrow key, up to and including the [>] of the
    separator, and what follows it. *)
Lemma fromToId_of_cut (s r : string) :
  fromToId_of s r = (s +:+ " -") +:+ String gt_char (" " +:+ r).
Proof. unfold fromToId_of. rewrite append_assoc. reflexivity. Qed.

Lemma append_dash_inj (s1 s2 : string) : s1 +:+ " -" = s2 +:+ " -" -> s1 = s2.
Proof.
  revert s2. induction s1 as [| a s1 IH]; intros [| b s2] E.
  - reflexivity.
  - rewrite append_cons in E. injection E as <- E.
    destruct s2 as [| c [| d s2]]; discriminate E.
  - rewrite append_cons in E. injection E as -> E.
    destruct s1 as [| c [| d s1]]; discriminate E.
  - rewrite !append_cons in E. injection E as -> E. f_equal. apply IH, E.
Qed.

Lemma fromToId_of_inj (s1 r1 s2 r2 : string) :
  gt_free s1 = true ->
  gt_free s2 = true ->
  fromToId_of s1 r1 = fromToId_of s2 r2 ->
  s1 = s2 /\ r1 = r2.
Proof.
  intros G1%gt_free_spec G2%gt_free_spec E.
  rewrite !fromToId_of_cut in E.
  apply append_first_char in E as [E1 E2].
  - apply append_dash_inj in E1. injection E2 as E2. split; assumption.
  - rewrite has_char_append, G1. reflexivity.
  - rewrite has_char_append, G2. reflexivity.
Qed.

(** A feet key is the arrow-key construction applied twice. *)
Lemma feetId_of_nested (s r a : string) :
  feetId_of (fromToId_of s r) a = fromToId_of s (fromToId_of r a).
Proof. unfold feetId_of, fromToId_of. rewrite !append_assoc. reflexivity. Qed.

Lemma feetId_of_inj (s1 r1 a1 s2 r2 a2 : string) :
  gt_free s1 = true -> gt_free r1 = true ->
  gt_free s2 = true -> gt_free r2 = true ->
  feetId_of (fromToId_of s1 r1) a1 = feetId_of (fromToId_of s2 r2) a2 ->
  s1 = s2 /\ r1 = r2 /\ a1 = a2.
Proof.
  intros Gs1 Gr1 Gs2 Gr2 E. rewrite !feetId_of_nested in E.
  apply fromToId_of_inj in E as [-> E]; [| assumption ..].
  apply fromToId_of_inj in E as [-> ->]; [| assumption ..].
  repeat split.
Qed.

Lemma char_count_append (c : Ascii.ascii) (s t : string) :
  char_count c (s +:+ t) = char_count c s + char_count c t.
Proof.
  induction s as [| a s IH]; [reflexivity |].
  rewrite append_cons. simpl. rewrite IH. lia.
Qed.

Lemma char_count_0 (c : Ascii.ascii) (s : string) :
  char_count c s = 0 <-> has_char c s = false.
Proof.
  induction s as [| a s IH]; simpl; [tauto |].
  destruct (Ascii.eqb a c); simpl; [split; [lia | discriminate] | exact IH].
Qed.

Lemma gt_free_count (s : string) : gt_free s = true <-> char_count gt_char s = 0.
Proof. rewrite gt_free_spec, char_count_0. reflexivity. Qed.

Lemma char_count_fromToId_of (s r : string) :
  char_count gt_char (fromToId_of s r)
  = S (char_count gt_char s + char_count gt_char r).
Proof.
  unfold fromToId_of. rewrite !char_count_append.
  change (char_count gt_char " -> ") with 1. lia.
Qed.

(** A feet key whose three ids are free of [>] is the key of no other
    triple of ids. *)
Lemma feetId_of_inj_target (s r a s' r' a' : string) :
  gt_free s = true -> gt_free r = true -> gt_free a = true ->
  feetId_of (fromToId_of s' r') a' = feetId_of (fromToId_of s r) a ->
  s' = s /\ r' = r /\ a' = a.
Proof.
  intros Gs%gt_free_count Gr%gt_free_count Ga%gt_free_count E.
  assert (Hc := f_equal (char_count gt_char) E).
  rewrite !feetId_of_nested, !char_count_fromToId_of in Hc.
  apply feetId_of_inj in E; [exact E | apply gt_free_count; lia ..].
Qed.

End Keys.

(** ** The flatten loop in closed form *)

Section FlattenFacts.
Context {ops : Vec2Ops}.
Variable arrowHandleWidth : num.

Lemma Flat_app_empty_r (a : Flat) : Flat_app a emptyFlat = a.
Proof. destruct a. unfold Flat_app. simpl. rewrite !app_nil_r. reflexivity. Qed.

Lemma Flat_app_assoc (a b c : Flat) :
  Flat_app (Flat_app a b) c = Flat_app a (Flat_app b c).
Proof. unfold Flat_app. simpl. rewrite <- !app_assoc. reflexivity. Qed.

Lemma Flat_concat_cons (a : Flat) (ds : list Flat) :
  Flat_concat (a :: ds) = Flat_app a (Flat_concat ds).
Proof. reflexivity. Qed.

(** A loop whose body appends a delta appends the concatenated deltas. *)
Lemma fold_left_Flat_app {A : Type} (f : Flat -> A -> Flat) (d : A -> Flat) :
  (forall st x, f st x = Flat_app st (d x)) ->
  forall l st, fold_left f l st = Flat_app st (Flat_concat (d <$> l)).
Proof.
  intros Hf l. induction l as [| x l IH]; intros st; simpl.
  - symmetry. apply Flat_app_empty_r.
  - rewrite IH, Hf, Flat_app_assoc. reflexivity.
Qed.

(** A field of concatenated deltas is the concatenation of that field. *)
Lemma field_Flat_concat {A B : Type} (F : Flat -> list B) (d : A -> Flat) :
  F emptyFlat = [] ->
  (forall a b, F (Flat_app a b) = F a ++ F b) ->
  forall l : list A, F (Flat_concat (d <$> l)) = l ≫= (fun x => F (d x)).
Proof.
  intros He Happ l. induction l as [| x l IH].
  - exact He.
  - rewrite fmap_cons, Flat_concat_cons, Happ, IH. reflexivity.
Qed.

Lemma feetsOf_cons (ap : gmap string Vec2) (id : string) (cp : Vec2)
    (a : string) (ids : list string) :
  feetsOf ap id cp (a :: ids) = feetsOf ap id cp [a] ++ feetsOf ap id cp ids.
Proof. unfold feetsOf. simpl. destruct (ap !! a); reflexivity. Qed.

Lemma feetsOf_bind (ap : gmap string Vec2) (id : string) (cp : Vec2)
    (ids : list string) :
  ids ≫= (fun a => feetsOf ap id cp [a]) = feetsOf ap id cp ids.
Proof.
  induction ids as [| a ids IH]; [reflexivity |].
  rewrite feetsOf_cons, <- IH. reflexivity.
Qed.

Lemma apIdStep_delta (ap : gmap string Vec2) (id : string) (cp : Vec2)
    (st : Flat) (a : string) :
  apIdStep ap id cp st a = Flat_app st (apIdDelta ap id cp a).
Proof.
  unfold apIdStep, apIdDelta, feetsOf, Flat_app, push_feets. simpl.
  destruct (ap !! a); destruct st; simpl; rewrite ?app_nil_r; reflexivity.
Qed.

Lemma receiverStep_delta (ap : gmap string Vec2) (s : string) (sa : SenderArrows)
    (st : Flat) (ca : ConnectorArrow) (r : string) :
  receiverStep arrowHandleWidth ap s sa st ca r
  = Flat_app st (receiverDelta arrowHandleWidth ap s sa (r, ca)).
Proof.
  unfold receiverStep, Set_forEach.
  rewrite (fold_left_Flat_app _ _ (apIdStep_delta ap _ _)).
  unfold Flat_app, receiverDelta, push_connectors, push_arrows. simpl.
  rewrite !(field_Flat_concat _ (apIdDelta ap _ _)) by reflexivity.
  rewrite <- (feetsOf_bind ap _ _ (apIds (connector ca))). simpl.
  assert (Hnil : forall B (l : list string), l ≫= (fun _ => @nil B) = []).
  { intros B l. induction l; simpl; auto. }
  rewrite !Hnil, !app_nil_r. reflexivity.
Qed.

Lemma senderStep_delta (ap : gmap string Vec2)
    (st : Flat) (sa : SenderArrows) (s : string) :
  senderStep arrowHandleWidth ap st sa s
  = Flat_app st (senderDelta arrowHandleWidth ap (s, sa)).
Proof.
  unfold senderStep, Map_forEach, senderDelta.
  rewrite (fold_left_Flat_app _ (receiverDelta arrowHandleWidth ap s sa)).
  - rewrite <- Flat_app_assoc. f_equal.
    unfold Flat_app, push_startPlates. simpl. rewrite !app_nil_r. reflexivity.
  - intros st' [r ca]. apply receiverStep_delta.
Qed.

Lemma flatten_concat (props : Props) :
  flatten arrowHandleWidth props
  = Flat_concat (senderDelta arrowHandleWidth (apPositions props) <$> arrows props).
Proof.
  unfold flatten, Map_forEach.
  rewrite (fold_left_Flat_app _ (senderDelta arrowHandleWidth (apPositions props))).
  - unfold Flat_app. simpl. destruct (Flat_concat _); reflexivity.
  - intros st [s sa]. apply senderStep_delta.
Qed.

End FlattenFacts.

(** ** Lists built by nested iteration *)

Section BindFacts.
Context {A B C : Type}.

Lemma bind_cons_app (f : A -> list B) (x : A) (l : list A) :
  (x :: l) ≫= f = f x ++ (l ≫= f).
Proof. reflexivity. Qed.

Lemma fmap_over_bind (g : B -> C) (f : A -> list B) (l : list A) :
  g <$> (l ≫= f) = l ≫= (fun x => g <$> f x).
Proof.
  induction l as [| x l IH]; [reflexivity |].
  rewrite !bind_cons_app, fmap_app, IH. reflexivity.
Qed.

Lemma bind_singletons (h : A -> B) (l : list A) :
  l ≫= (fun x => [h x]) = h <$> l.
Proof. induction l as [| x l IH]; [reflexivity |]. rewrite bind_cons_app, IH. reflexivity. Qed.

Lemma bind_nils (l : list A) : l ≫= (fun _ => @nil B) = [].
Proof. induction l as [| x l IH]; [reflexivity |]. rewrite bind_cons_app, IH. reflexivity. Qed.

Lemma bind_over_bind (f : A -> list B) (g : B -> list C) (l : list A) :
  (l ≫= f) ≫= g = l ≫= (fun x => f x ≫= g).
Proof.
  induction l as [| x l IH]; [reflexivity |].
  rewrite !bind_cons_app, bind_app, IH. reflexivity.
Qed.

Lemma filter_over_bind (P : B -> Prop) `{forall y, Decision (P y)}
    (f : A -> list B) (l : list A) :
  filter P (l ≫= f) = l ≫= (fun x => filter P (f x)).
Proof.
  induction l as [| x l IH]; [reflexivity |].
  rewrite !bind_cons_app, filter_app, IH. reflexivity.
Qed.

(** When a single element of a duplicate-free list contributes to a
    filtered nested iteration, the result is that element's contribution. *)
Lemma filter_bind_only (P : B -> Prop) `{forall y, Decision (P y)}
    (f : A -> list B) (l : list A) (x0 : A) :
  NoDup l ->
  x0 ∈ l ->
  (forall x, x ∈ l -> x <> x0 -> filter P (f x) = []) ->
  filter P (l ≫= f) = filter P (f x0).
Proof.
  intros Hnd Hin Hothers. rewrite filter_over_bind.
  induction Hnd as [| x l Hx Hnd IH].
  - inversion Hin.
  - rewrite bind_cons_app. apply elem_of_cons in Hin as [<- | Hin].
    + assert (Hrest : l ≫= (fun x => filter P (f x)) = []).
      { clear IH. induction l as [| z l IHl]; [reflexivity |].
        rewrite bind_cons_app, Hothers.
        - apply IHl.
          + intros Hz. apply Hx. right. exact Hz.
          + apply NoDup_cons in Hnd as [_ Hnd]. exact Hnd.
          + intros y Hy. apply Hothers. apply elem_of_cons in Hy as [-> | Hy].
            * left.
            * right. right. exact Hy.
        - right. left.
        - intros ->. apply Hx. left. }
      rewrite Hrest, app_nil_r. reflexivity.
    + rewrite Hothers.
      * apply IH; [exact Hin |]. intros y Hy. apply Hothers. right. exact Hy.
      * left.
      * intros ->. contradiction.
Qed.

End BindFacts.

(** ** The four collections in closed form *)

Section FlattenClosed.
Context {ops : Vec2Ops}.
Variable arrowHandleWidth : num.

Lemma flatten_startPlates (props : Props) :
  startPlates (flatten arrowHandleWidth props)
  = (fun s => (s.1, startPoint s.2)) <$> arrows props.
Proof.
  rewrite flatten_concat, (field_Flat_concat startPlates) by reflexivity.
  rewrite <- bind_singletons. apply list_bind_ext; [| reflexivity].
  intros [s sa]. unfold senderDelta. simpl.
  rewrite (field_Flat_concat startPlates) by reflexivity.
  simpl. rewrite bind_nils. reflexivity.
Qed.

Lemma flatten_arrows (props : Props) :
  flat_arrows (flatten arrowHandleWidth props)
  = (fun p => arrowOf arrowHandleWidth p.1.1 p.1.2 p.2.1 p.2.2)
      <$> flattenedPairs (arrows props).
Proof.
  rewrite flatten_concat, (field_Flat_concat flat_arrows) by reflexivity.
  unfold flattenedPairs. rewrite fmap_over_bind.
  apply list_bind_ext; [| reflexivity].
  intros [s sa]. unfold senderDelta. simpl.
  rewrite (field_Flat_concat flat_arrows) by reflexivity.
  simpl. rewrite bind_singletons, <- list_fmap_compose. reflexivity.
Qed.

Lemma flatten_connectors (props : Props) :
  connectors (flatten arrowHandleWidth props)
  = (fun p => connectorOf p.1.1 p.2.1 p.2.2) <$> flattenedPairs (arrows props).
Proof.
  rewrite flatten_concat, (field_Flat_concat connectors) by reflexivity.
  unfold flattenedPairs. rewrite fmap_over_bind.
  apply list_bind_ext; [| reflexivity].
  intros [s sa]. unfold senderDelta. simpl.
  rewrite (field_Flat_concat connectors) by reflexivity.
  simpl. rewrite bind_singletons, <- list_fmap_compose. reflexivity.
Qed.

Lemma flatten_feets (props : Props) :
  feets (flatten arrowHandleWidth props)
  = flattenedPairs (arrows props) ≫= fun p =>
      feetsOf (apPositions props) (fromToId_of p.1.1 p.2.1)
        (position (connector p.2.2)) (apIds (connector p.2.2)).
Proof.
  rewrite flatten_concat, (field_Flat_concat feets) by reflexivity.
  unfold flattenedPairs. rewrite bind_over_bind.
  apply list_bind_ext; [| reflexivity].
  intros [s sa]. unfold senderDelta. simpl.
  rewrite (field_Flat_concat feets) by reflexivity.
  simpl. rewrite list_fmap_bind. reflexivity.
Qed.

Lemma flatten_arrowHandles (props : Props) :
  arrowHandles (flatten arrowHandleWidth props) = [].
Proof.
  rewrite flatten_concat, (field_Flat_concat arrowHandles) by reflexivity.
  rewrite <- (bind_nils (arrows props)). apply list_bind_ext; [| reflexivity].
  intros [s sa]. unfold senderDelta. simpl.
  rewrite (field_Flat_concat arrowHandles) by reflexivity.
  apply bind_nils.
Qed.

End FlattenClosed.

(** ** Membership in the flattened collections *)

Section FlattenMembers.
Context {ops : Vec2Ops}.

Lemma elem_of_flattenedPairs (m : JsMap SenderArrows)
    (p : (string * SenderArrows) * (string * ConnectorArrow)) :
  p ∈ flattenedPairs m <-> p.1 ∈ m /\ p.2 ∈ sa_arrows p.1.2.
Proof.
  unfold flattenedPairs. rewrite list_elem_of_bind. split.
  - intros (s & Hp & Hs). apply list_elem_of_fmap in Hp as (r & -> & Hr).
    simpl. auto.
  - intros [Hs Hr]. exists p.1. split; [| exact Hs].
    apply list_elem_of_fmap. exists p.2. split; [| exact Hr].
    destruct p as [? ?]; reflexivity.
Qed.

(** In a well-formed map a key has one value. *)
Lemma Map_wf_functional {V : Type} (m : JsMap V) (k : string) (v1 v2 : V) :
  Map_wf m -> (k, v1) ∈ m -> (k, v2) ∈ m -> v1 = v2.
Proof.
  unfold Map_wf, Map_keys. induction m as [| [k' v'] m IH]; intros Hwf H1 H2.
  - inversion H1.
  - rewrite fmap_cons in Hwf. apply NoDup_cons in Hwf as [Hk Hwf].
    assert (Hfresh : forall v, (k', v) ∈ m -> False).
    { intros v Hv. apply Hk. apply list_elem_of_fmap. exists (k', v). auto. }
    apply elem_of_cons in H1 as [E1 | H1]; apply elem_of_cons in H2 as [E2 | H2].
    + congruence.
    + injection E1 as -> _. destruct (Hfresh _ H2).
    + injection E2 as -> _. destruct (Hfresh _ H1).
    + exact (IH Hwf H1 H2).
Qed.

Lemma Map_wf_NoDup {V : Type} (m : JsMap V) : Map_wf m -> NoDup m.
Proof. intros Hwf. exact (NoDup_fmap_1 fst m Hwf). Qed.

Lemma Props_wf_sender (props : Props) (s : string * SenderArrows) :
  Props_wf props -> s ∈ arrows props -> SenderArrows_wf s.2.
Proof.
  intros [_ Hall] Hs. rewrite Forall_forall in Hall. exact (Hall s Hs).
Qed.

Lemma Props_wf_connector (props : Props) (s : string * SenderArrows)
    (r : string * ConnectorArrow) :
  Props_wf props -> s ∈ arrows props -> r ∈ sa_arrows s.2 ->
  Set_wf (apIds (connector r.2)).
Proof.
  intros Hwf Hs Hr. destruct (Props_wf_sender props s Hwf Hs) as [_ Hall].
  rewrite Forall_forall in Hall. exact (Hall r Hr).
Qed.

Lemma flattenedPairs_NoDup (props : Props) :
  Props_wf props -> NoDup (flattenedPairs (arrows props)).
Proof.
  intros Hwf. unfold flattenedPairs. apply NoDup_bind.
  - intros s1 s2 p _ _ H1 H2.
    apply list_elem_of_fmap in H1 as (r1 & -> & _).
    apply list_elem_of_fmap in H2 as (r2 & E & _).
    congruence.
  - intros s Hs. apply NoDup_fmap_2.
    + intros r1 r2 E. congruence.
    + apply Map_wf_NoDup. exact (proj1 (Props_wf_sender props s Hwf Hs)).
  - apply Map_wf_NoDup. exact (proj1 Hwf).
Qed.

(** Two visited pairs with the same sender id and the same receiver id
    are the same pair. *)
Lemma flattenedPairs_same_ids (props : Props)
    (p q : (string * SenderArrows) * (string * ConnectorArrow)) :
  Props_wf props ->
  p ∈ flattenedPairs (arrows props) ->
  q ∈ flattenedPairs (arrows props) ->
  p.1.1 = q.1.1 -> p.2.1 = q.2.1 -> p = q.
Proof.
  intros Hwf [Hp1 Hp2]%elem_of_flattenedPairs [Hq1 Hq2]%elem_of_flattenedPairs Es Er.
  destruct p as [[s sa] [r ca]], q as [[s' sa'] [r' ca']]. simpl in *. subst s' r'.
  assert (sa = sa') as <- by exact (Map_wf_functional _ _ _ _ (proj1 Hwf) Hp1 Hq1).
  assert (ca = ca') as <-.
  { apply (Map_wf_functional (sa_arrows sa) r); [| assumption ..].
    exact (proj1 (Props_wf_sender props (s, sa) Hwf Hp1)). }
  reflexivity.
Qed.

Lemma elem_of_feetsOf (ap : gmap string Vec2) (id : string) (cp : Vec2)
    (ids : list string) (e : string * (Vec2 * Vec2)) :
  e ∈ feetsOf ap id cp ids <->
  exists a p, a ∈ ids /\ ap !! a = Some p /\ e = (feetId_of id a, (cp, p)).
Proof.
  unfold feetsOf. rewrite list_elem_of_omap. split.
  - intros (a & Ha & E). destruct (ap !! a) as [p |] eqn:Hp; [| discriminate].
    injection E as <-. eauto.
  - intros (a & p & Ha & Hp & ->). exists a. rewrite Hp. auto.
Qed.

Lemma feetsOf_keys (ap : gmap string Vec2) (id : string) (cp : Vec2)
    (ids : list string) :
  (feetsOf ap id cp ids).*1
  = feetId_of id <$> filter (fun a => is_Some (ap !! a)) ids.
Proof.
  induction ids as [| a ids IH]; [reflexivity |].
  rewrite feetsOf_cons, fmap_app, IH, filter_cons.
  unfold feetsOf. simpl. destruct (ap !! a) as [p |] eqn:Hp; simpl.
  - destruct (decide (is_Some (Some p))) as [_ | Hn]; [reflexivity |].
    exfalso. apply Hn. eauto.
  - destruct (decide (is_Some (@None Vec2))) as [Hs | _]; [| reflexivity].
    destruct Hs as [? Hs]. discriminate Hs.
Qed.

Lemma feetsOf_keys_NoDup (ap : gmap string Vec2) (id : string) (cp : Vec2)
    (ids : list string) :
  Set_wf ids -> NoDup (feetsOf ap id cp ids).*1.
Proof.
  intros Hwf. rewrite feetsOf_keys. apply NoDup_fmap_2.
  - intros a b E. unfold feetId_of in E. apply String.app_inj in E.
    injection E as E. exact E.
  - apply NoDup_filter. exact Hwf.
Qed.

End FlattenMembers.

(** ** Keys of the four collections *)

Section FlattenKeys.
Context {ops : Vec2Ops}.
Variable arrowHandleWidth : num.

Lemma ids_gt_free_pair (props : Props)
    (p : (string * SenderArrows) * (string * ConnectorArrow)) :
  ids_gt_free props -> p ∈ flattenedPairs (arrows props) ->
  gt_free p.1.1 = true /\ gt_free p.2.1 = true.
Proof.
  intros Hfree [Hs Hr]%elem_of_flattenedPairs.
  unfold ids_gt_free in Hfree. rewrite Forall_forall in Hfree.
  destruct (Hfree _ Hs) as [Gs Hall]. rewrite Forall_forall in Hall.
  split; [exact Gs | exact (Hall _ Hr)].
Qed.

Lemma startPlates_keys (props : Props) :
  (startPlates (flatten arrowHandleWidth props)).*1 = Map_keys (arrows props).
Proof.
  rewrite flatten_startPlates, <- list_fmap_compose. reflexivity.
Qed.

Lemma flat_arrows_keys (props : Props) :
  (flat_arrows (flatten arrowHandleWidth props)).*1
  = (fun p => fromToId_of p.1.1 p.2.1) <$> flattenedPairs (arrows props).
Proof. rewrite flatten_arrows, <- list_fmap_compose. reflexivity. Qed.

Lemma connectors_keys (props : Props) :
  (connectors (flatten arrowHandleWidth props)).*1
  = (fun p => fromToId_of p.1.1 p.2.1) <$> flattenedPairs (arrows props).
Proof. rewrite flatten_connectors, <- list_fmap_compose. reflexivity. Qed.

Lemma pair_keys_NoDup (props : Props) :
  Props_wf props -> ids_gt_free props ->
  NoDup ((fun p => fromToId_of p.1.1 p.2.1) <$> flattenedPairs (arrows props)).
Proof.
  intros Hwf Hfree. apply NoDup_fmap_2_strong.
  - intros p q Hp Hq E.
    destruct (ids_gt_free_pair props p Hfree Hp) as [Gp _].
    destruct (ids_gt_free_pair props q Hfree Hq) as [Gq _].
    apply fromToId_of_inj in E as [Es Er]; [| assumption ..].
    exact (flattenedPairs_same_ids props p q Hwf Hp Hq Es Er).
  - apply flattenedPairs_NoDup, Hwf.
Qed.

Lemma feets_keys_NoDup (props : Props) :
  Props_wf props -> ids_gt_free props ->
  NoDup (feets (flatten arrowHandleWidth props)).*1.
Proof.
  intros Hwf Hfree. rewrite flatten_feets, fmap_over_bind. apply NoDup_bind.
  - intros p q k Hp Hq Hkp Hkq.
    apply list_elem_of_fmap in Hkp as (e1 & -> & He1).
    apply list_elem_of_fmap in Hkq as (e2 & E & He2).
    apply elem_of_feetsOf in He1 as (a1 & p1 & _ & _ & ->).
    apply elem_of_feetsOf in He2 as (a2 & p2 & _ & _ & ->).
    simpl in E.
    destruct (ids_gt_free_pair props p Hfree Hp) as [Gps Gpr].
    destruct (ids_gt_free_pair props q Hfree Hq) as [Gqs Gqr].
    apply feetId_of_inj in E as (Es & Er & _); [| assumption ..].
    exact (flattenedPairs_same_ids props p q Hwf Hp Hq Es Er).
  - intros p [Hs Hr]%elem_of_flattenedPairs. apply feetsOf_keys_NoDup.
    exact (Props_wf_connector props p.1 p.2 Hwf Hs Hr).
  - apply flattenedPairs_NoDup, Hwf.
Qed.

(** C1, amended: the start-plate keys of a flatten are pairwise distinct
    for every well-formed input; the arrow keys, the connector keys and the
    feet keys are pairwise distinct when no sender id and no receiver id
    contains the character [>] of the separator. *)
Theorem flatten_keys_unique (props : Props) :
  Props_wf props ->
  NoDup (startPlates (flatten arrowHandleWidth props)).*1 /\
  (ids_gt_free props ->
   NoDup (flat_arrows (flatten arrowHandleWidth props)).*1 /\
   NoDup (connectors (flatten arrowHandleWidth props)).*1 /\
   NoDup (feets (flatten arrowHandleWidth props)).*1).
Proof.
  intros Hwf. split.
  - rewrite startPlates_keys. exact (proj1 Hwf).
  - intros Hfree. rewrite flat_arrows_keys, connectors_keys.
    repeat split; try (apply pair_keys_NoDup; assumption).
    apply feets_keys_NoDup; assumption.
Qed.

(** C5: every (senderId, receiverId, ConnectorArrow) the loops visit has an
    arrow entry keyed ["senderId -> receiverId"] whose points are the
    sender's start point followed by the connector arrow's points and
    whose handle is computed from those points, and, at the same index, a
    connector entry with the same key at the connector's position. *)
Theorem flatten_arrow_and_connector (props : Props)
    (senderId receiverId : string) (senderArrows : SenderArrows)
    (connectorArrow : ConnectorArrow) :
  (senderId, senderArrows) ∈ arrows props ->
  (receiverId, connectorArrow) ∈ sa_arrows senderArrows ->
  let allPoints := startPoint senderArrows :: ca_points connectorArrow in
  exists i : nat,
    flat_arrows (flatten arrowHandleWidth props) !! i
    = Some (fromToId_of senderId receiverId,
            {| points := allPoints;
               handle := arrowHandleFromPoints arrowHandleWidth allPoints |}) /\
    connectors (flatten arrowHandleWidth props) !! i
    = Some (fromToId_of senderId receiverId, position (connector connectorArrow)).
Proof.
  intros Hs Hr allPoints.
  assert (Hp : ((senderId, senderArrows), (receiverId, connectorArrow))
               ∈ flattenedPairs (arrows props)).
  { apply elem_of_flattenedPairs. split; assumption. }
  apply list_elem_of_lookup in Hp as [i Hi]. exists i.
  rewrite flatten_arrows, flatten_connectors, !list_lookup_fmap, Hi.
  split; reflexivity.
Qed.

End FlattenKeys.

(** ** Feet of one access point *)

Section FlattenFeet.
Context {ops : Vec2Ops}.
Variable arrowHandleWidth : num.

Lemma filter_none {A : Type} (P : A -> Prop) `{forall x, Decision (P x)}
    (l : list A) :
  (forall x, x ∈ l -> ~ P x) -> filter P l = [].
Proof.
  induction l as [| x l IH]; intros Hno; [reflexivity |].
  rewrite filter_cons. destruct (decide (P x)) as [Hx | _].
  - destruct (Hno x); [left | exact Hx].
  - apply IH. intros y Hy. apply Hno. right. exact Hy.
Qed.

(** Within one connector, the entries keyed for access point [A]. *)
Lemma feetsOf_filter_key (ap : gmap string Vec2) (id : string) (cp : Vec2)
    (ids : list string) (A : string) :
  Set_wf ids -> A ∈ ids ->
  filter (fun e => e.1 = feetId_of id A) (feetsOf ap id cp ids)
  = match ap !! A with
    | Some p => [(feetId_of id A, (cp, p))]
    | None => []
    end.
Proof.
  intros Hwf HA. rewrite <- feetsOf_bind.
  rewrite (filter_bind_only _ _ ids A Hwf HA).
  - unfold feetsOf. simpl. destruct (ap !! A) as [p |]; simpl; [| reflexivity].
    rewrite filter_cons. simpl.
    destruct (decide (feetId_of id A = feetId_of id A)); [reflexivity | contradiction].
  - intros a _ Hne. apply filter_none. intros e He E.
    apply elem_of_feetsOf in He as (a' & p & Ha' & _ & ->).
    apply list_elem_of_singleton in Ha' as ->. simpl in E.
    unfold feetId_of in E. apply String.app_inj in E. injection E as E.
    contradiction.
Qed.

Lemma feets_filter_key (props : Props) (S R A : string)
    (sa : SenderArrows) (ca : ConnectorArrow) :
  Props_wf props ->
  (S, sa) ∈ arrows props ->
  (R, ca) ∈ sa_arrows sa ->
  A ∈ apIds (connector ca) ->
  feetKey_unambiguous props S R A ->
  filter (fun e => e.1 = feetId_of (fromToId_of S R) A)
         (feets (flatten arrowHandleWidth props))
  = match apPositions props !! A with
    | Some p => [(feetId_of (fromToId_of S R) A, (position (connector ca), p))]
    | None => []
    end.
Proof.
  intros Hwf HS HR HA Hun.
  assert (Hp : ((S, sa), (R, ca)) ∈ flattenedPairs (arrows props)).
  { apply elem_of_flattenedPairs. split; assumption. }
  rewrite flatten_feets.
  rewrite (filter_bind_only _ _ _ _ (flattenedPairs_NoDup props Hwf) Hp).
  - simpl. apply feetsOf_filter_key; [| exact HA].
    exact (Props_wf_connector props (S, sa) (R, ca) Hwf HS HR).
  - intros q Hq Hne. apply filter_none. intros e He E.
    apply elem_of_feetsOf in He as (a & p & Ha & Hpos & ->). simpl in E.
    pose proof Hq as [Hq1 Hq2]%elem_of_flattenedPairs.
    destruct q as [[s sa'] [r ca']]. simpl in *.
    destruct (Hun s sa' r ca' a Hq1 Hq2 Ha (mk_is_Some _ _ Hpos) E) as (-> & -> & ->).
    apply Hne.
    exact (flattenedPairs_same_ids props _ _ Hwf Hq Hp eq_refl eq_refl).
Qed.

(** Ids free of [>] have an unambiguous feet key, whatever the other ids
    of the props are. *)
Lemma gt_free_unambiguous (props : Props) (S R A : string) :
  gt_free S = true -> gt_free R = true -> gt_free A = true ->
  feetKey_unambiguous props S R A.
Proof.
  intros GS GR GA s sa r ca a _ _ _ _ E.
  exact (feetId_of_inj_target S R A s r a GS GR GA E).
Qed.

(** C4, amended: let sender [S] map to receiver [R] whose connector fans
    out to access point [A], in a well-formed input where no other fan-out
    with a position has the same feet key (as is the case when [S], [R] and
    [A] contain no [>]). If [apPositions] has a position for [A], the
    flatten produces exactly one feet entry keyed ["S -> R -> A"], from the
    connector's position to the position of [A]; if it has none, it
    produces no feet entry with that key. The flatten is a total function:
    no case raises an error. *)
Theorem flatten_feet_of_access_point (props : Props) (S R A : string)
    (sa : SenderArrows) (ca : ConnectorArrow) :
  Props_wf props ->
  (S, sa) ∈ arrows props ->
  (R, ca) ∈ sa_arrows sa ->
  A ∈ apIds (connector ca) ->
  feetKey_unambiguous props S R A ->
  let feetId := feetId_of (fromToId_of S R) A in
  let keyed := filter (fun e => e.1 = feetId) (feets (flatten arrowHandleWidth props)) in
  feetId = S +:+ " -> " +:+ R +:+ " -> " +:+ A /\
  (forall apPosition, apPositions props !! A = Some apPosition ->
     keyed = [(feetId, (position (connector ca), apPosition))]) /\
  (apPositions props !! A = None -> keyed = []).
Proof.
  intros Hwf HS HR HA Hun feetId keyed.
  pose proof (feets_filter_key props S R A sa ca Hwf HS HR HA Hun) as Hkeyed.
  fold feetId in Hkeyed. fold keyed in Hkeyed.
  split; [apply feetId_of_nested |]. split.
  - intros p Hp. rewrite Hp in Hkeyed. exact Hkeyed.
  - intros Hp. rewrite Hp in Hkeyed. exact Hkeyed.
Qed.

End FlattenFeet.

(** ** Removing a sender *)

Section Removal.
Context {ops : Vec2Ops}.
Variable arrowHandleWidth : num.

Lemma Flat_app_empty_l (a : Flat) : Flat_app emptyFlat a = a.
Proof. destruct a. reflexivity. Qed.

(** What one sender contributes, computed by the loop body itself. *)
Lemma senderStep_alone (ap : gmap string Vec2) (sa : SenderArrows) (s : string) :
  senderStep arrowHandleWidth ap emptyFlat sa s
  = senderDelta arrowHandleWidth ap (s, sa).
Proof. rewrite senderStep_delta. apply Flat_app_empty_l. Qed.

Lemma elem_of_Map_delete {V : Type} (k : string) (m : JsMap V) (e : string * V) :
  e ∈ Map_delete k m <-> e ∈ m /\ e.1 <> k.
Proof. unfold Map_delete. rewrite list_elem_of_filter. tauto. Qed.

Section Field.
Context {D : Type}.
Variable F : Flat -> list (string * D).
Hypothesis F_empty : F emptyFlat = [].
Hypothesis F_app : forall a b, F (Flat_app a b) = F a ++ F b.
Hypothesis F_prefixed :
  forall ap s e, e ∈ F (senderDelta arrowHandleWidth ap s) ->
                 exists t, e.1 = fromToId_of s.1 t.

Lemma elem_of_flatten_field (props : Props) (e : string * D) :
  e ∈ F (flatten arrowHandleWidth props) <->
  exists s, s ∈ arrows props /\
            e ∈ F (senderDelta arrowHandleWidth (apPositions props) s).
Proof using F_empty F_app.
  rewrite flatten_concat, (field_Flat_concat F _ F_empty F_app), list_elem_of_bind.
  split; intros (s & H1 & H2); exists s; auto.
Qed.

(** When no sender id contains [>], a key that a sender contributed to a
    collection is a key of the collection, and of no entry of it once the
    sender is removed. *)
Lemma removed_sender_field (props : Props) (s : string) (sa : SenderArrows)
    (k : string) :
  senders_gt_free props ->
  (s, sa) ∈ arrows props ->
  k ∈ (F (senderStep arrowHandleWidth (apPositions props) emptyFlat sa s)).*1 ->
  k ∈ (F (flatten arrowHandleWidth props)).*1 /\
  k ∉ (F (flatten arrowHandleWidth (removeSender s props))).*1.
Proof using F_empty F_app F_prefixed.
  intros Hfree Hs Hk. rewrite senderStep_alone in Hk.
  apply list_elem_of_fmap in Hk as (e & -> & He).
  unfold senders_gt_free in Hfree. rewrite Forall_forall in Hfree.
  split.
  - apply list_elem_of_fmap. exists e. split; [reflexivity |].
    apply elem_of_flatten_field. exists (s, sa). auto.
  - intros Hin. apply list_elem_of_fmap in Hin as (e' & E & He').
    apply elem_of_flatten_field in He' as (s' & Hs' & He').
    apply elem_of_Map_delete in Hs' as [Hs' Hne].
    destruct (F_prefixed _ _ _ He) as [t Ht].
    destruct (F_prefixed _ _ _ He') as [t' Ht'].
    rewrite Ht, Ht' in E. simpl in E.
    apply fromToId_of_inj in E as [E _].
    + congruence.
    + exact (Hfree _ Hs).
    + exact (Hfree _ Hs').
Qed.

End Field.

Lemma flat_arrows_prefixed (ap : gmap string Vec2) (s : string * SenderArrows)
    (e : Arrow) :
  e ∈ flat_arrows (senderDelta arrowHandleWidth ap s) ->
  exists t, e.1 = fromToId_of s.1 t.
Proof.
  unfold senderDelta. simpl.
  rewrite (field_Flat_concat flat_arrows) by reflexivity.
  intros (r & He & _)%list_elem_of_bind. simpl in He.
  apply list_elem_of_singleton in He as ->. exists r.1. reflexivity.
Qed.

Lemma connectors_prefixed (ap : gmap string Vec2) (s : string * SenderArrows)
    (e : string * Vec2) :
  e ∈ connectors (senderDelta arrowHandleWidth ap s) ->
  exists t, e.1 = fromToId_of s.1 t.
Proof.
  unfold senderDelta. simpl.
  rewrite (field_Flat_concat connectors) by reflexivity.
  intros (r & He & _)%list_elem_of_bind. simpl in He.
  apply list_elem_of_singleton in He as ->. exists r.1. reflexivity.
Qed.

Lemma feets_prefixed (ap : gmap string Vec2) (s : string * SenderArrows)
    (e : string * (Vec2 * Vec2)) :
  e ∈ feets (senderDelta arrowHandleWidth ap s) ->
  exists t, e.1 = fromToId_of s.1 t.
Proof.
  unfold senderDelta. simpl.
  rewrite (field_Flat_concat feets) by reflexivity.
  intros (r & He & _)%list_elem_of_bind. simpl in He.
  apply elem_of_feetsOf in He as (a & p & _ & _ & ->).
  exists (fromToId_of r.1 a). apply feetId_of_nested.
Qed.

End Removal.

(** ** The keyed data join *)

Section JoinBind.
Context {ops : Vec2Ops}.

Lemma NoDup_fst_functional {K V : Type} (l : list (K * V)) (k : K) (v1 v2 : V) :
  NoDup l.*1 -> (k, v1) ∈ l -> (k, v2) ∈ l -> v1 = v2.
Proof.
  induction l as [| [k' v'] l IH]; intros Hnd H1 H2.
  - inversion H1.
  - rewrite fmap_cons in Hnd. apply NoDup_cons in Hnd as [Hk Hnd].
    assert (Hfresh : forall v, (k', v) ∈ l -> False).
    { intros v Hv. apply Hk. apply list_elem_of_fmap. exists (k', v). auto. }
    apply elem_of_cons in H1 as [E1 | H1]; apply elem_of_cons in H2 as [E2 | H2].
    + congruence.
    + injection E1 as -> _. destruct (Hfresh _ H2).
    + injection E2 as -> _. destruct (Hfresh _ H1).
    + exact (IH Hnd H1 H2).
Qed.

(** The node kept for a key is a node of the group with that key, and
    every key of the group has a kept node. *)
Lemma registerNodes_from (nodes : list (nat * string)) (m : gmap string nat)
    (k : string) (i : nat) :
  fold_left (fun m n => match m !! n.2 with
                        | Some _ => m
                        | None => <[n.2 := n.1]> m
                        end) nodes m !! k = Some i ->
  m !! k = Some i \/ (i, k) ∈ nodes.
Proof.
  revert m. induction nodes as [| [j kj] nodes IH]; intros m H; [left; exact H |].
  simpl in H. apply IH in H as [H | H]; [| right; right; exact H].
  destruct (m !! kj) eqn:Hm; [left; exact H |].
  destruct (decide (kj = k)) as [-> | Hne].
  - rewrite lookup_insert_eq in H. injection H as ->. right. left.
  - rewrite lookup_insert_ne in H by exact Hne. left. exact H.
Qed.

Lemma registerNodes_keeps (nodes : list (nat * string)) (m : gmap string nat)
    (k : string) :
  is_Some (m !! k) \/ k ∈ nodes.*2 ->
  is_Some (fold_left (fun m n => match m !! n.2 with
                                 | Some _ => m
                                 | None => <[n.2 := n.1]> m
                                 end) nodes m !! k).
Proof.
  revert m. induction nodes as [| [j kj] nodes IH]; intros m H.
  - destruct H as [H | H]; [exact H | inversion H].
  - simpl. apply IH. destruct H as [H | H].
    + left. destruct (m !! kj) eqn:Hm; [exact H |].
      destruct (decide (kj = k)) as [-> | Hne].
      * rewrite lookup_insert_eq. eauto.
      * rewrite lookup_insert_ne by exact Hne. exact H.
    + rewrite fmap_cons in H. apply elem_of_cons in H as [-> | H]; [| right; exact H].
      left. simpl. destruct (m !! kj) eqn:Hm; [rewrite Hm; eauto |].
      rewrite lookup_insert_eq. eauto.
Qed.

Lemma registerNodes_elem (nodes : list (nat * string)) (k : string) (i : nat) :
  registerNodes nodes !! k = Some i -> (i, k) ∈ nodes.
Proof.
  intros H. apply registerNodes_from in H as [H | H]; [| exact H].
  rewrite lookup_empty in H. discriminate.
Qed.

Lemma registerNodes_is_Some (nodes : list (nat * string)) (k : string) :
  k ∈ nodes.*2 -> is_Some (registerNodes nodes !! k).
Proof. intros H. apply registerNodes_keeps. right. exact H. Qed.

(** The slots are the data, in order. *)
Lemma bindData_slots (m : gmap string nat) (data : list Datum) :
  slotDatum <$> (bindData m data).1 = data.
Proof.
  revert m. induction data as [| d data IH]; intros m; [reflexivity |].
  simpl. destruct (m !! datumKey d); simpl; rewrite IH; reflexivity.
Qed.

(** An update slot holds the node kept for the key of its datum. *)
Lemma bindData_Upd (m : gmap string nat) (data : list Datum) (i : nat) (d : Datum) :
  Upd i d ∈ (bindData m data).1 -> m !! datumKey d = Some i.
Proof.
  revert m. induction data as [| d' data IH]; intros m H; [inversion H |].
  simpl in H. destruct (m !! datumKey d') as [j |] eqn:Hm; simpl in H.
  - apply elem_of_cons in H as [E | H].
    + injection E as -> ->. exact Hm.
    + apply IH in H. apply lookup_delete_Some in H as [_ H]. exact H.
  - apply elem_of_cons in H as [E | H]; [discriminate E |].
    apply IH, H.
Qed.

(** A node that is left is kept for a key that no datum has. *)
Lemma bindData_left (m : gmap string nat) (data : list Datum) (k : string) (i : nat) :
  (bindData m data).2 !! k = Some i ->
  m !! k = Some i /\ k ∉ datumKey <$> data.
Proof.
  revert m. induction data as [| d data IH]; intros m H.
  - simpl in H. split; [exact H | intros Hin; inversion Hin].
  - simpl in H. rewrite fmap_cons, not_elem_of_cons.
    destruct (m !! datumKey d) as [j |] eqn:Hm; simpl in H.
    + apply IH in H as [H Hnot]. apply lookup_delete_Some in H as [Hne H].
      split; [exact H |]. split; [congruence | exact Hnot].
    + apply IH in H as [H Hnot]. split; [exact H |].
      split; [| exact Hnot]. intros ->. rewrite Hm in H. discriminate.
Qed.

(** A kept node whose key some datum has is taken by an update slot with
    that key, and one whose key no datum has is left. *)
Lemma bindData_taken (m : gmap string nat) (data : list Datum) (k : string) (i : nat) :
  m !! k = Some i ->
  k ∈ datumKey <$> data ->
  exists d, Upd i d ∈ (bindData m data).1 /\ datumKey d = k.
Proof.
  revert m. induction data as [| d data IH]; intros m Hm Hk; [inversion Hk |].
  rewrite fmap_cons in Hk. simpl.
  destruct (decide (datumKey d = k)) as [E | Hne].
  - rewrite E, Hm. simpl. exists d. split; [left | exact E].
  - apply elem_of_cons in Hk as [Hk | Hk]; [congruence |].
    destruct (m !! datumKey d) as [j |] eqn:Hd; simpl.
    + destruct (IH (delete (datumKey d) m)) as (d' & Hin & E); [| exact Hk |].
      * rewrite lookup_delete_ne by exact Hne. exact Hm.
      * exists d'. split; [right; exact Hin | exact E].
    + destruct (IH m Hm Hk) as (d' & Hin & E).
      exists d'. split; [right; exact Hin | exact E].
Qed.

Lemma bindData_untaken (m : gmap string nat) (data : list Datum) (k : string) (i : nat) :
  m !! k = Some i ->
  k ∉ datumKey <$> data ->
  (bindData m data).2 !! k = Some i.
Proof.
  revert m. induction data as [| d data IH]; intros m Hm Hk; [exact Hm |].
  rewrite fmap_cons, not_elem_of_cons in Hk. destruct Hk as [Hne Hk]. simpl.
  destruct (m !! datumKey d) as [j |] eqn:Hd; simpl.
  - apply IH; [| exact Hk]. rewrite lookup_delete_ne by congruence. exact Hm.
  - apply IH; assumption.
Qed.

Section Group.
Variable nodes : list (nat * string).
Variable data : list Datum.
Hypothesis nodes_NoDup : NoDup nodes.*1.

Let kept := registerNodes nodes.
Let slots := (bindData kept data).1.
Let left := (bindData kept data).2.
Let exits := exitIds nodes kept left.

Lemma exitIds_spec (i : nat) (k : string) :
  (i, k) ∈ nodes ->
  i ∈ exits <-> kept !! k <> Some i \/ left !! k = Some i.
Proof using nodes_NoDup.
  intros Hin. unfold exits, exitIds. rewrite list_elem_of_fmap. split.
  - intros ([i' k'] & E & H). simpl in E. subst i'.
    apply list_elem_of_filter in H as [HP H]. simpl in HP.
    rewrite (NoDup_fst_functional nodes i k k' nodes_NoDup Hin H). exact HP.
  - intros HP. exists (i, k). split; [reflexivity |].
    apply list_elem_of_filter. split; [exact HP | exact Hin].
Qed.

Lemma exitIds_sub (i : nat) : i ∈ exits -> i ∈ nodes.*1.
Proof.
  unfold exits, exitIds. rewrite !list_elem_of_fmap.
  intros (n & -> & H). apply list_elem_of_filter in H as [_ H]. eauto.
Qed.

(** An update slot holds a node of the group with the key of its datum,
    and that node is not in the exit. *)
Lemma update_node (i : nat) (d : Datum) :
  Upd i d ∈ slots -> (i, datumKey d) ∈ nodes /\ i ∉ exits.
Proof using nodes_NoDup.
  intros H. apply bindData_Upd in H as Hkept.
  apply registerNodes_elem in Hkept as Hin. split; [exact Hin |].
  rewrite (exitIds_spec i (datumKey d) Hin). intros [Hne | Hleft].
  - contradiction.
  - apply bindData_left in Hleft as [_ Hnot]. apply Hnot.
    apply list_elem_of_fmap. exists d. split; [reflexivity |].
    rewrite <- (bindData_slots kept data). apply list_elem_of_fmap.
    exists (Upd i d). split; [reflexivity | exact H].
Qed.

(** A node of the group that is not in the exit is held by an update
    slot whose datum has its key. *)
Lemma kept_node (i : nat) (k : string) :
  (i, k) ∈ nodes -> i ∉ exits ->
  exists d, Upd i d ∈ slots /\ datumKey d = k.
Proof using nodes_NoDup.
  intros Hin Hnot. rewrite (exitIds_spec i k Hin) in Hnot.
  destruct (decide (kept !! k = Some i)) as [Hk | Hk]; [| destruct Hnot; auto].
  destruct (decide (k ∈ datumKey <$> data)) as [Hd | Hd].
  - exact (bindData_taken kept data k i Hk Hd).
  - destruct Hnot. right. exact (bindData_untaken kept data k i Hk Hd).
Qed.

(** Every node whose key no datum has is in the exit. *)
Lemma vanished_node_exits (i : nat) (k : string) :
  (i, k) ∈ nodes -> k ∉ datumKey <$> data -> i ∈ exits.
Proof using nodes_NoDup.
  intros Hin Hk. destruct (decide (i ∈ exits)) as [H | H]; [exact H |].
  destruct (kept_node i k Hin H) as (d & Hd & E). destruct Hk.
  apply list_elem_of_fmap. exists d. split; [auto |].
  rewrite <- (bindData_slots kept data). apply list_elem_of_fmap.
  exists (Upd i d). split; [reflexivity | exact Hd].
Qed.

End Group.

End JoinBind.

(** ** A join into a group of leaves *)

Section FlatJoin.
Context {ops : Vec2Ops}.

Lemma descendants_eq (i : nat) (c : string) (d : option Datum) (kids : list GNode) :
  descendants (GN i c d kids) = forestNodes kids.
Proof.
  simpl. induction kids as [| k rest IH]; [reflexivity |].
  rewrite IH. reflexivity.
Qed.

Lemma forestNodes_cons (k : GNode) (rest : list GNode) :
  forestNodes (k :: rest) = (k :: descendants k) ++ forestNodes rest.
Proof. reflexivity. Qed.

Lemma descendants_leaf (n : GNode) : g_kids n = [] -> descendants n = [].
Proof. destruct n as [i c d kids]. simpl. intros ->. reflexivity. Qed.

Lemma forestNodes_leaves (l : list GNode) :
  Forall (fun n => g_kids n = []) l -> forestNodes l = l.
Proof.
  induction 1 as [| n l Hn _ IH]; [reflexivity |].
  change (forestNodes (n :: l)) with ((n :: descendants n) ++ forestNodes l).
  rewrite (descendants_leaf n Hn), IH. reflexivity.
Qed.

Lemma mapM_nodeKey (l : list GNode) :
  Forall (fun n => is_Some (g_datum n)) l ->
  mapM nodeKey l = Some ((fun n => (g_id n, keyOf n)) <$> l).
Proof.
  induction 1 as [| n l [d Hd] _ IH]; [reflexivity |].
  simpl. rewrite IH. unfold nodeKey, keyOf. rewrite Hd. reflexivity.
Qed.

Lemma keyOf_nodeKeys (l : list GNode) :
  Forall (fun n => is_Some (g_datum n)) l -> nodeKeys l = keyOf <$> l.
Proof.
  induction 1 as [| n l [d Hd] _ IH]; [reflexivity |].
  unfold nodeKeys in *. rewrite fmap_cons, <- IH. unfold keyOf.
  cbn [omap list_omap]. rewrite Hd. reflexivity.
Qed.

Lemma setDatum_kids (i : nat) (d : Datum) (j : nat) (c : string) (o : option Datum)
    (kids : list GNode) :
  g_kids (setDatum i d (GN j c o kids)) = setDatum i d <$> kids.
Proof.
  simpl. induction kids as [| k rest IH]; [reflexivity |].
  rewrite IH. reflexivity.
Qed.

Lemma setDatum_leaf (i : nat) (d : Datum) (n : GNode) :
  g_kids n = [] -> is_Some (g_datum n) ->
  (g_id n = i -> keyOf n = datumKey d) ->
  g_kids (setDatum i d n) = [] /\ is_Some (g_datum (setDatum i d n)) /\
  nodeInfo (setDatum i d n) = nodeInfo n.
Proof.
  destruct n as [j c o kids]. simpl. intros -> Ho Hkey.
  split; [reflexivity |]. unfold nodeInfo, keyOf in *. simpl in *.
  destruct (Nat.eqb_spec j i) as [E | _].
  - split; [eauto |]. rewrite (Hkey E). reflexivity.
  - split; [exact Ho | reflexivity].
Qed.

Lemma setData_flat (slots : list Slot) (kids : list GNode) :
  Forall (fun n => g_kids n = [] /\ is_Some (g_datum n)) kids ->
  (forall i d n, Upd i d ∈ slots -> n ∈ kids -> g_id n = i -> keyOf n = datumKey d) ->
  Forall (fun n => g_kids n = [] /\ is_Some (g_datum n)) (setData slots kids) /\
  nodeInfo <$> setData slots kids = nodeInfo <$> kids.
Proof.
  revert kids. induction slots as [| [i d | d] rest IH]; intros kids Hl Hk.
  - split; [exact Hl | reflexivity].
  - cbn [setData]. rewrite setDatum_kids.
    assert (Hstep : Forall (fun n => (g_kids (setDatum i d n) = [] /\
                                      is_Some (g_datum (setDatum i d n))) /\
                                     nodeInfo (setDatum i d n) = nodeInfo n) kids).
    { rewrite Forall_forall in Hl |- *. intros n Hn. destruct (Hl n Hn) as [H1 H2].
      destruct (setDatum_leaf i d n H1 H2) as (A & B & C); [| auto].
      apply (Hk i d n); [left | exact Hn]. }
    apply Forall_and in Hstep as [Hleaf Hinfo].
    assert (Einfo' : nodeInfo <$> (setDatum i d <$> kids) = nodeInfo <$> kids).
    { rewrite <- list_fmap_compose. apply Forall_fmap_ext_1. exact Hinfo. }
    destruct (IH (setDatum i d <$> kids)) as [A B].
    + apply Forall_fmap. exact Hleaf.
    + intros i' d' n' Hin Hn' Hid.
      apply list_elem_of_fmap in Hn' as (n & -> & Hn).
      rewrite Forall_forall in Hinfo. pose proof (Hinfo n Hn) as E.
      unfold nodeInfo in E. injection E as E1 _ E3.
      rewrite E3. apply (Hk i' d' n); [right; exact Hin | exact Hn | congruence].
    + split; [exact A | congruence].
  - cbn [setData]. apply IH; [exact Hl |].
    intros i d' n Hin. apply Hk. right. exact Hin.
Qed.


Lemma insertBefore_perm (next : nat) (new : GNode) (kids l : list GNode) :
  insertBefore next new kids = Some l -> l ≡ₚ new :: kids.
Proof.
  revert l. induction kids as [| k rest IH]; intros l H; [discriminate H |].
  simpl in H. destruct (g_id k =? next).
  - injection H as <-. reflexivity.
  - destruct (insertBefore next new rest) as [l' |]; [| discriminate H].
    injection H as <-. rewrite (IH l' eq_refl). apply Permutation_swap.
Qed.

Lemma insertBefore_is_Some (next : nat) (new : GNode) (kids : list GNode) :
  next ∈ g_id <$> kids -> is_Some (insertBefore next new kids).
Proof.
  induction kids as [| k rest IH]; intros H; [inversion H |].
  simpl. destruct (Nat.eqb_spec (g_id k) next) as [E | Hne]; [eauto |].
  rewrite fmap_cons in H. apply elem_of_cons in H as [E | H]; [congruence |].
  destruct (IH H) as [l ->]. simpl. eauto.
Qed.

Lemma nextUpdate_elem (rest : list Slot) (i : nat) :
  nextUpdate rest = Some i -> exists d, Upd i d ∈ rest.
Proof.
  induction rest as [| [j d | d] rest IH]; intros H; [discriminate H | |].
  - injection H as ->. exists d. left.
  - destruct (IH H) as [d' Hd]. exists d'. right. exact Hd.
Qed.

(** The nodes made for the entering slots. *)
Lemma elem_of_newNodes (slots : list Slot) (fresh : nat) (n : GNode) :
  n ∈ newNodes fresh slots ->
  exists d, Ent d ∈ slots /\ g_cls n = datumKey d /\ g_datum n = Some d /\
            g_kids n = [] /\ fresh <= g_id n < fresh + length slots.
Proof.
  revert fresh. induction slots as [| [j d | d] rest IH]; intros fresh H.
  - inversion H.
  - destruct (IH fresh H) as (d' & A & B & C & D & E).
    exists d'. split; [right; exact A |]. simpl. repeat split; auto; lia.
  - simpl in H. apply elem_of_cons in H as [-> | H].
    + exists d. split; [left |]. simpl. repeat split; lia.
    + destruct (IH (S fresh) H) as (d' & A & B & C & D & E).
      exists d'. split; [right; exact A |]. simpl. repeat split; auto; lia.
Qed.

Lemma newNodes_entered (slots : list Slot) (fresh : nat) (d : Datum) :
  Ent d ∈ slots -> exists n, n ∈ newNodes fresh slots /\ g_datum n = Some d.
Proof.
  revert fresh. induction slots as [| [j d' | d'] rest IH]; intros fresh H.
  - inversion H.
  - apply elem_of_cons in H as [E | H]; [discriminate E |]. exact (IH fresh H).
  - apply elem_of_cons in H as [E | H].
    + injection E as <-. eexists. split; [left | reflexivity].
    + destruct (IH (S fresh) H) as (n & A & B). exists n. split; [right; exact A | exact B].
Qed.

Lemma newNodes_NoDup (slots : list Slot) (fresh : nat) :
  NoDup (g_id <$> newNodes fresh slots).
Proof.
  revert fresh. induction slots as [| [j d | d] rest IH]; intros fresh.
  - apply NoDup_nil_2.
  - apply IH.
  - simpl. apply NoDup_cons. split; [| apply IH].
    intros (n & E & Hn)%list_elem_of_fmap.
    apply elem_of_newNodes in Hn as (_ & _ & _ & _ & _ & Hlt). lia.
Qed.

Lemma enterAll_flat (slots : list Slot) (fresh : nat) (kids : list GNode) :
  (forall i d, Upd i d ∈ slots -> i ∈ g_id <$> kids) ->
  exists kids2 merged fresh',
    enterAll fresh slots kids = Some (kids2, merged, fresh') /\
    kids2 ≡ₚ kids ++ newNodes fresh slots /\
    fresh <= fresh' /\
    Forall (fun n => g_id n < fresh') (newNodes fresh slots) /\
    (forall i, i ∈ merged ->
               (exists d, Upd i d ∈ slots) \/ i ∈ g_id <$> newNodes fresh slots).
Proof.
  revert fresh kids. induction slots as [| [j d | d] rest IH]; intros fresh kids Hupd.
  - exists kids, [], fresh. simpl. rewrite app_nil_r.
    split; [reflexivity |]. split; [reflexivity |]. split; [lia |].
    split; [constructor | intros i Hi; inversion Hi].
  - destruct (IH fresh kids) as (kids2 & merged & fresh' & E & P & Hle & Hlt & Hm).
    { intros i d' H. apply (Hupd i d'). right. exact H. }
    exists kids2, (j :: merged), fresh'. simpl. rewrite E.
    split; [reflexivity |]. split; [exact P |]. split; [exact Hle |].
    split; [exact Hlt |].
    intros i [-> | Hi]%elem_of_cons.
    + left. exists d. left.
    + destruct (Hm i Hi) as [[d' Hd'] | Hn]; [left; exists d'; right; exact Hd' | right; exact Hn].
  - set (new := GN fresh (datumKey d) (Some d) []).
    assert (Hins : exists kids1,
               match nextUpdate rest with
               | None => Some (kids ++ [new])
               | Some next => insertBefore next new kids
               end = Some kids1 /\ kids1 ≡ₚ new :: kids).
    { destruct (nextUpdate rest) as [next |] eqn:Hnext.
      - destruct (nextUpdate_elem rest next Hnext) as [d' Hd'].
        destruct (insertBefore_is_Some next new kids) as [kids1 E1].
        { apply (Hupd next d'). right. exact Hd'. }
        exists kids1. split; [exact E1 | exact (insertBefore_perm _ _ _ _ E1)].
      - exists (kids ++ [new]). split; [reflexivity |].
        rewrite Permutation_app_comm. reflexivity. }
    destruct Hins as (kids1 & E1 & P1).
    destruct (IH (S fresh) kids1) as (kids2 & merged & fresh' & E & P & Hle & Hlt & Hm).
    { intros i d' H. rewrite P1, fmap_cons. right. apply (Hupd i d'). right. exact H. }
    exists kids2, (fresh :: merged), fresh'. cbn [enterAll]. fold new.
    rewrite E1, E. cbn [newNodes]. fold new.
    split; [reflexivity |]. split; [| split; [| split]].
    + rewrite P, P1. simpl. rewrite Permutation_middle. reflexivity.
    + lia.
    + constructor; [simpl; lia | exact Hlt].
    + intros i [-> | Hi]%elem_of_cons.
      * right. rewrite fmap_cons. left.
      * destruct (Hm i Hi) as [[d' Hd'] | Hn].
        -- left. exists d'. right. exact Hd'.
        -- right. rewrite fmap_cons. right. exact Hn.
Qed.

Lemma removeBelow_leaf (ids : list nat) (n : GNode) :
  g_kids n = [] -> removeBelow ids n = n.
Proof. destruct n as [i c d kids]. simpl. intros ->. reflexivity. Qed.

Lemma removeNodes_leaves (ids : list nat) (l : list GNode) :
  Forall (fun n => g_kids n = []) l ->
  removeNodes ids l = filter (fun k => g_id k ∉ ids) l.
Proof.
  unfold removeNodes. simpl. induction 1 as [| n l Hn _ IH]; [reflexivity |].
  rewrite IH, (removeBelow_leaf ids n Hn), filter_cons.
  destruct (decide (g_id n ∈ ids)) as [Hin | Hout].
  - rewrite bool_decide_eq_true_2 by exact Hin.
    destruct (decide (g_id n ∉ ids)); [contradiction | reflexivity].
  - rewrite bool_decide_eq_false_2 by exact Hout.
    destruct (decide (g_id n ∉ ids)); [reflexivity | contradiction].
Qed.

(** Ordering the nodes of a group keeps the nodes. *)
Lemma filter_other_ids (a : nat) (rest : list GNode) :
  a ∉ g_id <$> rest -> filter (fun k => g_id k <> a) rest = rest.
Proof.
  induction rest as [| k rest IH]; intros Ha; [reflexivity |].
  rewrite fmap_cons, not_elem_of_cons in Ha. destruct Ha as [Hne Ha].
  rewrite filter_cons. destruct (decide (g_id k <> a)) as [_ | E].
  - rewrite (IH Ha). reflexivity.
  - destruct E. congruence.
Qed.

Lemma find_id_perm (a : nat) (kids : list GNode) (na : GNode) :
  NoDup (g_id <$> kids) ->
  find (fun k => g_id k =? a) kids = Some na ->
  kids ≡ₚ na :: filter (fun k => g_id k <> a) kids.
Proof.
  induction kids as [| k rest IH]; intros Hnd H; [discriminate H |].
  rewrite fmap_cons in Hnd. apply NoDup_cons in Hnd as [Hk Hnd].
  simpl in H. rewrite filter_cons.
  destruct (Nat.eqb_spec (g_id k) a) as [E | Hne].
  - injection H as <-. destruct (decide (g_id k <> a)) as [? | _]; [contradiction |].
    rewrite filter_other_ids; [reflexivity |]. rewrite <- E. exact Hk.
  - destruct (decide (g_id k <> a)) as [_ | ?]; [| contradiction].
    rewrite (IH Hnd H) at 1. apply Permutation_swap.
Qed.

Lemma moveBefore_perm (a b : nat) (kids : list GNode) :
  NoDup (g_id <$> kids) -> moveBefore a b kids ≡ₚ kids.
Proof.
  intros Hnd. unfold moveBefore.
  destruct (find (fun k => g_id k =? a) kids) as [na |] eqn:Hfind; [| reflexivity].
  destruct (insertBefore b na (filter (fun k => g_id k <> a) kids)) as [l |] eqn:Hins;
    [| reflexivity].
  simpl. rewrite (insertBefore_perm _ _ _ _ Hins). symmetry.
  exact (find_id_perm a kids na Hnd Hfind).
Qed.

Lemma order_go_perm (before : list nat) (next : nat) (kids : list GNode) :
  NoDup (g_id <$> kids) -> order_go before next kids ≡ₚ kids.
Proof.
  revert next kids. induction before as [| node more IH]; intros next kids Hnd;
    [reflexivity |].
  simpl. destruct (precedes node next kids); [exact (IH node kids Hnd) |].
  pose proof (moveBefore_perm node next kids Hnd) as P.
  rewrite IH; [exact P |]. rewrite P. exact Hnd.
Qed.

Lemma orderNodes_perm (merged : list nat) (kids : list GNode) :
  NoDup (g_id <$> kids) -> orderNodes merged kids ≡ₚ kids.
Proof.
  intros Hnd. unfold orderNodes. destruct (rev merged); [reflexivity |].
  exact (order_go_perm _ _ _ Hnd).
Qed.

End FlatJoin.

(** ** What a join leaves in a group of leaves *)

Section JoinResult.
Context {ops : Vec2Ops}.

Lemma slot_in_data (m : gmap string nat) (data : list Datum) (s : Slot) :
  s ∈ (bindData m data).1 -> slotDatum s ∈ data.
Proof.
  intros H. rewrite <- (bindData_slots m data). apply list_elem_of_fmap. eauto.
Qed.

Lemma data_in_slot (m : gmap string nat) (data : list Datum) (d : Datum) :
  d ∈ data -> exists s, s ∈ (bindData m data).1 /\ slotDatum s = d.
Proof.
  intros H. rewrite <- (bindData_slots m data) in H.
  apply list_elem_of_fmap in H as (s & -> & Hs). eauto.
Qed.

Lemma nodeInfo_id (l : list GNode) : g_id <$> l = (fun t => t.1.1) <$> (nodeInfo <$> l).
Proof. rewrite <- list_fmap_compose. reflexivity. Qed.

Lemma nodeInfo_key (l : list GNode) :
  (fun n => (g_id n, keyOf n)) <$> l = (fun t => (t.1.1, t.2)) <$> (nodeInfo <$> l).
Proof. rewrite <- list_fmap_compose. reflexivity. Qed.

Section OneJoin.
Variable ordered : bool.
Variable fresh : nat.
Variable kids : list GNode.
Variable data : list Datum.
Hypothesis kids_bare : Forall (fun n => g_kids n = [] /\ is_Some (g_datum n)) kids.
Hypothesis kids_NoDup : NoDup (g_id <$> kids).
Hypothesis kids_old : Forall (fun n => g_id n < fresh) kids.

Let nodes : list (nat * string) := (fun n => (g_id n, keyOf n)) <$> kids.
Let kept := registerNodes nodes.
Let slots := (bindData kept data).1.
Let exits := exitIds nodes kept (bindData kept data).2.
Let kids1 := setData slots kids.
Let news := newNodes fresh slots.

Lemma nodes_ids : nodes.*1 = g_id <$> kids.
Proof. unfold nodes. rewrite <- list_fmap_compose. reflexivity. Qed.

Lemma nodes_NoDup : NoDup nodes.*1.
Proof using kids_NoDup. rewrite nodes_ids. exact kids_NoDup. Qed.

Lemma mapM_kids : mapM nodeKey (forestNodes kids) = Some nodes.
Proof using kids_bare.
  apply Forall_and in kids_bare as [H1 H2].
  rewrite (forestNodes_leaves kids H1). exact (mapM_nodeKey kids H2).
Qed.

Lemma kids1_flat :
  Forall (fun n => g_kids n = [] /\ is_Some (g_datum n)) kids1 /\
  nodeInfo <$> kids1 = nodeInfo <$> kids.
Proof using kids_bare kids_NoDup.
  apply setData_flat; [exact kids_bare |].
  intros i d n Hupd Hn Hid.
  destruct (update_node nodes data nodes_NoDup i d Hupd) as [Hin _].
  assert (Hn' : (i, keyOf n) ∈ nodes).
  { apply list_elem_of_fmap. exists n. split; [rewrite Hid; reflexivity | exact Hn]. }
  exact (NoDup_fst_functional nodes i _ _ nodes_NoDup Hn' Hin).
Qed.

Lemma kids1_nodes : (fun n => (g_id n, keyOf n)) <$> kids1 = nodes.
Proof using kids_bare kids_NoDup.
  unfold nodes. rewrite !nodeInfo_key, (proj2 kids1_flat). reflexivity.
Qed.

Lemma kids1_ids : g_id <$> kids1 = g_id <$> kids.
Proof using kids_bare kids_NoDup.
  rewrite !nodeInfo_id, (proj2 kids1_flat). reflexivity.
Qed.

Lemma exits_old (i : nat) : i ∈ exits -> i < fresh.
Proof using kids_old.
  intros H. apply exitIds_sub in H. rewrite nodes_ids in H.
  apply list_elem_of_fmap in H as (n & -> & Hn).
  rewrite Forall_forall in kids_old. exact (kids_old n Hn).
Qed.

Lemma news_stay (n : GNode) : n ∈ news -> g_id n ∉ exits.
Proof using kids_old.
  intros Hn Hex. apply exits_old in Hex.
  apply elem_of_newNodes in Hn as (_ & _ & _ & _ & _ & Hge). lia.
Qed.

Lemma survivor_cases (n : GNode) :
  survivor fresh kids data n <-> (n ∈ kids1 /\ g_id n ∉ exits) \/ n ∈ news.
Proof. reflexivity. Qed.

Lemma survivor_bare (n : GNode) :
  survivor fresh kids data n -> g_kids n = [] /\ is_Some (g_datum n).
Proof using kids_bare kids_NoDup.
  intros [[Hn _] | Hn]%survivor_cases.
  - destruct kids1_flat as [H _]. rewrite Forall_forall in H. exact (H n Hn).
  - apply elem_of_newNodes in Hn as (d & _ & _ & Hd & Hk & _).
    split; [exact Hk | rewrite Hd; eauto].
Qed.

Lemma survivor_key (n : GNode) : survivor fresh kids data n -> keyOf n ∈ datumKey <$> data.
Proof using kids_bare kids_NoDup.
  intros [[Hn Hex] | Hn]%survivor_cases.
  - assert (Hin : (g_id n, keyOf n) ∈ nodes).
    { rewrite <- kids1_nodes. apply list_elem_of_fmap. eauto. }
    destruct (kept_node nodes data nodes_NoDup _ _ Hin Hex) as (d & Hd & <-).
    apply list_elem_of_fmap. exists d. split; [reflexivity |].
    exact (slot_in_data _ _ _ Hd).
  - apply elem_of_newNodes in Hn as (d & Hd & _ & E & _).
    unfold keyOf. rewrite E. simpl.
    apply list_elem_of_fmap. exists d. split; [reflexivity |].
    exact (slot_in_data _ _ _ Hd).
Qed.

Lemma key_survives (k : string) :
  k ∈ datumKey <$> data -> exists n, survivor fresh kids data n /\ keyOf n = k.
Proof using kids_bare kids_NoDup.
  intros (d & -> & Hd)%list_elem_of_fmap.
  destruct (data_in_slot kept data d Hd) as ([i d' | d'] & Hs & E); simpl in E; subst d'.
  - destruct (update_node nodes data nodes_NoDup i d Hs) as [Hin Hex].
    rewrite <- kids1_nodes in Hin.
    apply list_elem_of_fmap in Hin as (n & E & Hn). injection E as E1 E2.
    exists n. split; [| symmetry; exact E2].
    apply survivor_cases. left. split; [exact Hn | first [rewrite E1 | rewrite <- E1]; exact Hex].
  - destruct (newNodes_entered slots fresh d Hs) as (n & Hn & E).
    exists n. split; [apply survivor_cases; right; exact Hn |].
    unfold keyOf. rewrite E. reflexivity.
Qed.

Lemma survivor_origin (n : GNode) :
  survivor fresh kids data n ->
  (exists m, m ∈ kids /\ g_id m = g_id n /\ g_cls m = g_cls n) \/
  (fresh <= g_id n /\ g_cls n ∈ datumKey <$> data).
Proof using kids_bare kids_NoDup.
  intros [[Hn _] | Hn]%survivor_cases.
  - left. assert (Hin : nodeInfo n ∈ nodeInfo <$> kids).
    { rewrite <- (proj2 kids1_flat). apply list_elem_of_fmap. eauto. }
    apply list_elem_of_fmap in Hin as (m & E & Hm). injection E as E1 E2 _.
    exists m. auto.
  - right. apply elem_of_newNodes in Hn as (d & Hd & -> & _ & _ & Hge).
    split; [lia |]. apply list_elem_of_fmap. exists d. split; [reflexivity |].
    exact (slot_in_data _ _ _ Hd).
Qed.

(** A node whose key no datum has is in the exit. *)
Lemma exit_of_vanished (k : string) :
  k ∈ nodeKeys kids -> k ∉ datumKey <$> data ->
  k ∈ (filter (fun n => n.1 ∈ exits) nodes).*2.
Proof using kids_bare kids_NoDup.
  intros Hk Hdata.
  assert (Hsome : Forall (fun n => is_Some (g_datum n)) kids).
  { eapply Forall_impl; [exact kids_bare |]. intros n [_ A]. exact A. }
  rewrite (keyOf_nodeKeys kids Hsome) in Hk.
  apply list_elem_of_fmap in Hk as (n & -> & Hn).
  assert (Hin : (g_id n, keyOf n) ∈ nodes).
  { apply list_elem_of_fmap. exists n. auto. }
  apply list_elem_of_fmap. exists (g_id n, keyOf n). split; [reflexivity |].
  apply list_elem_of_filter. split; [| exact Hin].
  exact (vanished_node_exits nodes data nodes_NoDup _ _ Hin Hdata).
Qed.

Lemma joinForest_survivors :
  exists kids' fresh',
    joinForest ordered fresh kids data
    = Done (kids', fresh', (filter (fun n => n.1 ∈ exits) nodes).*2) /\
    fresh <= fresh' /\
    NoDup (g_id <$> kids') /\
    Forall (fun n => g_id n < fresh') kids' /\
    (forall n, n ∈ kids' <-> survivor fresh kids data n).
Proof using kids_bare kids_NoDup kids_old.
  unfold joinForest. rewrite mapM_kids. cbv zeta.
  fold kept. fold slots. fold exits. fold kids1.
  destruct (enterAll_flat slots fresh kids1) as (kids2 & merged & fresh' & E & P & Hle & Hlt & Hm).
  { intros i d Hupd. rewrite kids1_ids, <- nodes_ids.
    destruct (update_node nodes data nodes_NoDup i d Hupd) as [Hin _].
    apply list_elem_of_fmap. exists (i, datumKey d). auto. }
  fold news in P, Hlt, Hm. rewrite E.
  assert (Hbare2 : Forall (fun n => g_kids n = []) kids2).
  { rewrite P. apply Forall_app. split.
    - destruct kids1_flat as [H _]. apply Forall_and in H as [H _]. exact H.
    - apply Forall_forall. intros n Hn.
      apply elem_of_newNodes in Hn as (d & _ & _ & _ & Hk & _). exact Hk. }
  rewrite (removeNodes_leaves exits kids2 Hbare2).
  set (kids3 := filter (fun k => g_id k ∉ exits) kids2).
  assert (Hmem : forall n, n ∈ kids3 <-> survivor fresh kids data n).
  { intros n. unfold kids3. rewrite list_elem_of_filter, P, elem_of_app, survivor_cases.
    split.
    - intros [Hex [Hn | Hn]]; auto.
    - intros [[Hn Hex] | Hn]; [auto |]. split; [exact (news_stay n Hn) | auto]. }
  assert (Hnd2 : NoDup (g_id <$> kids2)).
  { rewrite P, fmap_app. apply NoDup_app. split; [| split].
    - rewrite kids1_ids. exact kids_NoDup.
    - intros i Hi (n & -> & Hn)%list_elem_of_fmap.
      rewrite kids1_ids in Hi. apply list_elem_of_fmap in Hi as (m & Eid & Hm').
      rewrite Forall_forall in kids_old. pose proof (kids_old m Hm') as Hold.
      apply elem_of_newNodes in Hn as (_ & _ & _ & _ & _ & Hge). lia.
    - apply newNodes_NoDup. }
  assert (Hnd3 : NoDup (g_id <$> kids3)).
  { refine (sublist_NoDup (g_id <$> kids3) (g_id <$> kids2) Hnd2 _).
    apply fmap_sublist, sublist_filter. }
  assert (Hlt3 : Forall (fun n => g_id n < fresh') kids3).
  { apply Forall_forall. intros n Hn. apply Hmem in Hn as [[Hn _] | Hn].
    - assert (Hid : g_id n ∈ g_id <$> kids) by (rewrite <- kids1_ids; apply list_elem_of_fmap; eauto).
      apply list_elem_of_fmap in Hid as (m & Eid & Hm').
      rewrite Forall_forall in kids_old. pose proof (kids_old m Hm'). lia.
    - rewrite Forall_forall in Hlt. exact (Hlt n Hn). }
  destruct ordered.
  - assert (Hall : forallb (fun i => existsb (fun k => g_id k =? i) kids3) merged = true).
    { apply forallb_forall. intros i Hi%list_elem_of_In.
      apply existsb_exists.
      assert (Hn : exists n, survivor fresh kids data n /\ g_id n = i).
      { destruct (Hm i Hi) as [[d Hd] | Hn].
        - destruct (update_node nodes data nodes_NoDup i d Hd) as [Hin Hex].
          rewrite <- kids1_nodes in Hin.
          apply list_elem_of_fmap in Hin as (n & En & Hn). injection En as E1 _.
          exists n. split; [| symmetry; exact E1].
          apply survivor_cases. left. split; [exact Hn | first [rewrite E1 | rewrite <- E1]; exact Hex].
        - apply list_elem_of_fmap in Hn as (n & -> & Hn). exists n.
          split; [apply survivor_cases; right; exact Hn | reflexivity]. }
      destruct Hn as (n & Hs & En). exists n. split.
      - apply list_elem_of_In, Hmem, Hs.
      - apply Nat.eqb_eq. exact En. }
    rewrite Hall. pose proof (orderNodes_perm merged kids3 Hnd3) as Po.
    exists (orderNodes merged kids3), fresh'.
    split; [reflexivity |]. split; [exact Hle |].
    split; [rewrite Po; exact Hnd3 |]. split; [rewrite Po; exact Hlt3 |].
    intros n. rewrite Po. apply Hmem.
  - exists kids3, fresh'. auto.
Qed.

(** A join into a group of leaves succeeds and leaves a group of leaves
    whose keys are the keys of the data. *)
Lemma joinForest_flat :
  exists kids' fresh' exitKeys,
    joinForest ordered fresh kids data = Done (kids', fresh', exitKeys) /\
    (forall k, k ∈ nodeKeys kids -> k ∉ datumKey <$> data -> k ∈ exitKeys) /\
    fresh <= fresh' /\
    Forall (fun n => g_kids n = [] /\ is_Some (g_datum n)) kids' /\
    NoDup (g_id <$> kids') /\
    Forall (fun n => g_id n < fresh') kids' /\
    (forall k, k ∈ nodeKeys kids' <-> k ∈ datumKey <$> data) /\
    (forall n, n ∈ kids' ->
       (exists m, m ∈ kids /\ g_id m = g_id n /\ g_cls m = g_cls n) \/
       (fresh <= g_id n /\ g_cls n ∈ datumKey <$> data)).
Proof using kids_bare kids_NoDup kids_old.
  destruct joinForest_survivors as (kids' & fresh' & E & Hle & Hnd & Hlt & Hmem).
  exists kids', fresh', (filter (fun n => n.1 ∈ exits) nodes).*2.
  assert (Hbare : Forall (fun n => g_kids n = [] /\ is_Some (g_datum n)) kids').
  { apply Forall_forall. intros n Hn. apply survivor_bare, Hmem, Hn. }
  split; [exact E |]. split; [exact exit_of_vanished |]. split; [exact Hle |]. split; [exact Hbare |].
  split; [exact Hnd |]. split; [exact Hlt |]. split.
  - intros k. apply Forall_and in Hbare as [_ Hsome].
    rewrite (keyOf_nodeKeys kids' Hsome), list_elem_of_fmap. split.
    + intros (n & -> & Hn). apply survivor_key, Hmem, Hn.
    + intros Hk. destruct (key_survives k Hk) as (n & Hs & <-).
      exists n. split; [reflexivity | apply Hmem, Hs].
  - intros n Hn. apply survivor_origin, Hmem, Hn.
Qed.

End OneJoin.

End JoinResult.

(** ** Selecting the groups of a document of the rendered shape *)

Section Groups.
Context {ops : Vec2Ops}.

Lemma lowerString_classes (cls : string) :
  cls ∈ laterGroupClasses -> lowerString cls = cls.
Proof.
  unfold laterGroupClasses. rewrite !elem_of_cons.
  intros [-> | [-> | [-> | H]]]; [reflexivity | reflexivity | reflexivity | inversion H].
Qed.

(** A safe class has none of the three later classes among its tokens. *)
Lemma tokenSafe_hasToken (cls s : string) :
  cls ∈ laterGroupClasses -> tokenSafe s = true -> hasToken cls s = false.
Proof.
  intros Hcls Hsafe. unfold tokenSafe in Hsafe.
  rewrite forallb_forall in Hsafe.
  specialize (Hsafe cls (proj1 (list_elem_of_In _ _) Hcls)).
  apply negb_true_iff, bool_decide_eq_false in Hsafe.
  unfold hasToken. apply bool_decide_eq_false. intros Hin. apply Hsafe.
  rewrite <- (lowerString_classes cls Hcls). apply list_elem_of_fmap. eauto.
Qed.

Lemma find_skip {A : Type} (f : A -> bool) (pre : list A) (c : A) (post : list A) :
  Forall (fun x => f x = false) pre -> f c = true ->
  find f (pre ++ c :: post) = Some c.
Proof.
  intros Hpre Hc. induction Hpre as [| x pre Hx _ IH]; simpl.
  - rewrite Hc. reflexivity.
  - rewrite Hx. exact IH.
Qed.

Lemma find_skip_cons {A : Type} (f : A -> bool) (r : A) (pre : list A) (c : A)
    (post : list A) :
  f r = false -> Forall (fun x => f x = false) pre -> f c = true ->
  find f (r :: pre ++ c :: post) = Some c.
Proof. intros Hr Hpre Hc. simpl. rewrite Hr. exact (find_skip f pre c post Hpre Hc). Qed.

Lemma setKids_unfold (p : nat) (new : list GNode) (i : nat) (c : string)
    (d : option Datum) (kids : list GNode) :
  setKids p new (GN i c d kids)
  = if i =? p then GN i c d new else GN i c d (setKids p new <$> kids).
Proof.
  simpl. destruct (i =? p); reflexivity.
Qed.

Lemma groupOk_mono (fresh fresh' : nat) (l : list GNode) :
  fresh <= fresh' -> groupOk fresh l -> groupOk fresh' l.
Proof.
  intros Hle [Hl Hnd]. split; [| exact Hnd].
  eapply Forall_impl; [exact Hl |]. intros n (A & B & C & D). repeat split; auto; lia.
Qed.

Section Shape.
Variables ka kp kf kc : list GNode.
Variable fresh : nat.
Hypothesis ka_ok : groupOk fresh ka.
Hypothesis kp_ok : groupOk fresh kp.
Hypothesis kf_ok : groupOk fresh kf.
Hypothesis kc_ok : groupOk fresh kc.

Let g := domOf ka kp kf kc fresh.

Lemma groupOk_bare (l : list GNode) :
  groupOk fresh l -> Forall (fun n => g_kids n = []) l.
Proof. intros [H _]. eapply Forall_impl; [exact H |]. intros n (A & _). exact A. Qed.

Lemma dom_descendants :
  descendants (dom_root g)
  = (GN 1 "arrows" None ka :: ka) ++ GN 2 "start-plates" None kp ::
    (kp ++ GN 3 "feets" None kf :: (kf ++ GN 4 "connectors" None kc :: kc)).
Proof using ka_ok kp_ok kf_ok kc_ok.
  unfold g, domOf. cbn [dom_root]. rewrite descendants_eq, !forestNodes_cons, !descendants_eq.
  rewrite (forestNodes_leaves ka (groupOk_bare ka ka_ok)),
          (forestNodes_leaves kp (groupOk_bare kp kp_ok)),
          (forestNodes_leaves kf (groupOk_bare kf kf_ok)),
          (forestNodes_leaves kc (groupOk_bare kc kc_ok)).
  change (forestNodes []) with (@nil GNode). rewrite app_nil_r. reflexivity.
Qed.

Lemma dom_descendants_feets :
  descendants (dom_root g)
  = ((GN 1 "arrows" None ka :: ka) ++ GN 2 "start-plates" None kp :: kp) ++
    GN 3 "feets" None kf :: (kf ++ GN 4 "connectors" None kc :: kc).
Proof using ka_ok kp_ok kf_ok kc_ok.
  rewrite dom_descendants, <- app_assoc. reflexivity.
Qed.

Lemma dom_descendants_connectors :
  descendants (dom_root g)
  = (((GN 1 "arrows" None ka :: ka) ++ GN 2 "start-plates" None kp :: kp) ++
     GN 3 "feets" None kf :: kf) ++ GN 4 "connectors" None kc :: kc.
Proof using ka_ok kp_ok kf_ok kc_ok.
  rewrite dom_descendants_feets, <- (app_assoc _ (_ :: kf)). reflexivity.
Qed.

Lemma leaves_unselected (cls : string) (l : list GNode) :
  cls ∈ laterGroupClasses -> groupOk fresh l ->
  Forall (fun n => hasToken cls (g_cls n) = false) l.
Proof.
  intros Hcls [H _]. eapply Forall_impl; [exact H |].
  intros n (_ & _ & Hsafe & _). exact (tokenSafe_hasToken cls _ Hcls Hsafe).
Qed.

Lemma leaves_other_ids (p : nat) (l : list GNode) :
  p < 5 -> groupOk fresh l -> Forall (fun n => (g_id n =? p) = false) l.
Proof.
  intros Hp [H _]. eapply Forall_impl; [exact H |].
  intros n (_ & _ & _ & Hid). apply Nat.eqb_neq. lia.
Qed.

Lemma select_arrows : selectClass "arrows" (dom_root g) = Some 1.
Proof using ka_ok kp_ok kf_ok kc_ok.
  unfold selectClass. rewrite dom_descendants. reflexivity.
Qed.

Lemma select_startPlates : selectClass "start-plates" (dom_root g) = Some 2.
Proof using ka_ok kp_ok kf_ok kc_ok.
  unfold selectClass. rewrite dom_descendants.
  rewrite (find_skip _ (GN 1 "arrows" None ka :: ka) (GN 2 "start-plates" None kp));
    [reflexivity | | reflexivity].
  constructor; [reflexivity |].
  apply leaves_unselected; [unfold laterGroupClasses; set_solver | exact ka_ok].
Qed.

Lemma select_feets : selectClass "feets" (dom_root g) = Some 3.
Proof using ka_ok kp_ok kf_ok kc_ok.
  unfold selectClass. rewrite dom_descendants_feets.
  rewrite (find_skip _ _ (GN 3 "feets" None kf)); [reflexivity | | reflexivity].
  apply Forall_app. split; (constructor; [reflexivity |]);
    (apply leaves_unselected; [unfold laterGroupClasses; set_solver | assumption]).
Qed.

Lemma select_connectors : selectClass "connectors" (dom_root g) = Some 4.
Proof using ka_ok kp_ok kf_ok kc_ok.
  unfold selectClass. rewrite dom_descendants_connectors.
  rewrite (find_skip _ _ (GN 4 "connectors" None kc)); [reflexivity | | reflexivity].
  rewrite !Forall_app. repeat split; (constructor; [reflexivity |]);
    (apply leaves_unselected; [unfold laterGroupClasses; set_solver | assumption]).
Qed.

(** The node a selection holds, looked up by its identity. *)
Lemma nodeById_arrows : nodeById 1 (dom_root g) = Some (GN 1 "arrows" None ka).
Proof using ka_ok kp_ok kf_ok kc_ok.
  unfold nodeById. rewrite dom_descendants. reflexivity.
Qed.

Lemma nodeById_startPlates :
  nodeById 2 (dom_root g) = Some (GN 2 "start-plates" None kp).
Proof using ka_ok kp_ok kf_ok kc_ok.
  unfold nodeById. rewrite dom_descendants.
  rewrite (find_skip_cons _ _ _ (GN 2 "start-plates" None kp));
    [reflexivity | reflexivity | | reflexivity].
  constructor; [reflexivity |].
  apply leaves_other_ids; [lia | exact ka_ok].
Qed.

Lemma nodeById_feets : nodeById 3 (dom_root g) = Some (GN 3 "feets" None kf).
Proof using ka_ok kp_ok kf_ok kc_ok.
  unfold nodeById. rewrite dom_descendants_feets.
  rewrite (find_skip_cons _ _ _ (GN 3 "feets" None kf));
    [reflexivity | reflexivity | | reflexivity].
  apply Forall_app. split; (constructor; [reflexivity |]);
    (apply leaves_other_ids; [lia | assumption]).
Qed.

Lemma nodeById_connectors :
  nodeById 4 (dom_root g) = Some (GN 4 "connectors" None kc).
Proof using ka_ok kp_ok kf_ok kc_ok.
  unfold nodeById. rewrite dom_descendants_connectors.
  rewrite (find_skip_cons _ _ _ (GN 4 "connectors" None kc));
    [reflexivity | reflexivity | | reflexivity].
  rewrite !Forall_app. repeat split; (constructor; [reflexivity |]);
    (apply leaves_other_ids; [lia | assumption]).
Qed.

Lemma setKids_leaves (p : nat) (new l : list GNode) :
  p < 5 -> groupOk fresh l -> setKids p new <$> l = l.
Proof.
  intros Hp [H _]. induction H as [| n l (Hk & _ & _ & Hid) _ IH]; [reflexivity |].
  rewrite fmap_cons, IH. f_equal. destruct n as [i c d kids]. simpl in Hk, Hid.
  subst kids. rewrite setKids_unfold. destruct (Nat.eqb_spec i p); [lia | reflexivity].
Qed.

Lemma setKids_arrows (new : list GNode) (fresh' : nat) :
  {| dom_root := setKids 1 new (dom_root g); dom_fresh := fresh' |}
  = domOf new kp kf kc fresh'.
Proof using ka_ok kp_ok kf_ok kc_ok.
  unfold g, domOf. cbn [dom_root]. rewrite setKids_unfold. cbn [Nat.eqb].
  rewrite !fmap_cons, !setKids_unfold. cbn [Nat.eqb].
  rewrite !setKids_leaves by (lia || assumption). reflexivity.
Qed.

Lemma setKids_startPlates (new : list GNode) (fresh' : nat) :
  {| dom_root := setKids 2 new (dom_root g); dom_fresh := fresh' |}
  = domOf ka new kf kc fresh'.
Proof using ka_ok kp_ok kf_ok kc_ok.
  unfold g, domOf. cbn [dom_root]. rewrite setKids_unfold. cbn [Nat.eqb].
  rewrite !fmap_cons, !setKids_unfold. cbn [Nat.eqb].
  rewrite !setKids_leaves by (lia || assumption). reflexivity.
Qed.

Lemma setKids_feets (new : list GNode) (fresh' : nat) :
  {| dom_root := setKids 3 new (dom_root g); dom_fresh := fresh' |}
  = domOf ka kp new kc fresh'.
Proof using ka_ok kp_ok kf_ok kc_ok.
  unfold g, domOf. cbn [dom_root]. rewrite setKids_unfold. cbn [Nat.eqb].
  rewrite !fmap_cons, !setKids_unfold. cbn [Nat.eqb].
  rewrite !setKids_leaves by (lia || assumption). reflexivity.
Qed.

Lemma setKids_connectors (new : list GNode) (fresh' : nat) :
  {| dom_root := setKids 4 new (dom_root g); dom_fresh := fresh' |}
  = domOf ka kp kf new fresh'.
Proof using ka_ok kp_ok kf_ok kc_ok.
  unfold g, domOf. cbn [dom_root]. rewrite setKids_unfold. cbn [Nat.eqb].
  rewrite !fmap_cons, !setKids_unfold. cbn [Nat.eqb].
  rewrite !setKids_leaves by (lia || assumption). reflexivity.
Qed.

(** The keys a rendered group holds are the keys of its children. *)
Lemma groupKeys_arrows : groupKeys "arrows" g = nodeKeys ka.
Proof using ka_ok.
  unfold groupKeys. change (renderedGroup "arrows" g) with (Some (GN 1 "arrows" None ka)).
  cbn [from_option]. rewrite descendants_eq.
  rewrite (forestNodes_leaves ka (groupOk_bare ka ka_ok)). reflexivity.
Qed.

Lemma groupKeys_startPlates : groupKeys "start-plates" g = nodeKeys kp.
Proof using kp_ok.
  unfold groupKeys.
  change (renderedGroup "start-plates" g) with (Some (GN 2 "start-plates" None kp)).
  cbn [from_option]. rewrite descendants_eq.
  rewrite (forestNodes_leaves kp (groupOk_bare kp kp_ok)). reflexivity.
Qed.

Lemma groupKeys_feets : groupKeys "feets" g = nodeKeys kf.
Proof using kf_ok.
  unfold groupKeys. change (renderedGroup "feets" g) with (Some (GN 3 "feets" None kf)).
  cbn [from_option]. rewrite descendants_eq.
  rewrite (forestNodes_leaves kf (groupOk_bare kf kf_ok)). reflexivity.
Qed.

Lemma groupKeys_connectors : groupKeys "connectors" g = nodeKeys kc.
Proof using kc_ok.
  unfold groupKeys.
  change (renderedGroup "connectors" g) with (Some (GN 4 "connectors" None kc)).
  cbn [from_option]. rewrite descendants_eq.
  rewrite (forestNodes_leaves kc (groupOk_bare kc kc_ok)). reflexivity.
Qed.

(** The join of a collection into the group a selection holds. *)
Lemma joinGroup_arrows (ordered : bool) (data : list Datum) (kids' : list GNode)
    (fresh' : nat) (exitKeys : list string) :
  joinForest ordered fresh ka data = Done (kids', fresh', exitKeys) ->
  joinGroup ordered (Some 1) data g = Done (domOf kids' kp kf kc fresh', exitKeys).
Proof using ka_ok kp_ok kf_ok kc_ok.
  intros E. unfold joinGroup. rewrite nodeById_arrows. cbn [g_kids].
  change (dom_fresh g) with fresh. rewrite E. cbn [Outcome_bind fst snd].
  cbn [fst snd]. rewrite setKids_arrows. reflexivity.
Qed.

Lemma joinGroup_startPlates (ordered : bool) (data : list Datum) (kids' : list GNode)
    (fresh' : nat) (exitKeys : list string) :
  joinForest ordered fresh kp data = Done (kids', fresh', exitKeys) ->
  joinGroup ordered (Some 2) data g = Done (domOf ka kids' kf kc fresh', exitKeys).
Proof using ka_ok kp_ok kf_ok kc_ok.
  intros E. unfold joinGroup. rewrite nodeById_startPlates. cbn [g_kids].
  change (dom_fresh g) with fresh. rewrite E. cbn [Outcome_bind fst snd].
  cbn [fst snd]. rewrite setKids_startPlates. reflexivity.
Qed.

Lemma joinGroup_feets (ordered : bool) (data : list Datum) (kids' : list GNode)
    (fresh' : nat) (exitKeys : list string) :
  joinForest ordered fresh kf data = Done (kids', fresh', exitKeys) ->
  joinGroup ordered (Some 3) data g = Done (domOf ka kp kids' kc fresh', exitKeys).
Proof using ka_ok kp_ok kf_ok kc_ok.
  intros E. unfold joinGroup. rewrite nodeById_feets. cbn [g_kids].
  change (dom_fresh g) with fresh. rewrite E. cbn [Outcome_bind fst snd].
  cbn [fst snd]. rewrite setKids_feets. reflexivity.
Qed.

Lemma joinGroup_connectors (ordered : bool) (data : list Datum) (kids' : list GNode)
    (fresh' : nat) (exitKeys : list string) :
  joinForest ordered fresh kc data = Done (kids', fresh', exitKeys) ->
  joinGroup ordered (Some 4) data g = Done (domOf ka kp kf kids' fresh', exitKeys).
Proof using ka_ok kp_ok kf_ok kc_ok.
  intros E. unfold joinGroup. rewrite nodeById_connectors. cbn [g_kids].
  change (dom_fresh g) with fresh. rewrite E. cbn [Outcome_bind fst snd].
  cbn [fst snd]. rewrite setKids_connectors. reflexivity.
Qed.

End Shape.

End Groups.

(** ** One pass over a document of the rendered shape *)

Section PassFacts.
Context {ops : Vec2Ops}.
Variable arrowHandleWidth : num.

Lemma join_group_ok (ordered : bool) (fresh : nat) (kids : list GNode)
    (data : list Datum) :
  5 <= fresh -> groupOk fresh kids ->
  Forall (fun d => tokenSafe (datumKey d) = true) data ->
  exists kids' fresh' exitKeys,
    joinForest ordered fresh kids data = Done (kids', fresh', exitKeys) /\
    fresh <= fresh' /\ groupOk fresh' kids' /\
    (forall k, k ∈ nodeKeys kids' <-> k ∈ datumKey <$> data) /\
    (forall k, k ∈ nodeKeys kids -> k ∉ datumKey <$> data -> k ∈ exitKeys).
Proof.
  intros H5 [Hl Hnd] Hsafe.
  assert (Hbare : Forall (fun n => g_kids n = [] /\ is_Some (g_datum n)) kids).
  { eapply Forall_impl; [exact Hl |]. intros n (A & B & _). auto. }
  assert (Hold : Forall (fun n => g_id n < fresh) kids).
  { eapply Forall_impl; [exact Hl |]. intros n (_ & _ & _ & A). lia. }
  destruct (joinForest_flat ordered fresh kids data Hbare Hnd Hold)
    as (kids' & fresh' & exitKeys & E & Hexit & Hle & Hbare' & Hnd' & Hlt' & Hkeys & Horigin).
  exists kids', fresh', exitKeys. split; [exact E |]. split; [exact Hle |].
  split; [| exact (conj Hkeys Hexit)]. split; [| exact Hnd'].
  rewrite Forall_forall in Hbare'. rewrite Forall_forall in Hlt'.
  rewrite Forall_forall in Hl. rewrite Forall_forall in Hsafe.
  apply Forall_forall. intros n Hn.
  destruct (Hbare' n Hn) as [A B]. pose proof (Hlt' n Hn) as C.
  split; [exact A |]. split; [exact B |].
  destruct (Horigin n Hn) as [(m & Hm & Eid & Ecls) | [Hge Hcls]].
  - destruct (Hl m Hm) as (_ & _ & Hs & Hid). rewrite <- Ecls, <- Eid.
    split; [exact Hs | lia].
  - apply list_elem_of_fmap in Hcls as (d & -> & Hd).
    split; [exact (Hsafe d Hd) | lia].
Qed.

Lemma keys_tokenSafe_fields (props : Props) :
  keys_tokenSafe arrowHandleWidth props = true ->
  let flat := flatten arrowHandleWidth props in
  Forall (fun d => tokenSafe (datumKey d) = true) (PlateDatum <$> startPlates flat) /\
  Forall (fun d => tokenSafe (datumKey d) = true) (ArrowDatum <$> flat_arrows flat) /\
  Forall (fun d => tokenSafe (datumKey d) = true) (ConnectorDatum <$> connectors flat) /\
  Forall (fun d => tokenSafe (datumKey d) = true) (FeetDatum <$> feets flat).
Proof.
  intros H. cbv zeta. unfold keys_tokenSafe, flatKeys in H.
  set (flat := flatten arrowHandleWidth props) in *.
  rewrite !forallb_app, !andb_true_iff in H. destruct H as (A & B & C & D).
  rewrite forallb_forall in A, B, C, D.
  repeat split; apply Forall_fmap, Forall_forall; intros e He; simpl;
    [apply A | apply B | apply C | apply D];
    apply list_elem_of_In, list_elem_of_fmap; eauto.
Qed.

Lemma plate_keys (l : list (string * Vec2)) : datumKey <$> (PlateDatum <$> l) = l.*1.
Proof. rewrite <- list_fmap_compose. reflexivity. Qed.

Lemma arrow_keys (l : list Arrow) : datumKey <$> (ArrowDatum <$> l) = l.*1.
Proof. rewrite <- list_fmap_compose. reflexivity. Qed.

Lemma connector_keys (l : list (string * Vec2)) :
  datumKey <$> (ConnectorDatum <$> l) = l.*1.
Proof. rewrite <- list_fmap_compose. reflexivity. Qed.

Lemma feet_keys (l : list (string * (Vec2 * Vec2))) :
  datumKey <$> (FeetDatum <$> l) = l.*1.
Proof. rewrite <- list_fmap_compose. reflexivity. Qed.

(** A pass over a document of the rendered shape whose nodes and data
    have safe classes selects the four rendered groups, joins each
    collection into its own group, and leaves a document of the same
    shape in which every group holds the keys of its collection; the keys
    a group held that its collection lacks are in the exit of its join. *)
Lemma manageArrows_groups (props : Props) (ka kp kf kc : list GNode) (fresh : nat) :
  5 <= fresh ->
  groupOk fresh ka -> groupOk fresh kp -> groupOk fresh kf -> groupOk fresh kc ->
  keys_tokenSafe arrowHandleWidth props = true ->
  let flat := flatten arrowHandleWidth props in
  exists ka' kp' kf' kc' fresh' xp xa xc xf,
    manageArrows arrowHandleWidth props (domOf ka kp kf kc fresh)
    = Done {| pass_doc := domOf ka' kp' kf' kc' fresh';
              exit_startPlates := xp; exit_arrows := xa;
              exit_connectors := xc; exit_feets := xf |} /\
    5 <= fresh' /\
    (groupOk fresh' ka' /\ groupOk fresh' kp' /\
     groupOk fresh' kf' /\ groupOk fresh' kc') /\
    ((forall k, k ∈ nodeKeys ka' <-> k ∈ (flat_arrows flat).*1) /\
     (forall k, k ∈ nodeKeys kp' <-> k ∈ (startPlates flat).*1) /\
     (forall k, k ∈ nodeKeys kf' <-> k ∈ (feets flat).*1) /\
     (forall k, k ∈ nodeKeys kc' <-> k ∈ (connectors flat).*1)) /\
    ((forall k, k ∈ nodeKeys ka -> k ∉ (flat_arrows flat).*1 -> k ∈ xa) /\
     (forall k, k ∈ nodeKeys kp -> k ∉ (startPlates flat).*1 -> k ∈ xp) /\
     (forall k, k ∈ nodeKeys kf -> k ∉ (feets flat).*1 -> k ∈ xf) /\
     (forall k, k ∈ nodeKeys kc -> k ∉ (connectors flat).*1 -> k ∈ xc)).
Proof.
  intros H5 Ha Hp Hf Hc Hsafe flat.
  destruct (keys_tokenSafe_fields props Hsafe) as (Sp & Sa & Sc & Sf).
  fold flat in Sp, Sa, Sc, Sf.
  unfold manageArrows. cbv zeta. fold flat.
  rewrite (select_startPlates ka kp kf kc fresh Ha Hp Hf Hc),
          (select_arrows ka kp kf kc fresh Ha Hp Hf Hc),
          (select_connectors ka kp kf kc fresh Ha Hp Hf Hc),
          (select_feets ka kp kf kc fresh Ha Hp Hf Hc).
  destruct (join_group_ok false fresh kp _ H5 Hp Sp)
    as (kp' & f1 & xp & E1 & L1 & Hp' & K1 & X1).
  rewrite (joinGroup_startPlates ka kp kf kc fresh Ha Hp Hf Hc false _ kp' f1 xp E1).
  cbn [Outcome_bind fst snd].
  pose proof (groupOk_mono fresh f1 ka L1 Ha) as Ha1.
  pose proof (groupOk_mono fresh f1 kf L1 Hf) as Hf1.
  pose proof (groupOk_mono fresh f1 kc L1 Hc) as Hc1.
  destruct (join_group_ok true f1 ka _ ltac:(lia) Ha1 Sa)
    as (ka' & f2 & xa & E2 & L2 & Ha' & K2 & X2).
  rewrite (joinGroup_arrows ka kp' kf kc f1 Ha1 Hp' Hf1 Hc1 true _ ka' f2 xa E2).
  cbn [Outcome_bind fst snd].
  pose proof (groupOk_mono f1 f2 kp' L2 Hp') as Hp2.
  pose proof (groupOk_mono f1 f2 kf L2 Hf1) as Hf2.
  pose proof (groupOk_mono f1 f2 kc L2 Hc1) as Hc2.
  destruct (join_group_ok false f2 kc _ ltac:(lia) Hc2 Sc)
    as (kc' & f3 & xc & E3 & L3 & Hc' & K3 & X3).
  rewrite (joinGroup_connectors ka' kp' kf kc f2 Ha' Hp2 Hf2 Hc2 false _ kc' f3 xc E3).
  cbn [Outcome_bind fst snd].
  pose proof (groupOk_mono f2 f3 ka' L3 Ha') as Ha3.
  pose proof (groupOk_mono f2 f3 kp' L3 Hp2) as Hp3.
  pose proof (groupOk_mono f2 f3 kf L3 Hf2) as Hf3.
  destruct (join_group_ok false f3 kf _ ltac:(lia) Hf3 Sf)
    as (kf' & f4 & xf & E4 & L4 & Hf' & K4 & X4).
  rewrite (joinGroup_feets ka' kp' kf kc' f3 Ha3 Hp3 Hf3 Hc' false _ kf' f4 xf E4).
  cbn [Outcome_bind fst snd].
  exists ka', kp', kf', kc', f4, xp, xa, xc, xf.
  split; [reflexivity |]. split; [lia |].
  split; [| split].
  - split; [exact (groupOk_mono f3 f4 ka' L4 Ha3) |].
    split; [exact (groupOk_mono f3 f4 kp' L4 Hp3) |].
    split; [exact Hf' | exact (groupOk_mono f3 f4 kc' L4 Hc')].
  - split; [intros k; rewrite K2, arrow_keys; reflexivity |].
    split; [intros k; rewrite K1, plate_keys; reflexivity |].
    split; [intros k; rewrite K4, feet_keys; reflexivity |].
    intros k. rewrite K3, connector_keys. reflexivity.
  - split; [intros k Hk Hn; apply X2; [exact Hk | rewrite arrow_keys; exact Hn] |].
    split; [intros k Hk Hn; apply X1; [exact Hk | rewrite plate_keys; exact Hn] |].
    split; [intros k Hk Hn; apply X4; [exact Hk | rewrite feet_keys; exact Hn] |].
    intros k Hk Hn. apply X3; [exact Hk | rewrite connector_keys; exact Hn].
Qed.

(** Such a pass returns and leaves a document of the rendered shape. *)
Lemma manageArrows_wf (props : Props) (g : Dom) :
  Dom_wf g -> keys_tokenSafe arrowHandleWidth props = true ->
  exists r, manageArrows arrowHandleWidth props g = Done r /\ Dom_wf (pass_doc r).
Proof.
  intros (ka & kp & kf & kc & Eg & H5 & Ha & Hp & Hf & Hc) Hsafe. rewrite Eg.
  destruct (manageArrows_groups props ka kp kf kc _ H5 Ha Hp Hf Hc Hsafe)
    as (ka' & kp' & kf' & kc' & f' & xp & xa & xc & xf & E & H5' & (Ha' & Hp' & Hf' & Hc') & _).
  eexists. split; [exact E |]. exists ka', kp', kf', kc'.
  split; [reflexivity |]. cbn [pass_doc domOf dom_fresh]. auto.
Qed.

End PassFacts.

(** ** Running the pass again, and removing a sender *)

Section Passes.
Context {ops : Vec2Ops}.
Variable arrowHandleWidth : num.

Lemma groupOk_nil (fresh : nat) : groupOk fresh [].
Proof. split; [constructor | apply NoDup_nil_2]. Qed.

(** What the component renders before any pass is of the rendered shape. *)
Lemma mountedDom_wf : Dom_wf mountedDom.
Proof.
  exists [], [], [], []. split; [reflexivity |]. split; [simpl; lia |].
  repeat split; try apply groupOk_nil; constructor.
Qed.

(** Removing a sender adds no entry to a collection. *)
Lemma flatten_removeSender_sub {D : Type} (F : Flat -> list (string * D))
    (s : string) (props : Props) (e : string * D) :
  F emptyFlat = [] -> (forall a b, F (Flat_app a b) = F a ++ F b) ->
  e ∈ F (flatten arrowHandleWidth (removeSender s props)) ->
  e ∈ F (flatten arrowHandleWidth props).
Proof.
  intros F_empty F_app H.
  apply (elem_of_flatten_field arrowHandleWidth F F_empty F_app) in H as (s' & Hs' & He).
  apply elem_of_Map_delete in Hs' as [Hs' _].
  apply (elem_of_flatten_field arrowHandleWidth F F_empty F_app). exists s'. auto.
Qed.

Lemma keys_tokenSafe_removeSender (s : string) (props : Props) :
  keys_tokenSafe arrowHandleWidth props = true ->
  keys_tokenSafe arrowHandleWidth (removeSender s props) = true.
Proof.
  unfold keys_tokenSafe. rewrite !forallb_forall. intros H k Hk. apply H.
  apply list_elem_of_In. apply list_elem_of_In in Hk. unfold flatKeys in *.
  rewrite !elem_of_app in *.
  destruct Hk as [Hk | [Hk | [Hk | Hk]]];
    apply list_elem_of_fmap in Hk as (e & -> & He);
    [left | right; left | right; right; left | right; right; right];
    apply list_elem_of_fmap; exists e; (split; [reflexivity |]);
    [exact (flatten_removeSender_sub startPlates s props e eq_refl (fun _ _ => eq_refl) He)
    |exact (flatten_removeSender_sub flat_arrows s props e eq_refl (fun _ _ => eq_refl) He)
    |exact (flatten_removeSender_sub connectors s props e eq_refl (fun _ _ => eq_refl) He)
    |exact (flatten_removeSender_sub feets s props e eq_refl (fun _ _ => eq_refl) He)].
Qed.

(** The passes for props with safe keys all return, and leave a
    document of the rendered shape. *)
Lemma renders_wf (passes : list Props) :
  Forall (fun props => keys_tokenSafe arrowHandleWidth props = true) passes ->
  exists g, renders arrowHandleWidth passes = Done g /\ Dom_wf g.
Proof.
  unfold renders. generalize mountedDom_wf. generalize mountedDom.
  induction passes as [| props passes IH]; intros g Hwf Hall.
  - exists g. auto.
  - apply Forall_cons in Hall as [Hsafe Hall].
    destruct (manageArrows_wf arrowHandleWidth props g Hwf Hsafe) as (r & E & Hwf').
    cbn [fold_left Outcome_bind]. rewrite E. exact (IH (pass_doc r) Hwf' Hall).
Qed.

(** C8, amended: let the document be of the rendered shape (the four
    groups of the component, each holding nodes that joins made, none with
    the class of a later group among the tokens of its class), and let no
    key of the four flattened collections have [start-plates], [feets] or
    [connectors], in any letter case, among its white-space separated
    tokens. Then the pass and a second pass on the same props both return,
    and after the second pass each of the four rendered groups holds the
    set of keys it held after the first, which is the set of keys of its
    flattened collection. *)
Theorem manageArrows_twice_same_keys (props : Props) (g : Dom) :
  Dom_wf g ->
  keys_tokenSafe arrowHandleWidth props = true ->
  exists r1 r2,
    manageArrows arrowHandleWidth props g = Done r1 /\
    manageArrows arrowHandleWidth props (pass_doc r1) = Done r2 /\
    (forall k, (k ∈ groupKeys "start-plates" (pass_doc r2) <->
                k ∈ groupKeys "start-plates" (pass_doc r1)) /\
               (k ∈ groupKeys "start-plates" (pass_doc r1) <->
                k ∈ (startPlates (flatten arrowHandleWidth props)).*1)) /\
    (forall k, (k ∈ groupKeys "arrows" (pass_doc r2) <->
                k ∈ groupKeys "arrows" (pass_doc r1)) /\
               (k ∈ groupKeys "arrows" (pass_doc r1) <->
                k ∈ (flat_arrows (flatten arrowHandleWidth props)).*1)) /\
    (forall k, (k ∈ groupKeys "connectors" (pass_doc r2) <->
                k ∈ groupKeys "connectors" (pass_doc r1)) /\
               (k ∈ groupKeys "connectors" (pass_doc r1) <->
                k ∈ (connectors (flatten arrowHandleWidth props)).*1)) /\
    (forall k, (k ∈ groupKeys "feets" (pass_doc r2) <->
                k ∈ groupKeys "feets" (pass_doc r1)) /\
               (k ∈ groupKeys "feets" (pass_doc r1) <->
                k ∈ (feets (flatten arrowHandleWidth props)).*1)).
Proof.
  intros (ka & kp & kf & kc & Eg & H5 & Ha & Hp & Hf & Hc) Hsafe.
  rewrite Eg.
  destruct (manageArrows_groups arrowHandleWidth props ka kp kf kc _ H5 Ha Hp Hf Hc Hsafe)
    as (ka1 & kp1 & kf1 & kc1 & f1 & xp1 & xa1 & xc1 & xf1 & E1 & H51 &
        (Ha1 & Hp1 & Hf1 & Hc1) & (Ka1 & Kp1 & Kf1 & Kc1) & _).
  destruct (manageArrows_groups arrowHandleWidth props ka1 kp1 kf1 kc1 _ H51 Ha1 Hp1 Hf1 Hc1 Hsafe)
    as (ka2 & kp2 & kf2 & kc2 & f2 & xp2 & xa2 & xc2 & xf2 & E2 & H52 &
        (Ha2 & Hp2 & Hf2 & Hc2) & (Ka2 & Kp2 & Kf2 & Kc2) & _).
  eexists. eexists. split; [exact E1 |]. split; [exact E2 |]. cbn [pass_doc].
  rewrite (groupKeys_startPlates ka1 kp1 kf1 kc1 f1 Hp1),
          (groupKeys_startPlates ka2 kp2 kf2 kc2 f2 Hp2),
          (groupKeys_arrows ka1 kp1 kf1 kc1 f1 Ha1),
          (groupKeys_arrows ka2 kp2 kf2 kc2 f2 Ha2),
          (groupKeys_connectors ka1 kp1 kf1 kc1 f1 Hc1),
          (groupKeys_connectors ka2 kp2 kf2 kc2 f2 Hc2),
          (groupKeys_feets ka1 kp1 kf1 kc1 f1 Hf1),
          (groupKeys_feets ka2 kp2 kf2 kc2 f2 Hf2).
  split; [| split; [| split]]; intros k; split.
  - rewrite Kp2, Kp1. reflexivity.
  - apply Kp1.
  - rewrite Ka2, Ka1. reflexivity.
  - apply Ka1.
  - rewrite Kc2, Kc1. reflexivity.
  - apply Kc1.
  - rewrite Kf2, Kf1. reflexivity.
  - apply Kf1.
Qed.

(** C9, amended: let the document be of the rendered shape, let no key of
    the four flattened collections have [start-plates], [feets] or
    [connectors], in any letter case, among its white-space separated
    tokens, let sender [s] be in the arrows map, let a pass run, let [s]
    be removed from the map and the next pass run. Then both passes
    return, the start-plate keyed [s] was in its rendered group after the
    first pass, it is in the exit of the start-plates join of the second
    pass, and no node of the group is keyed [s] afterwards. When no sender
    id contains [>], the same holds, each in its own group and join, for
    every key of an arrow, of a connector and of a feet entry that [s]
    contributed. *)
Theorem removed_sender_exits (props : Props) (g : Dom)
    (s : string) (sa : SenderArrows) :
  Dom_wf g ->
  keys_tokenSafe arrowHandleWidth props = true ->
  (s, sa) ∈ arrows props ->
  let props' := removeSender s props in
  let mine := senderStep arrowHandleWidth (apPositions props) emptyFlat sa s in
  exists r1 r2,
    manageArrows arrowHandleWidth props g = Done r1 /\
    manageArrows arrowHandleWidth props' (pass_doc r1) = Done r2 /\
    (s ∈ groupKeys "start-plates" (pass_doc r1) /\
     s ∈ exit_startPlates r2 /\
     s ∉ groupKeys "start-plates" (pass_doc r2)) /\
    (senders_gt_free props ->
     (forall k, k ∈ (flat_arrows mine).*1 ->
        k ∈ groupKeys "arrows" (pass_doc r1) /\
        k ∈ exit_arrows r2 /\
        k ∉ groupKeys "arrows" (pass_doc r2)) /\
     (forall k, k ∈ (connectors mine).*1 ->
        k ∈ groupKeys "connectors" (pass_doc r1) /\
        k ∈ exit_connectors r2 /\
        k ∉ groupKeys "connectors" (pass_doc r2)) /\
     (forall k, k ∈ (feets mine).*1 ->
        k ∈ groupKeys "feets" (pass_doc r1) /\
        k ∈ exit_feets r2 /\
        k ∉ groupKeys "feets" (pass_doc r2))).
Proof.
  intros (ka & kp & kf & kc & Eg & H5 & Ha & Hp & Hf & Hc) Hsafe Hs props' mine.
  pose proof (keys_tokenSafe_removeSender s props Hsafe) as Hsafe'. fold props' in Hsafe'.
  rewrite Eg.
  destruct (manageArrows_groups arrowHandleWidth props ka kp kf kc _ H5 Ha Hp Hf Hc Hsafe)
    as (ka1 & kp1 & kf1 & kc1 & f1 & xp1 & xa1 & xc1 & xf1 & E1 & H51 &
        (Ha1 & Hp1 & Hf1 & Hc1) & (Ka1 & Kp1 & Kf1 & Kc1) & _).
  destruct (manageArrows_groups arrowHandleWidth props' ka1 kp1 kf1 kc1 _ H51 Ha1 Hp1 Hf1 Hc1 Hsafe')
    as (ka2 & kp2 & kf2 & kc2 & f2 & xp2 & xa2 & xc2 & xf2 & E2 & H52 &
        (Ha2 & Hp2 & Hf2 & Hc2) & (Ka2 & Kp2 & Kf2 & Kc2) & (Xa & Xp & Xf & Xc)).
  eexists. eexists. split; [exact E1 |]. split; [exact E2 |].
  cbn [pass_doc exit_startPlates exit_arrows exit_connectors exit_feets].
  rewrite (groupKeys_startPlates ka1 kp1 kf1 kc1 f1 Hp1),
          (groupKeys_startPlates ka2 kp2 kf2 kc2 f2 Hp2),
          (groupKeys_arrows ka1 kp1 kf1 kc1 f1 Ha1),
          (groupKeys_arrows ka2 kp2 kf2 kc2 f2 Ha2),
          (groupKeys_connectors ka1 kp1 kf1 kc1 f1 Hc1),
          (groupKeys_connectors ka2 kp2 kf2 kc2 f2 Hc2),
          (groupKeys_feets ka1 kp1 kf1 kc1 f1 Hf1),
          (groupKeys_feets ka2 kp2 kf2 kc2 f2 Hf2).
  split.
  - assert (Hin : s ∈ (startPlates (flatten arrowHandleWidth props)).*1).
    { rewrite startPlates_keys. apply list_elem_of_fmap. exists (s, sa). auto. }
    assert (Hout : s ∉ (startPlates (flatten arrowHandleWidth props')).*1).
    { rewrite startPlates_keys. intros Hin'.
      apply list_elem_of_fmap in Hin' as (e & -> & He).
      apply elem_of_Map_delete in He as [_ Hne]. contradiction. }
    split; [apply Kp1, Hin |]. split; [| rewrite Kp2; exact Hout].
    apply Xp; [apply Kp1, Hin | exact Hout].
  - intros Hfree. split; [| split]; intros k Hk.
    + destruct (removed_sender_field arrowHandleWidth flat_arrows eq_refl
                  (fun _ _ => eq_refl) (flat_arrows_prefixed arrowHandleWidth)
                  props s sa k Hfree Hs Hk) as [Hin Hout].
      split; [apply Ka1, Hin |]. split; [| rewrite Ka2; exact Hout].
      apply Xa; [apply Ka1, Hin | exact Hout].
    + destruct (removed_sender_field arrowHandleWidth connectors eq_refl
                  (fun _ _ => eq_refl) (connectors_prefixed arrowHandleWidth)
                  props s sa k Hfree Hs Hk) as [Hin Hout].
      split; [apply Kc1, Hin |]. split; [| rewrite Kc2; exact Hout].
      apply Xc; [apply Kc1, Hin | exact Hout].
    + destruct (removed_sender_field arrowHandleWidth feets eq_refl
                  (fun _ _ => eq_refl) (feets_prefixed arrowHandleWidth)
                  props s sa k Hfree Hs Hk) as [Hin Hout].
      split; [apply Kf1, Hin |]. split; [| rewrite Kf2; exact Hout].
      apply Xf; [apply Kf1, Hin | exact Hout].
Qed.

End Passes.

(** ** The handle, for any Vec2 implementation *)

Section HandleFacts.
Context {ops : Vec2Ops}.
Variable arrowHandleWidth : num.

Lemma arrowHandleFromPoints_short (points : list Vec2) :
  length points < 3 -> arrowHandleFromPoints arrowHandleWidth points = None.
Proof.
  intros Hlen. unfold arrowHandleFromPoints.
  destruct (Nat.ltb_spec (length points) 3) as [_ | Hge]; [reflexivity | lia].
Qed.

(** With three points or more the handle is a function of [points[1]] and
    [points[2]]. *)
Lemma arrowHandleFromPoints_long (points : list Vec2) (start end_ : Vec2) :
  points !! 1 = Some start ->
  points !! 2 = Some end_ ->
  arrowHandleFromPoints arrowHandleWidth points
  = if isZero (normalize (sub end_ start)) then None
    else
      Some (sub (linterp start end_ num_half)
              (mul (normalize (sub end_ start)) (num_div arrowHandleWidth num_two)),
            add (linterp start end_ num_half)
              (mul (normalize (sub end_ start)) (num_div arrowHandleWidth num_two))).
Proof.
  intros H1 H2. unfold arrowHandleFromPoints.
  apply lookup_lt_Some in H2 as Hlen.
  destruct (Nat.ltb_spec (length points) 3) as [Hlt | _]; [lia |].
  rewrite H1, H2. reflexivity.
Qed.

Lemma lookup_in_range {A : Type} (points : list A) (i : nat) :
  i < length points -> exists p, points !! i = Some p.
Proof. intros Hi. apply lookup_lt_is_Some_2 in Hi as [p Hp]. eauto. Qed.

(** C10: the handle depends only on the points at indices 1 and 2. Two
    paths of at least three points that agree at those two indices get
    the same handle, the none case included, whatever their first point
    and their points after index 2 are. *)
Theorem arrowHandleFromPoints_depends_on_1_2 (ps qs : list Vec2) :
  3 <= length ps ->
  3 <= length qs ->
  ps !! 1 = qs !! 1 ->
  ps !! 2 = qs !! 2 ->
  arrowHandleFromPoints arrowHandleWidth ps = arrowHandleFromPoints arrowHandleWidth qs.
Proof.
  intros Hps Hqs E1 E2.
  destruct (lookup_in_range ps 1) as [s Hs]; [lia |].
  destruct (lookup_in_range ps 2) as [e He]; [lia |].
  rewrite (arrowHandleFromPoints_long ps s e Hs He).
  rewrite E1 in Hs. rewrite E2 in He.
  rewrite (arrowHandleFromPoints_long qs s e Hs He).
  reflexivity.
Qed.

End HandleFacts.

(** ** The handle over the real numbers *)

Section RealHandle.
Import RealGeometry.
Open Scope R_scope.

Variable arrowHandleWidth : R.

Lemma RVec2_eq (a b : RVec2) : x a = x b -> y a = y b -> a = b.
Proof. destruct a, b. simpl. intros -> ->. reflexivity. Qed.

Lemma sum_squares_nonneg (a b : R) : 0 <= a * a + b * b.
Proof. nra. Qed.

Lemma vlength_square (a : RVec2) : vlength a * vlength a = x a * x a + y a * y a.
Proof. unfold vlength. apply sqrt_sqrt, sum_squares_nonneg. Qed.

Lemma vlength_zero_iff (a : RVec2) : vlength a = 0 <-> a = zero.
Proof.
  split.
  - intros H. apply sqrt_eq_0 in H; [| apply sum_squares_nonneg].
    apply RVec2_eq; simpl; nra.
  - intros ->. unfold vlength, zero. simpl.
    replace (0 * 0 + 0 * 0) with 0 by ring. apply sqrt_0.
Qed.

Lemma vsub_zero_iff (a b : RVec2) : vsub b a = zero <-> a = b.
Proof.
  split.
  - intros H. apply RVec2_eq.
    + apply (f_equal x) in H. simpl in H. lra.
    + apply (f_equal y) in H. simpl in H. lra.
  - intros ->. apply RVec2_eq; simpl; ring.
Qed.

(** The direction of a non-zero vector is the vector over its length. *)
Lemma vnormalize_nonzero (a : RVec2) :
  a <> zero -> vnormalize a = vmul a (/ vlength a).
Proof.
  intros Ha. unfold vnormalize.
  destruct (decide (vlength a = 0)) as [H0 | _]; [| reflexivity].
  apply vlength_zero_iff in H0. contradiction.
Qed.

Lemma vnormalize_zero_iff (a : RVec2) : vnormalize a = zero <-> a = zero.
Proof.
  split.
  - intros H. destruct (decide (a = zero)) as [Ha | Ha]; [exact Ha |].
    rewrite (vnormalize_nonzero a Ha) in H.
    assert (Hl : vlength a <> 0) by (rewrite vlength_zero_iff; exact Ha).
    assert (Hi : / vlength a <> 0) by (apply Rinv_neq_0_compat, Hl).
    apply RVec2_eq; simpl.
    + apply (f_equal x) in H. simpl in H.
      apply Rmult_integral in H as [H | H]; [exact H | contradiction].
    + apply (f_equal y) in H. simpl in H.
      apply Rmult_integral in H as [H | H]; [exact H | contradiction].
  - intros ->. unfold vnormalize.
    destruct (decide (vlength zero = 0)) as [_ | H0]; [reflexivity |].
    destruct H0. apply vlength_zero_iff. reflexivity.
Qed.

Lemma vnormalize_unit (a : RVec2) :
  a <> zero ->
  x (vnormalize a) * x (vnormalize a) + y (vnormalize a) * y (vnormalize a) = 1.
Proof.
  intros Ha. rewrite (vnormalize_nonzero a Ha). simpl.
  assert (Hl : vlength a <> 0) by (rewrite vlength_zero_iff; exact Ha).
  pose proof (vlength_square a) as Hsq.
  replace (x a * / vlength a * (x a * / vlength a)
           + y a * / vlength a * (y a * / vlength a))
    with ((x a * x a + y a * y a) * (/ vlength a * / vlength a)) by ring.
  rewrite <- Hsq. field. exact Hl.
Qed.

Lemma visZero_direction (start end_ : RVec2) :
  visZero (vnormalize (vsub end_ start)) = true <-> start = end_.
Proof.
  unfold visZero. rewrite bool_decide_eq_true.
  rewrite vnormalize_zero_iff. apply vsub_zero_iff.
Qed.

(** The handle of a path whose second and third points differ. *)
Lemma arrowHandleFromPoints_real (points : list RVec2) (start end_ : RVec2) :
  points !! 1%nat = Some start ->
  points !! 2%nat = Some end_ ->
  start <> end_ ->
  arrowHandleFromPoints arrowHandleWidth points
  = Some (vsub (vlinterp start end_ (1 / 2))
            (vmul (vnormalize (vsub end_ start)) (arrowHandleWidth / 2)),
          vadd (vlinterp start end_ (1 / 2))
            (vmul (vnormalize (vsub end_ start)) (arrowHandleWidth / 2))).
Proof.
  intros H1 H2 Hne.
  rewrite (arrowHandleFromPoints_long (ops := real_ops)
             arrowHandleWidth points start end_ H1 H2).
  change (@isZero real_ops (@normalize real_ops (@sub real_ops end_ start)))
    with (visZero (vnormalize (vsub end_ start))).
  destruct (visZero (vnormalize (vsub end_ start))) eqn:Hz; [| reflexivity].
  apply visZero_direction in Hz. contradiction.
Qed.

Lemma vlength_unit (a : RVec2) :
  x a * x a + y a * y a = 1 -> vlength a = 1.
Proof. intros H. unfold vlength. rewrite H. apply sqrt_1. Qed.

Lemma vlength_vmul_unit (a : RVec2) (k : R) :
  x a * x a + y a * y a = 1 -> vlength (vmul a k) = Rabs k.
Proof.
  intros H. unfold vlength. simpl.
  replace (x a * k * (x a * k) + y a * k * (y a * k))
    with ((x a * x a + y a * y a) * (k * k)) by ring.
  rewrite H, Rmult_1_l. apply sqrt_Rsqr_abs.
Qed.

(** C2: for every handle width [W], a path with [points[1] = (0, 0)] and
    [points[2] = (10, 0)] gets the handle from [(5 - W/2, 0)] to
    [(5 + W/2, 0)]; and a path whose [points[1]] and [points[2]] exist and
    differ gets a handle whose middle is the midpoint of the two points,
    whose end minus its start is [W] times the unit vector from
    [points[1]] to [points[2]], and whose length is therefore [|W|], that
    is [W] for a width that is not negative. *)
Theorem arrowHandle_centered_segment (points : list RVec2) :
  (points !! 1%nat = Some {| x := 0; y := 0 |} ->
   points !! 2%nat = Some {| x := 10; y := 0 |} ->
   arrowHandleFromPoints arrowHandleWidth points
   = Some ({| x := 5 - arrowHandleWidth / 2; y := 0 |},
           {| x := 5 + arrowHandleWidth / 2; y := 0 |})) /\
  (forall start end_ : RVec2,
     points !! 1%nat = Some start ->
     points !! 2%nat = Some end_ ->
     start <> end_ ->
     exists handleFrom handleTo : RVec2,
       arrowHandleFromPoints arrowHandleWidth points = Some (handleFrom, handleTo) /\
       let mid := {| x := (x start + x end_) / 2; y := (y start + y end_) / 2 |} in
       let unit := vmul (vsub end_ start) (/ distance start end_) in
       vlength unit = 1 /\
       vlinterp handleFrom handleTo (1 / 2) = mid /\
       vsub handleTo handleFrom = vmul unit arrowHandleWidth /\
       distance handleFrom handleTo = Rabs arrowHandleWidth /\
       (0 <= arrowHandleWidth -> distance handleFrom handleTo = arrowHandleWidth)).
Proof.
  split.
  - intros H1 H2.
    assert (Hne : {| x := 0; y := 0 |} <> {| x := 10; y := 0 |}).
    { intros E. apply (f_equal x) in E. simpl in E. lra. }
    rewrite (arrowHandleFromPoints_real points _ _ H1 H2 Hne).
    assert (Hd : vsub {| x := 10; y := 0 |} {| x := 0; y := 0 |} <> zero).
    { rewrite vsub_zero_iff. exact Hne. }
    rewrite (vnormalize_nonzero _ Hd).
    assert (Hl : vlength (vsub {| x := 10; y := 0 |} {| x := 0; y := 0 |}) = 10).
    { unfold vlength. simpl.
      replace ((10 - 0) * (10 - 0) + (0 - 0) * (0 - 0)) with (10 * 10) by ring.
      apply sqrt_square. lra. }
    rewrite Hl. f_equal. f_equal; apply RVec2_eq; simpl; field.
  - intros start end_ H1 H2 Hne.
    rewrite (arrowHandleFromPoints_real points _ _ H1 H2 Hne).
    eexists _, _. split; [reflexivity |].
    assert (Hd : vsub end_ start <> zero) by (rewrite vsub_zero_iff; exact Hne).
    pose proof (vnormalize_unit _ Hd) as Hunit.
    unfold distance. rewrite <- (vnormalize_nonzero _ Hd).
    set (u := vnormalize (vsub end_ start)) in *.
    assert (Hsub : vsub (vadd (vlinterp start end_ (1 / 2)) (vmul u (arrowHandleWidth / 2)))
                     (vsub (vlinterp start end_ (1 / 2)) (vmul u (arrowHandleWidth / 2)))
                   = vmul u arrowHandleWidth).
    { apply RVec2_eq; simpl; field. }
    assert (Hlen : vlength (vmul u arrowHandleWidth) = Rabs arrowHandleWidth).
    { apply vlength_vmul_unit, Hunit. }
    simpl. repeat split.
    + apply vlength_unit, Hunit.
    + apply RVec2_eq; simpl; field.
    + exact Hsub.
    + rewrite Hsub. exact Hlen.
    + intros HW. rewrite Hsub, Hlen. apply Rabs_right. lra.
Qed.

(** C3: the handle is none exactly for a degenerate path. A path of fewer
    than three points has none; a path of three points or more whose
    [points[1]] and [points[2]] are equal has none; every other path has a
    handle. *)
Theorem arrowHandle_none_iff_degenerate (points : list RVec2) :
  (length points < 3 ->
   arrowHandleFromPoints arrowHandleWidth points = None)%nat /\
  (3 <= length points -> points !! 1%nat = points !! 2%nat ->
   arrowHandleFromPoints arrowHandleWidth points = None)%nat /\
  (3 <= length points -> points !! 1%nat <> points !! 2%nat ->
   is_Some (arrowHandleFromPoints arrowHandleWidth points))%nat /\
  (arrowHandleFromPoints arrowHandleWidth points = None <->
   (length points < 3 \/ points !! 1%nat = points !! 2%nat)%nat).
Proof.
  assert (Hshort : (length points < 3)%nat ->
                   arrowHandleFromPoints arrowHandleWidth points = None).
  { apply (arrowHandleFromPoints_short (ops := real_ops)). }
  assert (Heq : (3 <= length points)%nat -> points !! 1%nat = points !! 2%nat ->
                arrowHandleFromPoints arrowHandleWidth points = None).
  { intros Hlen E.
    destruct (lookup_in_range points 1) as [s Hs]; [lia |].
    destruct (lookup_in_range points 2) as [e He]; [lia |].
    rewrite (arrowHandleFromPoints_long (ops := real_ops) _ points s e Hs He).
    assert (s = e) as <- by congruence.
    change (@isZero real_ops (@normalize real_ops (@sub real_ops s s)))
      with (visZero (vnormalize (vsub s s))).
    rewrite (proj2 (visZero_direction s s) eq_refl). reflexivity. }
  assert (Hneq : (3 <= length points)%nat -> points !! 1%nat <> points !! 2%nat ->
                 is_Some (arrowHandleFromPoints arrowHandleWidth points)).
  { intros Hlen Hne.
    destruct (lookup_in_range points 1) as [s Hs]; [lia |].
    destruct (lookup_in_range points 2) as [e He]; [lia |].
    rewrite (arrowHandleFromPoints_real points s e Hs He); [eauto |].
    congruence. }
  repeat split; try assumption.
  - intros Hnone. destruct (Nat.lt_ge_cases (length points) 3) as [Hlt | Hge];
      [left; exact Hlt | right].
    destruct (decide (points !! 1%nat = points !! 2%nat)) as [E | Hne]; [exact E |].
    destruct (Hneq Hge Hne) as [h Hh]. congruence.
  - intros [Hlt | E]; [exact (Hshort Hlt) |].
    destruct (Nat.lt_ge_cases (length points) 3) as [Hlt | Hge]; auto.
Qed.

End RealHandle.

(** ** AccessPoint *)

Section AccessPointFacts.
Context {IPProtocol : Type} `{EqDecision IPProtocol}.
Context {L7Kind : Type} `{EqDecision L7Kind}.
Variables ICMPv4 ICMPv6 : IPProtocol.
Variable Unknown : L7Kind.
Variable truthy : L7Kind -> bool.

Abbreviation AccessPointProps := (@AccessPointProps IPProtocol L7Kind).
Abbreviation DataChild := (@DataChild IPProtocol L7Kind).
Abbreviation dataChildren := (dataChildren ICMPv4 ICMPv6 Unknown truthy).

Lemma showPort_true (props : AccessPointProps) :
  showPort ICMPv4 ICMPv6 props = true <->
  l4Protocol props <> ICMPv4 /\ l4Protocol props <> ICMPv6.
Proof.
  unfold showPort. rewrite andb_true_iff, !bool_decide_eq_true. reflexivity.
Qed.


(** The port element can only come from the first group of children and
    the L7 label only from the last. *)
Lemma port_in_children (props : AccessPointProps) (p : Z) :
  (PortElement p : DataChild) ∈ dataChildren props <->
  showPort ICMPv4 ICMPv6 props = true /\ p = port props.
Proof.
  unfold dataChildren. rewrite !elem_of_app. split.
  - intros [Hin | [Hin | Hin]].
    + destruct (showPort ICMPv4 ICMPv6 props); [| inversion Hin].
      apply elem_of_cons in Hin as [E | Hin]; [injection E as ->; auto |].
      apply list_elem_of_singleton in Hin. discriminate Hin.
    + apply list_elem_of_singleton in Hin. discriminate Hin.
    + destruct (l7Protocol props) as [k |]; [| inversion Hin].
      destruct (truthy k).
      * destruct (showL7Protocol Unknown props); [| inversion Hin].
        apply elem_of_cons in Hin as [E | Hin]; [discriminate E |].
        apply list_elem_of_singleton in Hin. discriminate Hin.
      * apply list_elem_of_singleton in Hin. discriminate Hin.
  - intros [Hshow ->]. left. rewrite Hshow. left.
Qed.


(** C6: for every props, the port element is among the rendered children
    if and only if the L4 protocol is neither ICMPv4 nor ICMPv6; that is,
    it is absent if and only if the L4 protocol is ICMPv4 or ICMPv6. The
    element rendered is the one of [props.port]. *)
Theorem port_rendered_iff_not_icmp (props : AccessPointProps) :
  ((PortElement (port props) : DataChild) ∈ dataChildren props <->
   l4Protocol props <> ICMPv4 /\ l4Protocol props <> ICMPv6) /\
  ((exists p, (PortElement p : DataChild) ∈ dataChildren props) <->
   l4Protocol props <> ICMPv4 /\ l4Protocol props <> ICMPv6) /\
  ((forall p, (PortElement p : DataChild) ∉ dataChildren props) <->
   l4Protocol props = ICMPv4 \/ l4Protocol props = ICMPv6).
Proof.
  split; [| split].
  - rewrite port_in_children, showPort_true. tauto.
  - rewrite <- showPort_true. split.
    + intros [p Hp]. apply port_in_children in Hp. tauto.
    + intros Hshow. exists (port props). apply port_in_children. auto.
  - split.
    + intros Hnone.
      destruct (decide (l4Protocol props = ICMPv4)) as [E4 | N4]; [auto |].
      destruct (decide (l4Protocol props = ICMPv6)) as [E6 | N6]; [auto |].
      destruct (Hnone (port props)).
      apply port_in_children. rewrite showPort_true. auto.
    + intros Hicmp p Hp. apply port_in_children in Hp as [Hshow _].
      apply showPort_true in Hshow. tauto.
Qed.


End AccessPointFacts.

(** ** More on the flatten loop *)

Section FlattenMore.
Context {ops : Vec2Ops}.
Variable arrowHandleWidth : num.

(** The number of (sender, receiver) pairs the loops visit. *)
Lemma flattenedPairs_length (m : JsMap SenderArrows) :
  length (flattenedPairs m) = sum_list_with (fun s => length (sa_arrows s.2)) m.
Proof.
  unfold flattenedPairs. induction m as [| s m IH]; [reflexivity |].
  rewrite bind_cons_app, length_app, length_fmap, IH. reflexivity.
Qed.

(** X1: the array [arrowHandles], declared beside the four collections,
    is never pushed to: it is empty after the loop for every props. *)
Theorem flatten_never_fills_arrowHandles (props : Props) :
  arrowHandles (flatten arrowHandleWidth props) = [].
Proof.
  rewrite flatten_concat, (field_Flat_concat arrowHandles) by reflexivity.
  induction (arrows props) as [| s m IH]; [reflexivity |].
  rewrite bind_cons_app, IH, app_nil_r.
  unfold senderDelta. simpl.
  rewrite (field_Flat_concat arrowHandles) by reflexivity.
  apply bind_nils.
Qed.

(** X2: the start-plates are the senders of the map, in the order of the
    map, each at its start point: one per sender, whether or not the
    sender has receivers. *)
Theorem flatten_one_startPlate_per_sender (props : Props) :
  startPlates (flatten arrowHandleWidth props)
  = (fun s => (s.1, startPoint s.2)) <$> arrows props /\
  length (startPlates (flatten arrowHandleWidth props)) = length (arrows props).
Proof.
  rewrite flatten_startPlates, length_fmap. split; reflexivity.
Qed.

(** X3: the arrows and the connectors have the same keys in the same
    order, and there are as many of each as the senders have receivers in
    total. *)
Theorem flatten_arrows_connectors_aligned (props : Props) :
  (flat_arrows (flatten arrowHandleWidth props)).*1
  = (connectors (flatten arrowHandleWidth props)).*1 /\
  length (flat_arrows (flatten arrowHandleWidth props))
  = sum_list_with (fun s => length (sa_arrows s.2)) (arrows props) /\
  length (connectors (flatten arrowHandleWidth props))
  = sum_list_with (fun s => length (sa_arrows s.2)) (arrows props).
Proof.
  rewrite flat_arrows_keys, connectors_keys.
  rewrite flatten_arrows, flatten_connectors, !length_fmap, flattenedPairs_length.
  repeat split.
Qed.

(** X4: a feet entry is in the collection if and only if it is the entry
    of an access-point id that some connector of the props fans out to and
    that has a position; its segment starts at that connector and ends at
    that position. No entry is made up for an id without a position. *)
Theorem flatten_feets_iff (props : Props) (e : string * (Vec2 * Vec2)) :
  e ∈ feets (flatten arrowHandleWidth props) <->
  exists s sa r ca a p,
    (s, sa) ∈ arrows props /\
    (r, ca) ∈ sa_arrows sa /\
    a ∈ apIds (connector ca) /\
    apPositions props !! a = Some p /\
    e = (feetId_of (fromToId_of s r) a, (position (connector ca), p)).
Proof.
  rewrite flatten_feets, list_elem_of_bind. split.
  - intros ([[s sa] [r ca]] & He & [Hs Hr]%elem_of_flattenedPairs).
    simpl in *. apply elem_of_feetsOf in He as (a & p & Ha & Hp & ->).
    exists s, sa, r, ca, a, p. auto.
  - intros (s & sa & r & ca & a & p & Hs & Hr & Ha & Hp & ->).
    exists ((s, sa), (r, ca)). split.
    + simpl. apply elem_of_feetsOf. exists a, p. auto.
    + apply elem_of_flattenedPairs. auto.
Qed.

(** X5: every arrow entry belongs to a sender and one of its receivers:
    its key is theirs, its path is the sender's start point followed by
    the receiver's waypoints, so it is never empty, and its handle is the
    one computed from its own path, which is none when the receiver has
    fewer than two waypoints. *)
Theorem flatten_arrow_entries (props : Props) (e : Arrow) :
  e ∈ flat_arrows (flatten arrowHandleWidth props) ->
  (exists s sa r ca,
     (s, sa) ∈ arrows props /\ (r, ca) ∈ sa_arrows sa /\
     e.1 = fromToId_of s r /\
     points e.2 = startPoint sa :: ca_points ca) /\
  handle e.2 = arrowHandleFromPoints arrowHandleWidth (points e.2) /\
  (length (points e.2) < 3 -> handle e.2 = None).
Proof.
  rewrite flatten_arrows. intros (p & -> & Hp)%list_elem_of_fmap.
  apply elem_of_flattenedPairs in Hp as [Hs Hr].
  destruct p as [[s sa] [r ca]]. simpl in *. split; [| split].
  - exists s, sa, r, ca. auto.
  - reflexivity.
  - intros Hlen.
    apply (arrowHandleFromPoints_short arrowHandleWidth
             (startPoint sa :: ca_points ca)).
    exact Hlen.
Qed.

(** X6: the start-plates, the arrows and the connectors do not depend on
    the positions of the access points: two props with the same arrows
    map differ in their feet only. *)
Theorem flatten_apPositions_only_feets (props1 props2 : Props) :
  arrows props1 = arrows props2 ->
  startPlates (flatten arrowHandleWidth props1)
  = startPlates (flatten arrowHandleWidth props2) /\
  flat_arrows (flatten arrowHandleWidth props1)
  = flat_arrows (flatten arrowHandleWidth props2) /\
  connectors (flatten arrowHandleWidth props1)
  = connectors (flatten arrowHandleWidth props2).
Proof.
  intros E. rewrite !flatten_startPlates, !flatten_arrows, !flatten_connectors, E.
  repeat split.
Qed.

Lemma feetsOf_sublist (ap1 ap2 : gmap string Vec2) (id : string) (cp : Vec2)
    (ids : list string) :
  ap1 ⊆ ap2 -> feetsOf ap1 id cp ids `sublist_of` feetsOf ap2 id cp ids.
Proof.
  intros Hsub. induction ids as [| a ids IH]; [constructor |].
  rewrite (feetsOf_cons ap1), (feetsOf_cons ap2).
  apply sublist_app; [| exact IH].
  unfold feetsOf. simpl. destruct (ap1 !! a) as [p |] eqn:H1; simpl.
  - rewrite (lookup_weaken _ _ _ _ H1 Hsub). reflexivity.
  - apply sublist_nil_l.
Qed.

Lemma bind_sublist {A B : Type} (f g : A -> list B) (l : list A) :
  (forall x, f x `sublist_of` g x) -> (l ≫= f) `sublist_of` (l ≫= g).
Proof.
  intros Hfg. induction l as [| x l IH]; [constructor |].
  rewrite !bind_cons_app. apply sublist_app; auto.
Qed.

(** X7: positions only add feet. With the same arrows map, the feet for
    a map of positions are, in order, among the feet for any larger map of
    positions; and without any position there are no feet. *)
Theorem flatten_feets_grow_with_positions (props1 props2 : Props) :
  arrows props1 = arrows props2 ->
  (apPositions props1 ⊆ apPositions props2 ->
   feets (flatten arrowHandleWidth props1)
     `sublist_of` feets (flatten arrowHandleWidth props2)) /\
  (apPositions props1 = ∅ -> feets (flatten arrowHandleWidth props1) = []).
Proof.
  intros E. split.
  - intros Hsub. rewrite !flatten_feets, E. apply bind_sublist.
    intros p. apply feetsOf_sublist, Hsub.
  - intros Hempty. rewrite flatten_feets, Hempty.
    rewrite <- (bind_nils (flattenedPairs (arrows props1))).
    apply list_bind_ext; [| reflexivity].
    intros p. generalize (apIds (connector p.2.2)). intros ids.
    induction ids as [| a ids IH]; [reflexivity |].
    rewrite feetsOf_cons, IH. unfold feetsOf. simpl.
    rewrite lookup_empty. reflexivity.
Qed.

(** X8: senders contribute independently and in order: the flatten of a
    map that is one map followed by another is the flatten of the first
    with the flatten of the second appended, collection by collection. *)
Theorem flatten_app (m1 m2 : JsMap SenderArrows) (ap : gmap string Vec2) :
  flatten arrowHandleWidth {| arrows := m1 ++ m2; apPositions := ap |}
  = Flat_app (flatten arrowHandleWidth {| arrows := m1; apPositions := ap |})
             (flatten arrowHandleWidth {| arrows := m2; apPositions := ap |}).
Proof.
  rewrite !flatten_concat. simpl. rewrite fmap_app.
  generalize (senderDelta arrowHandleWidth ap <$> m1) as d1.
  generalize (senderDelta arrowHandleWidth ap <$> m2) as d2.
  intros d2 d1. induction d1 as [| d d1 IH].
  - symmetry. apply Flat_app_empty_l.
  - change ((d :: d1) ++ d2) with (d :: (d1 ++ d2)).
    rewrite !Flat_concat_cons, Flat_app_assoc, <- IH. reflexivity.
Qed.

Lemma feetsOf_length (ap : gmap string Vec2) (id : string) (cp : Vec2)
    (ids : list string) :
  length (feetsOf ap id cp ids) = length (filter (fun a => is_Some (ap !! a)) ids).
Proof.
  rewrite <- (length_fmap fst), feetsOf_keys, length_fmap. reflexivity.
Qed.

Lemma filter_all {A : Type} (P : A -> Prop) `{forall x, Decision (P x)}
    (l : list A) :
  (forall x, x ∈ l -> P x) -> filter P l = l.
Proof.
  induction l as [| x l IH]; intros Hall; [reflexivity |].
  rewrite filter_cons. destruct (decide (P x)) as [_ | Hx].
  - f_equal. apply IH. intros y Hy. apply Hall. right. exact Hy.
  - destruct Hx. apply Hall. left.
Qed.

Lemma flattenedPairs_sum (g : ConnectorArrow -> nat) (m : JsMap SenderArrows) :
  sum_list_with (fun p => g p.2.2) (flattenedPairs m)
  = sum_list_with (fun s => sum_list_with (fun r => g r.2) (sa_arrows s.2)) m.
Proof.
  unfold flattenedPairs. induction m as [| s m IH]; [reflexivity |].
  rewrite bind_cons_app, sum_list_with_app, IH. simpl. f_equal.
  generalize (sa_arrows s.2). intros l.
  induction l as [| r l IHl]; [reflexivity |].
  rewrite fmap_cons. simpl. f_equal. exact IHl.
Qed.

(** X9: there are at most as many feet as the connectors have
    access-point ids in total, and exactly as many when every one of
    those ids has a position. *)
Theorem flatten_feets_count (props : Props) :
  let fanOut :=
    sum_list_with
      (fun s => sum_list_with (fun r => length (apIds (connector r.2)))
                  (sa_arrows s.2))
      (arrows props) in
  length (feets (flatten arrowHandleWidth props)) <= fanOut /\
  ((forall s sa r ca a,
      (s, sa) ∈ arrows props -> (r, ca) ∈ sa_arrows sa ->
      a ∈ apIds (connector ca) -> is_Some (apPositions props !! a)) ->
   length (feets (flatten arrowHandleWidth props)) = fanOut).
Proof.
  intros fanOut. unfold fanOut.
  rewrite <- (flattenedPairs_sum (fun ca => length (apIds (connector ca)))).
  rewrite flatten_feets. split.
  - induction (flattenedPairs (arrows props)) as [| p l IH]; [reflexivity |].
    rewrite bind_cons_app, length_app, feetsOf_length. simpl.
    pose proof (length_filter (fun a => is_Some (apPositions props !! a))
                  (apIds (connector p.2.2))).
    lia.
  - intros Hall.
    assert (Hl : forall p, p ∈ flattenedPairs (arrows props) ->
                 forall a, a ∈ apIds (connector p.2.2) ->
                 is_Some (apPositions props !! a)).
    { intros [[s sa] [r ca]] [Hs Hr]%elem_of_flattenedPairs a Ha.
      exact (Hall s sa r ca a Hs Hr Ha). }
    induction (flattenedPairs (arrows props)) as [| p l IH]; [reflexivity |].
    rewrite bind_cons_app, length_app, feetsOf_length. simpl.
    rewrite IH by (intros q Hq; apply Hl; right; exact Hq).
    rewrite filter_all; [reflexivity |].
    intros a Ha. apply (Hl p); [left | exact Ha].
Qed.

End FlattenMore.

(** ** More on the handle over the real numbers *)

Section RealHandleMore.
Import RealGeometry.
Open Scope R_scope.

Variable arrowHandleWidth : R.

Lemma arrowHandleFromPoints_real_same (points : list RVec2) (p : RVec2) :
  points !! 1%nat = Some p ->
  points !! 2%nat = Some p ->
  arrowHandleFromPoints arrowHandleWidth points = None.
Proof.
  intros H1 H2.
  rewrite (arrowHandleFromPoints_long (ops := real_ops)
             arrowHandleWidth points p p H1 H2).
  change (@isZero real_ops (@normalize real_ops (@sub real_ops p p)))
    with (visZero (vnormalize (vsub p p))).
  rewrite (proj2 (visZero_direction p p) eq_refl). reflexivity.
Qed.

Lemma vsub_translated (a b v : RVec2) : vsub (vadd b v) (vadd a v) = vsub b a.
Proof. apply RVec2_eq; simpl; ring. Qed.

Lemma vadd_cancel (a b v : RVec2) : vadd a v = vadd b v -> a = b.
Proof.
  intros E. apply RVec2_eq.
  - apply (f_equal x) in E. simpl in E. lra.
  - apply (f_equal y) in E. simpl in E. lra.
Qed.

(** X10: the handle moves with the path. Translating every point of a
    path by a vector translates both ends of its handle by that vector,
    and a path without a handle stays without one. *)
Theorem arrowHandle_translation (v : RVec2) (points : list RVec2) :
  arrowHandleFromPoints arrowHandleWidth ((fun p => vadd p v) <$> points)
  = (fun h => (vadd h.1 v, vadd h.2 v))
      <$> arrowHandleFromPoints arrowHandleWidth points.
Proof.
  destruct (Nat.lt_ge_cases (length points) 3) as [Hlt | Hge].
  - rewrite (arrowHandleFromPoints_short (ops := real_ops) _ points Hlt).
    apply (arrowHandleFromPoints_short (ops := real_ops)).
    rewrite length_fmap. exact Hlt.
  - destruct (lookup_in_range points 1) as [s Hs]; [lia |].
    destruct (lookup_in_range points 2) as [e He]; [lia |].
    assert (Hs' : ((fun p => vadd p v) <$> points) !! 1%nat = Some (vadd s v))
      by (rewrite list_lookup_fmap, Hs; reflexivity).
    assert (He' : ((fun p => vadd p v) <$> points) !! 2%nat = Some (vadd e v))
      by (rewrite list_lookup_fmap, He; reflexivity).
    destruct (decide (s = e)) as [<- | Hne].
    + rewrite (arrowHandleFromPoints_real_same points s Hs He).
      apply (arrowHandleFromPoints_real_same _ (vadd s v) Hs' He').
    + rewrite (arrowHandleFromPoints_real arrowHandleWidth points s e Hs He Hne).
      rewrite (arrowHandleFromPoints_real arrowHandleWidth _ _ _ Hs' He').
      * rewrite vsub_translated. simpl. f_equal. f_equal; apply RVec2_eq; simpl; ring.
      * intros E. apply Hne. exact (vadd_cancel s e v E).
Qed.

Lemma vlength_opposite (a b : RVec2) : vlength (vsub a b) = vlength (vsub b a).
Proof. unfold vlength. simpl. f_equal. ring. Qed.

Lemma vnormalize_opposite (a b : RVec2) :
  a <> b -> vnormalize (vsub a b) = vmul (vnormalize (vsub b a)) (-1).
Proof.
  intros Hne.
  assert (H1 : vsub a b <> zero) by (rewrite vsub_zero_iff; congruence).
  assert (H2 : vsub b a <> zero) by (rewrite vsub_zero_iff; exact Hne).
  rewrite (vnormalize_nonzero _ H1), (vnormalize_nonzero _ H2), vlength_opposite.
  apply RVec2_eq; simpl; ring.
Qed.

(** X11: the handle turns with the direction. A path whose points at
    indices 1 and 2 are those of another path in the opposite order gets
    the handle of the other path with its two ends exchanged. *)
Theorem arrowHandle_reversal (ps qs : list RVec2) (a b : RVec2) :
  ps !! 1%nat = Some a ->
  ps !! 2%nat = Some b ->
  qs !! 1%nat = Some b ->
  qs !! 2%nat = Some a ->
  arrowHandleFromPoints arrowHandleWidth qs
  = (fun h => (h.2, h.1)) <$> arrowHandleFromPoints arrowHandleWidth ps.
Proof.
  intros Hp1 Hp2 Hq1 Hq2. destruct (decide (a = b)) as [<- | Hne].
  - rewrite (arrowHandleFromPoints_real_same ps a Hp1 Hp2).
    apply (arrowHandleFromPoints_real_same qs a Hq1 Hq2).
  - rewrite (arrowHandleFromPoints_real arrowHandleWidth ps a b Hp1 Hp2 Hne).
    rewrite (arrowHandleFromPoints_real arrowHandleWidth qs b a Hq1 Hq2)
      by congruence.
    rewrite (vnormalize_opposite a b Hne). simpl.
    f_equal. f_equal; apply RVec2_eq; simpl; field.
Qed.

End RealHandleMore.

(** ** The layout of the badge *)

Section BadgeLayout.
Context {IPProtocol : Type} `{EqDecision IPProtocol}.
Context {L7Kind : Type} `{EqDecision L7Kind}.
Variables ICMPv4 ICMPv6 : IPProtocol.
Variable Unknown : L7Kind.
Variable truthy : L7Kind -> bool.

(** X12: for every props the badge has exactly one L4 protocol element,
    at most one port element and at most one L7 label, and as many dot
    separators as it has port elements and L7 labels together: each of
    the two optional parts brings its own dot. *)
Theorem badge_layout (props : @AccessPointProps IPProtocol L7Kind) :
  let children := dataChildren ICMPv4 ICMPv6 Unknown truthy props in
  countChildren isL4ProtocolElement children = 1 /\
  countChildren isPortElement children <= 1 /\
  countChildren isL7ProtocolElement children <= 1 /\
  countChildren isDotElement children
  = countChildren isPortElement children + countChildren isL7ProtocolElement children.
Proof.
  unfold dataChildren, countChildren.
  destruct (showPort ICMPv4 ICMPv6 props);
    destruct (l7Protocol props) as [k |]; try destruct (truthy k);
    try destruct (showL7Protocol Unknown props);
    vm_compute; repeat split; lia.
Qed.

End BadgeLayout.

(** ** Updating a node that was entered *)

Section UpdateAfterEnter.
Context {ops : Vec2Ops}.
Variables Vec2_x Vec2_y : Vec2 -> num.
Variables num_sub num_mul : num -> num -> num.
Variable num_of_Z : Z -> num.
Variables num_10_87 num_11_61 : num.
Variable distance : Vec2 -> Vec2 -> num.
Variable Line2_normal : Vec2 -> Vec2 -> Vec2.
Variable roundCorner : num -> Vec2 -> Vec2 -> Vec2 -> Vec2 * Vec2.
Variables colors_connectorFill colors_arrowStroke : string.
Variables colors_arrowHandle colors_feetStroke : string.
Variables sizes_linkWidth sizes_feetWidth : num.

(** X13: updating the start-plate node entered for a datum with a datum
    of the same key gives the node that entering the new datum gives: the
    path is replaced, the fill, the stroke and the class stay. *)
Theorem startPlatesUpdate_after_enter (d d' : string * Vec2) :
  d.1 = d'.1 ->
  startPlatesUpdate Vec2_x Vec2_y num_sub num_mul num_of_Z d'
    (startPlatesEnter Vec2_x Vec2_y num_sub num_mul num_of_Z
       colors_connectorFill colors_arrowStroke sizes_linkWidth d)
  = startPlatesEnter Vec2_x Vec2_y num_sub num_mul num_of_Z
      colors_connectorFill colors_arrowStroke sizes_linkWidth d'.
Proof.
  intros E. unfold startPlatesUpdate, startPlatesEnter, select. rewrite E.
  vm_compute. reflexivity.
Qed.

(** X14: updating the arrow node entered for a datum with a datum of the
    same key gives the node that entering the new datum gives: both the
    line and the handle get their new path, each found by its class. *)
Theorem arrowsUpdate_after_enter (d d' : Arrow) :
  d.1 = d'.1 ->
  arrowsUpdate Vec2_x Vec2_y num_mul num_of_Z num_10_87 num_11_61
    distance Line2_normal roundCorner d'
    (arrowsEnter Vec2_x Vec2_y num_mul num_of_Z num_10_87 num_11_61
       distance Line2_normal roundCorner
       colors_arrowStroke colors_arrowHandle sizes_linkWidth d)
  = arrowsEnter Vec2_x Vec2_y num_mul num_of_Z num_10_87 num_11_61
      distance Line2_normal roundCorner
      colors_arrowStroke colors_arrowHandle sizes_linkWidth d'.
Proof.
  intros E. unfold arrowsUpdate, arrowsEnter, select. rewrite E.
  vm_compute. reflexivity.
Qed.

(** X15: updating the feet node entered for a datum with a datum of the
    same key gives the node that entering the new datum gives: the four
    coordinates of the line are replaced, its stroke stays. *)
Theorem feetsUpdate_after_enter (d d' : string * (Vec2 * Vec2)) :
  d.1 = d'.1 ->
  feetsUpdate Vec2_x Vec2_y d'
    (feetsEnter Vec2_x Vec2_y colors_feetStroke sizes_feetWidth d)
  = feetsEnter Vec2_x Vec2_y colors_feetStroke sizes_feetWidth d'.
Proof.
  intros E. unfold feetsUpdate, feetsEnter, feetsCoordinates, select. rewrite E.
  vm_compute. reflexivity.
Qed.

(** X16: updating the connector node entered for a datum with a datum of
    the same key gives the node that entering the new datum gives: the
    centre of the circle is replaced, its radius and colours stay. *)
Theorem connectorsUpdate_after_enter (d d' : string * Vec2) :
  d.1 = d'.1 ->
  connectorsUpdate Vec2_x Vec2_y d'
    (connectorsEnter Vec2_x Vec2_y colors_connectorFill colors_arrowStroke
       sizes_linkWidth d)
  = connectorsEnter Vec2_x Vec2_y colors_connectorFill colors_arrowStroke
      sizes_linkWidth d'.
Proof.
  intros E. unfold connectorsUpdate, connectorsEnter, select. rewrite E.
  vm_compute. reflexivity.
Qed.

End UpdateAfterEnter.

(** ** The outline of the start plate *)

Section StartPlateOutline.
Import RealGeometry.
Open Scope R_scope.

(** X17: the path of a start plate goes from 15 above the start point,
    7 to the right, round a corner of radius 3, 24 down, round a second
    corner and 7 back to the left, and closes: the plate is 10 wide and
    30 high, its left edge is at the x of the start point and its middle
    at the y of the start point, whatever the start point is. *)
Theorem startPlatePath_outline (key : string) (px py : R) :
  penTrace (realStartPlatePath (key, {| x := px; y := py |}))
  = [ (px, py - 15); (px + 7, py - 15); (px + 10, py - 12);
      (px + 10, py + 12); (px + 7, py + 15); (px, py + 15); (px, py - 15) ].
Proof.
  unfold penTrace, realStartPlatePath, startPlatePath. simpl.
  repeat (f_equal; try lra).
Qed.

End StartPlateOutline.

(** * Part III: the statements at the sample inputs *)

Section Instances.
Import RealGeometry Samples.

(** Decides a closed goal whose proposition has a [Decision] instance. *)
Ltac by_decision := apply (bool_decide_unpack _); vm_compute; exact I.

(** Well-formedness of sample props: every key list and every set is
    duplicate free. *)
Ltac solve_wf :=
  unfold Props_wf, SenderArrows_wf, Map_wf, Set_wf, Map_keys; simpl;
  repeat first [split | apply Forall_cons | apply Forall_nil]; simpl;
  by_decision.

Ltac solve_gt_free :=
  unfold ids_gt_free, senders_gt_free; simpl;
  repeat first [split | apply Forall_cons | apply Forall_nil]; reflexivity.

(** The flatten of the sample props, evaluated. *)
Example flatten_sampleProps :
  startPlates (flatten sampleWidth sampleProps) = [("S", pt (-5) 0)] /\
  (flat_arrows (flatten sampleWidth sampleProps)).*1 = ["S -> R"] /\
  connectors (flatten sampleWidth sampleProps) = [("S -> R", pt 20 5)] /\
  arrowHandles (flatten sampleWidth sampleProps) = [] /\
  feets (flatten sampleWidth sampleProps)
  = [("S -> R -> A", (pt 20 5, pt 30 9))].
Proof. repeat split; vm_compute; reflexivity. Qed.

(** The flatten of the richer sample props: its keys. *)
Example flatten_richProps :
  (startPlates (flatten sampleWidth richProps)).*1 = ["S1"; "S2"] /\
  (flat_arrows (flatten sampleWidth richProps)).*1
  = ["S1 -> R1"; "S1 -> R2"; "S2 -> R1"; "S2 -> R3"] /\
  (connectors (flatten sampleWidth richProps)).*1
  = ["S1 -> R1"; "S1 -> R2"; "S2 -> R1"; "S2 -> R3"] /\
  (feets (flatten sampleWidth richProps)).*1
  = ["S1 -> R1 -> A"; "S1 -> R1 -> B"; "S1 -> R2 -> C"; "S1 -> R2 -> D";
     "S2 -> R1 -> A"; "S2 -> R1 -> C"; "S2 -> R3 -> B"; "S2 -> R3 -> D"].
Proof. repeat split; vm_compute; reflexivity. Qed.

Lemma flatten_keys_unique_witness :
  Props_wf richProps /\ ids_gt_free richProps /\
  NoDup (startPlates (flatten sampleWidth richProps)).*1 /\
  NoDup (flat_arrows (flatten sampleWidth richProps)).*1 /\
  NoDup (connectors (flatten sampleWidth richProps)).*1 /\
  NoDup (feets (flatten sampleWidth richProps)).*1.
Proof.
  assert (Hwf : Props_wf richProps) by solve_wf.
  assert (Hfree : ids_gt_free richProps) by solve_gt_free.
  destruct (flatten_keys_unique (ops := real_ops) sampleWidth richProps Hwf) as [Hplates Hrest].
  destruct (Hrest Hfree) as (Harrows & Hconnectors & Hfeets).
  exact (conj Hwf (conj Hfree (conj Hplates (conj Harrows (conj Hconnectors Hfeets))))).
Defined.

(** C1 as stated fails: the two senders ["a"] and ["a -> b"] have distinct
    ids in a well-formed map, and the arrows, the connectors and the feet
    each get the same key twice. *)
Lemma flatten_keys_collide :
  Props_wf collidingProps /\
  (flat_arrows (flatten sampleWidth collidingProps)).*1
  = ["a -> b -> c"; "a -> b -> c"] /\
  (connectors (flatten sampleWidth collidingProps)).*1
  = ["a -> b -> c"; "a -> b -> c"] /\
  (feets (flatten sampleWidth collidingProps)).*1
  = ["a -> b -> c -> d"; "a -> b -> c -> d"] /\
  ~ NoDup (flat_arrows (flatten sampleWidth collidingProps)).*1.
Proof.
  split; [solve_wf |].
  assert (Hkeys : (flat_arrows (flatten sampleWidth collidingProps)).*1
                  = ["a -> b -> c"; "a -> b -> c"]) by (vm_compute; reflexivity).
  repeat split; try (vm_compute; reflexivity).
  rewrite Hkeys. intros Hnd. apply NoDup_cons in Hnd as [Hnotin _].
  apply Hnotin. left.
Qed.

Lemma flatten_feet_of_access_point_witness :
  filter (fun e => e.1 = "S -> R -> A") (feets (flatten sampleWidth sampleProps))
  = [("S -> R -> A", (pt 20 5, pt 30 9))] /\
  filter (fun e => e.1 = "S -> R -> B") (feets (flatten sampleWidth sampleProps))
  = [].
Proof.
  assert (Hwf : Props_wf sampleProps) by solve_wf.
  assert (HS : ("S", sampleSender) ∈ arrows sampleProps) by left.
  assert (HR : ("R", sampleConnectorArrow) ∈ sa_arrows sampleSender) by left.
  split.
  - assert (HA : "A" ∈ apIds (connector sampleConnectorArrow)) by left.
    assert (Hun : feetKey_unambiguous sampleProps "S" "R" "A").
    { apply gt_free_unambiguous; reflexivity. }
    destruct (flatten_feet_of_access_point (ops := real_ops) sampleWidth sampleProps "S" "R" "A"
                sampleSender sampleConnectorArrow Hwf HS HR HA Hun)
      as (_ & Hpresent & _).
    apply Hpresent. vm_compute. reflexivity.
  - assert (HB : "B" ∈ apIds (connector sampleConnectorArrow)) by (right; left).
    assert (Hun : feetKey_unambiguous sampleProps "S" "R" "B").
    { apply gt_free_unambiguous; reflexivity. }
    destruct (flatten_feet_of_access_point (ops := real_ops) sampleWidth sampleProps "S" "R" "B"
                sampleSender sampleConnectorArrow Hwf HS HR HB Hun)
      as (_ & _ & Habsent).
    apply Habsent. vm_compute. reflexivity.
Defined.

(** C4 as stated fails: sender ["a -> b"] maps to receiver ["c"] whose
    connector fans out to ["d"], which has a position, and the flatten
    produces two feet entries keyed ["a -> b -> c -> d"], the other one
    for sender ["a"] and receiver ["b -> c"]. *)
Lemma flatten_feet_key_shared :
  Props_wf collidingProps /\
  ("a -> b", senderAB) ∈ arrows collidingProps /\
  ("c", dottedConnectorArrow) ∈ sa_arrows senderAB /\
  "d" ∈ apIds (connector dottedConnectorArrow) /\
  apPositions collidingProps !! "d" = Some (pt 2 2) /\
  feetId_of (fromToId_of "a -> b" "c") "d" = "a -> b -> c -> d" /\
  filter (fun e => e.1 = "a -> b -> c -> d")
         (feets (flatten sampleWidth collidingProps))
  = [("a -> b -> c -> d", (pt 1 1, pt 2 2));
     ("a -> b -> c -> d", (pt 1 1, pt 2 2))] /\
  filter (fun e => e.1 = "a -> b -> c -> d")
         (feets (flatten sampleWidth collidingProps))
  <> [("a -> b -> c -> d", (pt 1 1, pt 2 2))].
Proof.
  split; [solve_wf |].
  split; [right; left |]. split; [left |]. split; [left |].
  split; [vm_compute; reflexivity |]. split; [vm_compute; reflexivity |].
  assert (Hkeyed : filter (fun e => e.1 = "a -> b -> c -> d")
                     (feets (flatten sampleWidth collidingProps))
                   = [("a -> b -> c -> d", (pt 1 1, pt 2 2));
                      ("a -> b -> c -> d", (pt 1 1, pt 2 2))])
    by (vm_compute; reflexivity).
  split; [exact Hkeyed |]. rewrite Hkeyed. discriminate.
Qed.

Lemma flatten_arrow_and_connector_witness :
  exists i : nat,
    flat_arrows (flatten sampleWidth sampleProps) !! i
    = Some ("S -> R",
            {| points := [pt (-5) 0; pt 0 0; pt 10 0; pt 20 5];
               handle := arrowHandleFromPoints sampleWidth
                           [pt (-5) 0; pt 0 0; pt 10 0; pt 20 5] |}) /\
    connectors (flatten sampleWidth sampleProps) !! i = Some ("S -> R", pt 20 5).
Proof.
  assert (HS : ("S", sampleSender) ∈ arrows sampleProps) by left.
  assert (HR : ("R", sampleConnectorArrow) ∈ sa_arrows sampleSender) by left.
  exact (flatten_arrow_and_connector (ops := real_ops) sampleWidth sampleProps "S" "R"
           sampleSender sampleConnectorArrow HS HR).
Defined.

Lemma arrowHandleFromPoints_depends_on_1_2_witness :
  arrowHandleFromPoints sampleWidth [pt (-5) 0; pt 0 0; pt 10 0]
  = arrowHandleFromPoints sampleWidth [pt 7 7; pt 0 0; pt 10 0; pt 20 5; pt 1 1].
Proof.
  apply (arrowHandleFromPoints_depends_on_1_2 (ops := real_ops)).
  - simpl. lia.
  - simpl. lia.
  - reflexivity.
  - reflexivity.
Defined.

Lemma arrowHandle_centered_segment_witness :
  arrowHandleFromPoints sampleWidth [pt (-5) 0; pt 0 0; pt 10 0; pt 20 5]
  = Some ({| x := 5 - sampleWidth / 2; y := 0 |},
          {| x := 5 + sampleWidth / 2; y := 0 |}) /\
  exists handleFrom handleTo : RVec2,
    arrowHandleFromPoints sampleWidth [pt 3 4; pt 1 1; pt 4 5]
    = Some (handleFrom, handleTo) /\
    vlinterp handleFrom handleTo (1 / 2) = {| x := (1 + 4) / 2; y := (1 + 5) / 2 |} /\
    distance handleFrom handleTo = sampleWidth.
Proof.
  split.
  - apply (proj1 (arrowHandle_centered_segment sampleWidth
                    [pt (-5) 0; pt 0 0; pt 10 0; pt 20 5])); reflexivity.
  - assert (Hne : pt 1 1 <> pt 4 5).
    { intros E. apply (f_equal x) in E. simpl in E. lra. }
    destruct (proj2 (arrowHandle_centered_segment sampleWidth
                       [pt 3 4; pt 1 1; pt 4 5])
                (pt 1 1) (pt 4 5) eq_refl eq_refl Hne)
      as (handleFrom & handleTo & Hh & _ & Hmid & _ & _ & Hlen).
    exists handleFrom, handleTo. split; [exact Hh |]. split; [exact Hmid |].
    apply Hlen. unfold sampleWidth. lra.
Defined.

Lemma arrowHandle_none_iff_degenerate_witness :
  arrowHandleFromPoints sampleWidth [pt 0 0; pt 10 0] = None /\
  arrowHandleFromPoints sampleWidth [pt 0 0; pt 10 0; pt 10 0; pt 3 3] = None /\
  is_Some (arrowHandleFromPoints sampleWidth [pt 0 0; pt 10 0; pt 10 1]).
Proof.
  split; [| split].
  - apply (proj1 (arrowHandle_none_iff_degenerate sampleWidth [pt 0 0; pt 10 0])).
    simpl. lia.
  - apply (proj1 (proj2 (arrowHandle_none_iff_degenerate sampleWidth
                           [pt 0 0; pt 10 0; pt 10 0; pt 3 3]))).
    + simpl. lia.
    + reflexivity.
  - apply (proj1 (proj2 (proj2 (arrowHandle_none_iff_degenerate sampleWidth
                                  [pt 0 0; pt 10 0; pt 10 1])))).
    + simpl. lia.
    + simpl. intros E. injection E as E. lra.
Defined.


(** A truthy [l7Protocol] that is not Unknown renders its label. *)
Example dataChildren_http :
  let truthy := fun k : string => negb (String.eqb k "") in
  dataChildren 3%Z 4%Z "unknown" truthy
    {| port := 80; l4Protocol := 1%Z; l7Protocol := Some "http" |}
  = [PortElement 80; DotElement; L4ProtocolElement 1%Z;
     DotElement; L7ProtocolElement "http"].
Proof. vm_compute. reflexivity. Qed.

(** With ICMPv4 the badge has no port element; with a falsy [l7Protocol]
    value that is not Unknown the guard [props.l7Protocol && ...] yields
    the value itself and not the label. *)
Example dataChildren_icmp_and_falsy :
  let truthy := fun k : string => negb (String.eqb k "") in
  dataChildren 3%Z 4%Z "unknown" truthy
    {| port := 0; l4Protocol := 3%Z; l7Protocol := None |}
  = [L4ProtocolElement 3%Z] /\
  dataChildren 3%Z 4%Z "unknown" truthy
    {| port := 53; l4Protocol := 2%Z; l7Protocol := Some "unknown" |}
  = [PortElement 53; DotElement; L4ProtocolElement 2%Z] /\
  dataChildren 3%Z 4%Z "unknown" truthy
    {| port := 53; l4Protocol := 2%Z; l7Protocol := Some "" |}
  = [PortElement 53; DotElement; L4ProtocolElement 2%Z; RawValue ""].
Proof. repeat split; vm_compute; reflexivity. Qed.

(** ** The passes at the sample inputs *)

(** The passes at the sample props, evaluated: the first pass enters
    every key, the second keeps them and has nothing in its exits. *)
Example renders_sampleProps :
  Outcome_map (fun g => (groupKeys "start-plates" g, groupKeys "arrows" g,
                         groupKeys "connectors" g, groupKeys "feets" g))
    (renders (ops := real_ops) sampleWidth [sampleProps; sampleProps])
  = Done (["S"], ["S -> R"], ["S -> R"], ["S -> R -> A"]).
Proof. vm_compute. reflexivity. Qed.

Example exits_sampleProps :
  Outcome_map (fun r => (exit_startPlates r, exit_arrows r,
                         exit_connectors r, exit_feets r))
    (Outcome_bind (renders (ops := real_ops) sampleWidth [sampleProps])
       (manageArrows sampleWidth sampleProps))
  = Done ([], [], [], []) /\
  Outcome_map (fun r => (exit_startPlates r, exit_arrows r,
                         exit_connectors r, exit_feets r))
    (Outcome_bind (renders (ops := real_ops) sampleWidth [sampleProps])
       (manageArrows sampleWidth (removeSender "S" sampleProps)))
  = Done (["S"], ["S -> R"], ["S -> R"], ["S -> R -> A"]).
Proof. split; vm_compute; reflexivity. Qed.

Lemma manageArrows_twice_same_keys_witness :
  Dom_wf (ops := real_ops) mountedDom /\
  keys_tokenSafe (ops := real_ops) sampleWidth richProps = true /\
  exists r1 r2,
    manageArrows (ops := real_ops) sampleWidth richProps mountedDom = Done r1 /\
    manageArrows (ops := real_ops) sampleWidth richProps (pass_doc r1) = Done r2 /\
    (forall k, k ∈ groupKeys "feets" (pass_doc r2) <->
               k ∈ groupKeys "feets" (pass_doc r1)) /\
    (forall k, k ∈ groupKeys "arrows" (pass_doc r2) <->
               k ∈ ["S1 -> R1"; "S1 -> R2"; "S2 -> R1"; "S2 -> R3"]).
Proof.
  assert (Hwf : Dom_wf (ops := real_ops) mountedDom) by apply mountedDom_wf.
  assert (Hsafe : keys_tokenSafe (ops := real_ops) sampleWidth richProps = true)
    by (vm_compute; reflexivity).
  destruct (manageArrows_twice_same_keys (ops := real_ops) sampleWidth richProps
              mountedDom Hwf Hsafe)
    as (g1 & g2 & E1 & E2 & _ & Harrows & _ & Hfeets).
  refine (conj Hwf (conj Hsafe _)). exists g1, g2.
  refine (conj E1 (conj E2 (conj (fun k => proj1 (Hfeets k)) _))).
  intros k. destruct (Harrows k) as [H21 H1].
  rewrite H21, H1. rewrite (proj1 (proj2 flatten_richProps)). reflexivity.
Defined.

(** C8 as stated fails: with a sender whose id is ["feets"], the arrow
    node of the first pass has [feets] among the tokens of its class and
    comes before the rendered feets group, so the second pass joins the
    feet into the arrow node. The rendered arrows group holds one key
    after the first pass and two after the second, on the same props. *)
Lemma manageArrows_twice_keys_differ :
  Outcome_map (groupKeys "arrows")
    (renders (ops := real_ops) sampleWidth [feetsNamedProps])
  = Done ["feets -> R"] /\
  Outcome_map (groupKeys "arrows")
    (renders (ops := real_ops) sampleWidth [feetsNamedProps; feetsNamedProps])
  = Done ["feets -> R"; "feets -> R -> A"].
Proof. split; vm_compute; reflexivity. Qed.

Lemma removed_sender_exits_witness :
  Dom_wf (ops := real_ops) mountedDom /\
  keys_tokenSafe (ops := real_ops) sampleWidth richProps = true /\
  ("S1", richSender1) ∈ arrows richProps /\
  senders_gt_free richProps /\
  exists r1 r2,
    manageArrows (ops := real_ops) sampleWidth richProps mountedDom = Done r1 /\
    manageArrows (ops := real_ops) sampleWidth (removeSender "S1" richProps) (pass_doc r1)
    = Done r2 /\
    "S1" ∈ exit_startPlates r2 /\
    ("S1" ∉ groupKeys "start-plates" (pass_doc r2)) /\
    "S1 -> R2" ∈ exit_arrows r2 /\
    ("S1 -> R2" ∉ groupKeys "arrows" (pass_doc r2)) /\
    "S1 -> R2 -> D" ∈ exit_feets r2 /\
    ("S1 -> R2 -> D" ∉ groupKeys "feets" (pass_doc r2)).
Proof.
  assert (Hwf : Dom_wf (ops := real_ops) mountedDom) by apply mountedDom_wf.
  assert (Hsafe : keys_tokenSafe (ops := real_ops) sampleWidth richProps = true)
    by (vm_compute; reflexivity).
  assert (Hs : ("S1", richSender1) ∈ arrows richProps) by left.
  assert (Hfree : senders_gt_free richProps) by solve_gt_free.
  destruct (removed_sender_exits (ops := real_ops) sampleWidth richProps mountedDom
              "S1" richSender1 Hwf Hsafe Hs)
    as (g1 & g2 & E1 & E2 & (_ & Hp1 & Hp2) & Hrest).
  destruct (Hrest Hfree) as (Harrows & _ & Hfeets).
  destruct (Harrows "S1 -> R2") as (_ & Ha1 & Ha2); [by_decision |].
  destruct (Hfeets "S1 -> R2 -> D") as (_ & Hf1 & Hf2); [by_decision |].
  refine (conj Hwf (conj Hsafe (conj Hs (conj Hfree _)))). exists g1, g2.
  exact (conj E1 (conj E2 (conj Hp1 (conj Hp2 (conj Ha1 (conj Ha2 (conj Hf1 Hf2))))))).
Defined.

(** C9 as stated fails, in two ways. With a receiver whose id is
    ["start-plates"], the arrow node of the first pass has [start-plates]
    among the tokens of its class and comes before the rendered group, so
    the second pass joins the start plates into the arrow node: the exit
    of that join is empty and the plate of the removed sender ["S"] stays
    in the rendered group. And keys are plain concatenations: after
    removing ["a"] (receiver ["b -> c"]) while ["a -> b"] (receiver ["c"])
    stays, the arrow key ["a -> b -> c"] that ["a"] contributed is still a
    key of the rendered arrows group. *)
Lemma removed_sender_stays :
  ("S", loneSender) ∈ arrows platesNamedProps /\
  Outcome_map (groupKeys "start-plates")
    (renders (ops := real_ops) sampleWidth
       [platesNamedProps; removeSender "S" platesNamedProps])
  = Done ["S"; "T"] /\
  Outcome_map exit_startPlates
    (Outcome_bind (renders (ops := real_ops) sampleWidth [platesNamedProps])
       (manageArrows sampleWidth (removeSender "S" platesNamedProps)))
  = Done [] /\
  ("a", senderA) ∈ arrows collidingProps /\
  (flat_arrows (senderStep sampleWidth (apPositions collidingProps) emptyFlat senderA "a")).*1
  = ["a -> b -> c"] /\
  Outcome_map (groupKeys "arrows")
    (renders (ops := real_ops) sampleWidth
       [collidingProps; removeSender "a" collidingProps])
  = Done ["a -> b -> c"].
Proof.
  split; [left |]. split; [vm_compute; reflexivity |].
  split; [vm_compute; reflexivity |]. split; [left |].
  split; vm_compute; reflexivity.
Qed.

(** ** The further properties at the sample inputs *)

Lemma flatten_arrow_entries_witness :
  let path := [pt (-5) 0; pt 0 0; pt 10 0; pt 20 5] in
  let e : Arrow :=
    ("S -> R", {| points := path;
                  handle := arrowHandleFromPoints sampleWidth path |}) in
  e ∈ flat_arrows (flatten sampleWidth sampleProps) /\
  (exists s sa r ca,
     (s, sa) ∈ arrows sampleProps /\ (r, ca) ∈ sa_arrows sa /\
     e.1 = fromToId_of s r /\
     points e.2 = startPoint sa :: ca_points ca).
Proof.
  intros path e.
  assert (He : e ∈ flat_arrows (flatten sampleWidth sampleProps)).
  { rewrite flatten_arrows. simpl. left. }
  split; [exact He |].
  exact (proj1 (flatten_arrow_entries (ops := real_ops) sampleWidth sampleProps e He)).
Defined.

Lemma flatten_apPositions_only_feets_witness :
  let unplaced := {| arrows := arrows sampleProps; apPositions := ∅ |} in
  startPlates (flatten sampleWidth unplaced)
  = startPlates (flatten sampleWidth sampleProps) /\
  flat_arrows (flatten sampleWidth unplaced)
  = flat_arrows (flatten sampleWidth sampleProps) /\
  connectors (flatten sampleWidth unplaced)
  = connectors (flatten sampleWidth sampleProps).
Proof.
  intros unplaced.
  apply (flatten_apPositions_only_feets (ops := real_ops) sampleWidth
           unplaced sampleProps).
  reflexivity.
Defined.

Lemma flatten_feets_grow_with_positions_witness :
  let unplaced := {| arrows := arrows sampleProps; apPositions := ∅ |} in
  feets (flatten sampleWidth unplaced)
    `sublist_of` feets (flatten sampleWidth sampleProps) /\
  feets (flatten sampleWidth unplaced) = [].
Proof.
  intros unplaced.
  destruct (flatten_feets_grow_with_positions (ops := real_ops) sampleWidth
              unplaced sampleProps eq_refl) as [Hgrow Hnone].
  split.
  - apply Hgrow. simpl. apply map_empty_subseteq.
  - apply Hnone. reflexivity.
Defined.

Lemma flatten_feets_count_witness :
  length (feets (flatten sampleWidth sampleProps)) <= 2 /\
  length (feets (flatten sampleWidth collidingProps)) = 2.
Proof.
  split.
  - exact (proj1 (flatten_feets_count (ops := real_ops) sampleWidth sampleProps)).
  - apply (proj2 (flatten_feets_count (ops := real_ops) sampleWidth collidingProps)).
    intros s sa r ca a Hs Hr Ha.
    assert (Hd : a = "d").
    { apply elem_of_cons in Hs as [Hs | Hs];
        [| apply list_elem_of_singleton in Hs]; injection Hs as -> ->;
        apply list_elem_of_singleton in Hr; injection Hr as -> ->;
        apply list_elem_of_singleton in Ha; exact Ha. }
    rewrite Hd. eexists. vm_compute. reflexivity.
Defined.

Lemma arrowHandle_reversal_witness :
  arrowHandleFromPoints sampleWidth [pt 9 9; pt 4 5; pt 1 1]
  = (fun h => (h.2, h.1))
      <$> arrowHandleFromPoints sampleWidth [pt 0 0; pt 1 1; pt 4 5; pt 7 7].
Proof.
  apply (arrowHandle_reversal sampleWidth
           [pt 0 0; pt 1 1; pt 4 5; pt 7 7] [pt 9 9; pt 4 5; pt 1 1]
           (pt 1 1) (pt 4 5)); reflexivity.
Defined.

Lemma startPlatesUpdate_after_enter_witness :
  startPlatesUpdate x y Rminus Rmult IZR ("S", pt 0 40)
    (startPlatesEnter x y Rminus Rmult IZR
       RenderSamples.sampleFill RenderSamples.sampleStroke
       RenderSamples.sampleLinkWidth ("S", pt (-5) 0))
  = startPlatesEnter x y Rminus Rmult IZR
      RenderSamples.sampleFill RenderSamples.sampleStroke
      RenderSamples.sampleLinkWidth ("S", pt 0 40).
Proof.
  apply (startPlatesUpdate_after_enter (ops := real_ops)). reflexivity.
Defined.

Lemma arrowsUpdate_after_enter_witness :
  let entered : Arrow :=
    ("S -> R", {| points := [pt (-5) 0; pt 0 0]; handle := None |}) in
  let next : Arrow :=
    ("S -> R", {| points := [pt (-5) 0; pt 0 0; pt 10 0];
                  handle := Some (pt 1 0, pt 9 0) |}) in
  arrowsUpdate x y Rmult IZR 10.87%R 11.61%R distance
    RenderSamples.sampleNormal RenderSamples.sharpCorner next
    (arrowsEnter x y Rmult IZR 10.87%R 11.61%R distance
       RenderSamples.sampleNormal RenderSamples.sharpCorner
       RenderSamples.sampleStroke RenderSamples.sampleFill
       RenderSamples.sampleLinkWidth entered)
  = arrowsEnter x y Rmult IZR 10.87%R 11.61%R distance
      RenderSamples.sampleNormal RenderSamples.sharpCorner
      RenderSamples.sampleStroke RenderSamples.sampleFill
      RenderSamples.sampleLinkWidth next.
Proof.
  intros entered next.
  apply (arrowsUpdate_after_enter (ops := real_ops)). reflexivity.
Defined.

Lemma feetsUpdate_after_enter_witness :
  feetsUpdate x y ("S -> R -> A", (pt 20 6, pt 31 9))
    (feetsEnter x y RenderSamples.sampleStroke RenderSamples.sampleLinkWidth
       ("S -> R -> A", (pt 20 5, pt 30 9)))
  = feetsEnter x y RenderSamples.sampleStroke RenderSamples.sampleLinkWidth
      ("S -> R -> A", (pt 20 6, pt 31 9)).
Proof.
  apply (feetsUpdate_after_enter (ops := real_ops)). reflexivity.
Defined.

Lemma connectorsUpdate_after_enter_witness :
  connectorsUpdate x y ("S -> R", pt 20 6)
    (connectorsEnter x y RenderSamples.sampleFill RenderSamples.sampleStroke
       RenderSamples.sampleLinkWidth ("S -> R", pt 20 5))
  = connectorsEnter x y RenderSamples.sampleFill RenderSamples.sampleStroke
      RenderSamples.sampleLinkWidth ("S -> R", pt 20 6).
Proof.
  apply (connectorsUpdate_after_enter (ops := real_ops)). reflexivity.
Defined.

End Instances.
